(** * The match-table algebra of [tacl.results.Results]

    A shallow embedding of the [Results] class of tacl (src/tacl/results.py)
    and the properties of its operations: reciprocal remove, prune by n-gram
    count per work, remove label, zero fill, reduce and extend.

    A results table ([self._matches], a pandas [DataFrame]) is a list of
    rows in index order.  Methods that only filter or rebuild the table are
    functions from tables to tables; methods that can raise return an
    [outcome] together with the table the object is left with. *)

From Stdlib Require Import String Ascii List ZArith Lia Bool Arith.
Import ListNotations.

Local Open Scope Z_scope.
Local Open Scope list_scope.

(** ** Part I: the model *)

(** *** Rows and tables *)

(** One results row; the fields are [constants.QUERY_FIELDNAMES]. *)
Record row : Type := mkRow
  { ngram : string;
    size : Z;
    work : string;
    siglum : string;
    label : string;
    count : Z }.

Definition DataFrame : Type := list row.

Definition row_eq_dec (a b : row) : {a = b} + {a <> b}.
Proof. repeat decide equality. Defined.

(** [(ngram, work, siglum)], the identity of a row in the data model. *)
Definition triple (r : row) : string * string * string :=
  (ngram r, work r, siglum r).

(** *** Exceptions and methods *)

Inductive exn : Type :=
| KeyError (key : string)
| IndexError
| IOError (work siglum : string).

Inductive outcome (A : Type) : Type :=
| Returned (a : A)
| Raised (e : exn)
| OutOfFuel.
Arguments Returned {A} a.
Arguments Raised {A} e.
Arguments OutOfFuel {A}.

(** A method of [Results] that may raise: from the table held in
    [self._matches] to its outcome and the table held afterwards. *)
Definition method (A : Type) : Type := DataFrame -> outcome A * DataFrame.

(** *** Python dictionaries, in insertion order *)

Section Dict.
Context {K V : Type}.
Variable K_dec : forall a b : K, {a = b} + {a <> b}.

Definition dict : Type := list (K * V).

(** [d[k]]; [None] stands for [KeyError]. *)
Fixpoint dget (k : K) (d : dict) : option V :=
  match d with
  | [] => None
  | (k', v) :: d' => if K_dec k k' then Some v else dget k d'
  end.

(** [d[k] = v]: an existing key keeps its place. *)
Fixpoint dset (k : K) (v : V) (d : dict) : dict :=
  match d with
  | [] => [(k, v)]
  | (k', v') :: d' =>
      if K_dec k k' then (k', v) :: d' else (k', v') :: dset k v d'
  end.

(** [d.setdefault(k, v)]: the dictionary afterwards and the value held. *)
Definition setdefault (k : K) (v : V) (d : dict) : dict * V :=
  match dget k d with
  | Some v' => (d, v')
  | None => (dset k v d, v)
  end.

Definition keys (d : dict) : list K := map fst d.
End Dict.

Arguments dict : clear implicits.

Definition pair_dec (a b : string * string) : {a = b} + {a <> b}.
Proof. decide equality; apply string_dec. Defined.

Definition tuple_dec (a b : list string) : {a = b} + {a <> b} :=
  list_eq_dec string_dec a b.

(** *** pandas helpers *)

(** [Series.nunique()]. *)
Definition nunique (s : list string) : nat := length (nodup string_dec s).

(** [df.groupby(key).filter(f)]: the rows whose group satisfies [f], in
    their original order. *)
Definition groupby_filter {K : Type} (K_dec : forall a b : K, {a = b} + {a <> b})
    (key : row -> K) (f : DataFrame -> bool) (df : DataFrame) : DataFrame :=
  filter (fun r => f (filter (fun r' => if K_dec (key r') (key r) then true else false) df)) df.

(** [Series.isin(values)]. *)
Definition isin (values : list string) (s : string) : bool :=
  existsb (String.eqb s) values.

(** [Series.value_counts()], as the mapping from each value to the number
    of its occurrences (the order of its index is not used). *)
Definition value_counts (s : list string) : dict string nat :=
  map (fun v => (v, count_occ string_dec s v)) (nodup string_dec s).

(** *** Reciprocal remove *)

Definition _reciprocal_remove (matches : DataFrame) : DataFrame :=
  let number_labels := nunique (map label matches) in
  let filtered := filter (fun r => 0 <? count r) matches in
  groupby_filter string_dec ngram
    (fun x => (nunique (map label x) =? number_labels)%nat) filtered.

Definition reciprocal_remove (matches : DataFrame) : DataFrame :=
  _reciprocal_remove matches.

(** *** Prune by n-gram count per work *)

(** The truth value of an optional integer argument: [None] and [0] are
    false. *)
Definition truthy (o : option Z) : bool :=
  match o with
  | Some z => negb (z =? 0)
  | None => false
  end.

Definition bound (o : option Z) : Z :=
  match o with
  | Some z => z
  | None => 0
  end.

Definition prune_by_ngram_count_per_work (minimum maximum : option Z)
    (matches : DataFrame) : DataFrame :=
  if truthy minimum && truthy maximum then
    let keep_ngrams :=
      map ngram (filter (fun r => (bound minimum <=? count r) && (count r <=? bound maximum)) matches) in
    filter (fun r => isin keep_ngrams (ngram r)) matches
  else if truthy minimum then
    let keep_ngrams :=
      map ngram (filter (fun r => bound minimum <=? count r) matches) in
    filter (fun r => isin keep_ngrams (ngram r)) matches
  else if truthy maximum then
    let keep_ngrams :=
      map ngram (filter (fun r => count r <=? bound maximum) matches) in
    filter (fun r => isin keep_ngrams (ngram r)) matches
  else matches.

(** *** Remove label *)

Definition remove_label (lbl : string) : method unit :=
  fun matches =>
    match dget string_dec lbl (value_counts (map label matches)) with
    | None => (Raised (KeyError lbl), matches)
    | Some _ =>
        (Returned tt, filter (fun r => negb (String.eqb (label r) lbl)) matches)
    end.

(** *** Corpus and catalogue *)

(** The corpus, as [Results] uses it: [get_sigla(work)], and the content
    of the witness [get_witness(work, siglum)] ([None] when the corpus has
    no such witness, where the call raises). *)
Record Corpus : Type := mkCorpus
  { get_sigla : string -> list string;
    get_witness : string -> string -> option string }.

(** The catalogue is a dictionary from work to label. *)
Definition Catalogue : Type := dict string string.

Definition items {K V : Type} (d : dict K V) : list (K * V) := d.

(** *** Zero fill *)

(** The dictionary [row_data] built for a group; its siglum entry is set
    only inside the loop over the sigla. *)
Record row_data : Type := mkRowData
  { rd_ngram : string;
    rd_label : string;
    rd_size : Z;
    rd_count : Z;
    rd_work : string;
    rd_siglum : option string }.

Definition set_siglum (s : string) (d : row_data) : row_data :=
  {| rd_ngram := rd_ngram d; rd_label := rd_label d; rd_size := rd_size d;
     rd_count := rd_count d; rd_work := rd_work d; rd_siglum := Some s |}.

(** The row that [pd.DataFrame] reads from a [row_data] dictionary that
    has its siglum. *)
Definition row_of_data (d : row_data) : option row :=
  match rd_siglum d with
  | Some s => Some (mkRow (rd_ngram d) (rd_size d) (rd_work d) s (rd_label d) (rd_count d))
  | None => None
  end.

(** The objects allocated by [zero_fill], by address: [zero_rows] is a list
    of references to them, and one object may be referred to many times. *)
Definition heap : Type := list row_data.

Fixpoint store {A : Type} (addr : nat) (f : A -> A) (h : list A) : list A :=
  match h, addr with
  | [], _ => []
  | x :: h', O => f x :: h'
  | x :: h', S a => x :: store a f h'
  end.

(** The values of a list in the order of their first occurrence
    ([drop_duplicates], the group keys of [groupby(..., sort=False)]). *)
Fixpoint unique {A : Type} (A_dec : forall a b : A, {a = b} + {a <> b})
    (l : list A) : list A :=
  match l with
  | [] => []
  | x :: l' => x :: filter (fun y => if A_dec y x then false else true) (unique A_dec l')
  end.

(** [df.groupby(key, sort=False)]: each key with its rows. *)
Definition groupby_unsorted {K : Type} (K_dec : forall a b : K, {a = b} + {a <> b})
    (key : row -> K) (df : DataFrame) : list (K * DataFrame) :=
  map (fun k => (k, filter (fun r => if K_dec (key r) k then true else false) df))
      (unique K_dec (map key df)).

Abbreviation sigla_data := (dict string (dict string (list string))).

(** [data[label][work].append(siglum)]. *)
Definition append_siglum (lbl wrk sig : string) (data : sigla_data) : sigla_data :=
  match dget string_dec lbl data with
  | Some works =>
      match dget string_dec wrk works with
      | Some sigla => dset string_dec lbl (dset string_dec wrk (sigla ++ [sig]) works) data
      | None => data
      end
  | None => data
  end.

(** One turn of the loop over [catalogue.items()]. *)
Definition add_work (corpus : Corpus) (data : sigla_data) (item : string * string)
    : sigla_data :=
  let '(wrk, lbl) := item in
  let '(data, works) :=
    setdefault string_dec lbl ([] : dict string (list string)) data in
  let data := dset string_dec lbl (dset string_dec wrk [] works) data in
  fold_left (fun data sig => append_siglum lbl wrk sig data) (get_sigla corpus wrk) data.

Definition witnesses_by_label (corpus : Corpus) (catalogue : Catalogue) : sigla_data :=
  fold_left (add_work corpus) (items catalogue) [].

Definition grouping_cols (r : row) : string * string * Z * string :=
  (label r, ngram r, size r, work r).

Definition grouping_cols_dec (a b : string * string * Z * string) : {a = b} + {a <> b}.
Proof. repeat decide equality. Defined.

(** One turn of the loop over the sigla of a group: [addr] is the address
    of the group's [row_data]. *)
Definition zero_fill_siglum (group : DataFrame) (addr : nat)
    (st : heap * list nat) (sig : string) : heap * list nat :=
  let '(h, zero_rows) := st in
  match filter (fun r => String.eqb (siglum r) sig) group with
  | [] => (store addr (set_siglum sig) h, zero_rows ++ [addr])
  | _ :: _ => (h, zero_rows)
  end.

(** One turn of the loop over the groups. *)
Definition zero_fill_group (data : sigla_data) (st : heap * list nat)
    (g : (string * string * Z * string) * DataFrame) : outcome (heap * list nat) :=
  let '((lbl, ng, sz, wrk), group) := g in
  let '(h, zero_rows) := st in
  let addr := length h in
  let h := h ++ [mkRowData ng lbl sz 0 wrk None] in
  match dget string_dec lbl data with
  | None => Raised (KeyError lbl)
  | Some works =>
      match dget string_dec wrk works with
      | None => Raised (KeyError wrk)
      | Some sigla => Returned (fold_left (zero_fill_siglum group addr) sigla (h, zero_rows))
      end
  end.

Fixpoint zero_fill_groups (data : sigla_data) (st : heap * list nat)
    (groups : list ((string * string * Z * string) * DataFrame))
    : outcome (heap * list nat) :=
  match groups with
  | [] => Returned st
  | g :: groups' =>
      match zero_fill_group data st g with
      | Returned st' => zero_fill_groups data st' groups'
      | Raised e => Raised e
      | OutOfFuel => OutOfFuel
      end
  end.

(** [pd.DataFrame(zero_rows, ...)]: every reference is read when the frame
    is built, after the loops. *)
Definition frame_of_refs (h : heap) (zero_rows : list nat) : DataFrame :=
  flat_map (fun addr =>
              match nth_error h addr with
              | Some d => match row_of_data d with Some r => [r] | None => [] end
              | None => []
              end) zero_rows.

Definition zero_fill (corpus : Corpus) (catalogue : Catalogue) : method unit :=
  fun matches =>
    let data := witnesses_by_label corpus catalogue in
    let grouped := groupby_unsorted grouping_cols_dec grouping_cols matches in
    match zero_fill_groups data ([], []) grouped with
    | Returned (h, zero_rows) =>
        let zero_df := frame_of_refs h zero_rows in
        (Returned tt, matches ++ zero_df)
    | Raised e => (Raised e, matches)
    | OutOfFuel => (OutOfFuel, matches)
    end.

(** *** Tokenizer and text *)

(** The tokenizer held by [Results]: [tokenize] and the [joiner] string
    ([joiner.join] is Python's [str.join], [String.concat]). *)
Record Tokenizer : Type := mkTokenizer
  { tokenize : string -> list string;
    joiner : string }.

Definition t_join (tokenizer : Tokenizer) (tokens : list string) : string :=
  String.concat (joiner tokenizer) tokens.

(** Python's [range(lo, hi)]. *)
Definition range (lo hi : Z) : list Z :=
  map (fun i => lo + Z.of_nat i) (seq 0 (Z.to_nat (hi - lo))).

(** [collections.Counter(l)], in the order of first occurrence. *)
Definition Counter (l : list string) : dict string nat :=
  fold_left (fun c x =>
               match dget string_dec x c with
               | Some n => dset string_dec x (S n) c
               | None => dset string_dec x 1%nat c
               end) l [].

(** Modelled from the spec: [Text.get_token_content] of tacl/text.py, which
    is not among the sources.  The token content of a witness is its
    token sequence in canonical joined form. *)
Definition get_token_content (tokenizer : Tokenizer) (content : string) : string :=
  t_join tokenizer (tokenize tokenizer content).

(** Modelled from the spec: the n-grams of one size of a token sequence
    ([Text._ngrams]), each contiguous run of [degree] tokens in canonical
    joined form, from left to right; an n-gram has one or more tokens. *)
Definition _ngrams (tokenizer : Tokenizer) (tokens : list string) (degree : Z)
    : list string :=
  if degree <? 1 then []
  else
    let n := Z.to_nat degree in
    map (fun i => t_join tokenizer (firstn n (skipn i tokens)))
        (seq 0 (length tokens + 1 - n)).

(** Modelled from the spec: [Text.get_ngrams(minimum, maximum)] of
    tacl/text.py, which is not among the sources: for each size from
    [minimum] to [maximum], the size and the counter of the n-grams of that
    size in the text. *)
Definition get_ngrams (tokenizer : Tokenizer) (content : string) (minimum maximum : Z)
    : list (Z * dict string nat) :=
  let tokens := tokenize tokenizer content in
  map (fun sz => (sz, Counter (_ngrams tokenizer tokens sz)))
      (range minimum (maximum + 1)).

(** *** Reduce *)

(** [{'count': ..., 'size': ...}] *)
Record ngram_data : Type := mkNgramData
  { nd_count : Z;
    nd_size : Z }.

Abbreviation witness_data := (dict string ngram_data).

(** A stable sort by decreasing key ([list.sort(key=..., reverse=True)]):
    each element goes after the elements already placed whose key is not
    smaller. *)
Fixpoint insert_desc {A : Type} (key : A -> Z) (x : A) (l : list A) : list A :=
  match l with
  | [] => [x]
  | y :: l' => if key y <? key x then x :: l else y :: insert_desc key x l'
  end.

Definition sort_desc {A : Type} (key : A -> Z) (l : list A) : list A :=
  fold_left (fun acc x => insert_desc key x acc) l [].

Definition _generate_substrings (tokenizer : Tokenizer) (ng : string) (sz : Z)
    : list string :=
  flat_map (fun '(sub_size, ngrams) =>
              flat_map (fun '(sub_ngram, cnt) => repeat sub_ngram cnt) (items ngrams))
           (get_ngrams tokenizer ng 1 (sz - 1)).

(** One turn of the loop over the substrings: [data[substring]['count'] -=
    count], or nothing when [data] has no such key. *)
Definition reduce_substring (cnt : Z) (data : witness_data) (substring : string)
    : witness_data :=
  match dget string_dec substring data with
  | None => data
  | Some substring_data =>
      dset string_dec substring
        (mkNgramData (nd_count substring_data - cnt) (nd_size substring_data)) data
  end.

(** [data[ngram]] is read first; the callers pass a key of [data]. *)
Definition _reduce_by_ngram (tokenizer : Tokenizer) (data : witness_data) (ng : string)
    : witness_data :=
  match dget string_dec ng data with
  | None => data
  | Some d =>
      let cnt := nd_count d in
      fold_left (reduce_substring cnt) (_generate_substrings tokenizer ng (nd_size d)) data
  end.

(** The first loop of [reduce], one row. *)
Definition reduce_load (st : dict (string * string) witness_data * dict string string)
    (r : row) : dict (string * string) witness_data * dict string string :=
  let '(data, labels) := st in
  let labels := dset string_dec (work r) (label r) labels in
  let '(data, wd) := setdefault pair_dec (work r, siglum r) ([] : witness_data) data in
  let wd := dset string_dec (ngram r) (mkNgramData (count r) (size r)) wd in
  (dset pair_dec (work r, siglum r) wd data, labels).

Definition size_in (wd : witness_data) (ng : string) : Z :=
  match dget string_dec ng wd with
  | Some d => nd_size d
  | None => 0
  end.

(** The second loop of [reduce], one witness. *)
Definition reduce_witness (tokenizer : Tokenizer) (wd : witness_data) : witness_data :=
  let ngrams := sort_desc (size_in wd) (keys wd) in
  fold_left (fun wd ng =>
               match dget string_dec ng wd with
               | Some d => if 0 <? nd_count d then _reduce_by_ngram tokenizer wd ng else wd
               | None => wd
               end) ngrams wd.

(** The third loop of [reduce]: the rows of one witness.  [labels[work]]
    exists for every work of [data]. *)
Definition reduce_rows (labels : dict string string)
    (item : (string * string) * witness_data) : list row :=
  let '((wrk, sig), wd) := item in
  flat_map (fun '(ng, d) =>
              if 0 <? nd_count d then
                match dget string_dec wrk labels with
                | Some lbl => [mkRow ng (nd_size d) wrk sig lbl (nd_count d)]
                | None => []
                end
              else []) (items wd).

Definition reduce (tokenizer : Tokenizer) (matches : DataFrame) : DataFrame :=
  let '(data, labels) := fold_left reduce_load matches ([], []) in
  let data := map (fun '(k, wd) => (k, reduce_witness tokenizer wd)) data in
  flat_map (reduce_rows labels) (items data).

(** *** Python sequences, sets and strings *)

(** [l[start:]] *)
Definition slice_from {A : Type} (start : Z) (l : list A) : list A :=
  let n := Z.of_nat (length l) in
  let s := if start <? 0 then Z.max 0 (start + n) else Z.min start n in
  skipn (Z.to_nat s) l.

(** [l[:stop]] *)
Definition slice_to {A : Type} (stop : Z) (l : list A) : list A :=
  let n := Z.of_nat (length l) in
  let e := if stop <? 0 then Z.max 0 (stop + n) else Z.min stop n in
  firstn (Z.to_nat e) l.

(** A Python [set] of tuples, as the list of its elements in the order in
    which they were added (the order in which Python iterates over a set
    is not specified; this is one such order). *)
Definition set_add (x : list string) (s : list (list string)) : list (list string) :=
  if in_dec tuple_dec x s then s else s ++ [x].

Definition set_of (l : list (list string)) : list (list string) :=
  fold_left (fun s x => set_add x s) l [].

Definition set_minus (s removals : list (list string)) : list (list string) :=
  filter (fun x => if in_dec tuple_dec x removals then false else true) s.

(** [s in text] *)
Fixpoint contains (text s : string) : bool :=
  String.prefix s text
  || match text with
     | EmptyString => false
     | String _ text' => contains text' s
     end.

(** The replacement of a non-empty literal pattern from left to right;
    [skip] counts the characters of the current match still to pass. *)
Fixpoint subn_from (pat repl : string) (skip : nat) (text : string) : string * nat :=
  match text with
  | EmptyString => (EmptyString, 0%nat)
  | String c text' =>
      match skip with
      | S k => subn_from pat repl k text'
      | O =>
          if String.prefix pat text then
            let '(out, n) := subn_from pat repl (String.length pat - 1) text' in
            (String.append repl out, S n)
          else
            let '(out, n) := subn_from pat repl 0 text' in
            (String c out, n)
      end
  end.

Fixpoint interleave (repl text : string) : string :=
  match text with
  | EmptyString => repl
  | String c text' => String.append repl (String c (interleave repl text'))
  end.

(** [re.subn(re.escape(pat), repl, text)]: the text with the occurrences
    of the literal [pat] replaced, leftmost first and without overlap, and
    their number; the empty pattern matches at every position. *)
Definition re_subn_escaped (pat repl text : string) : string * nat :=
  match pat with
  | EmptyString => (interleave repl text, S (String.length text))
  | String _ _ => subn_from pat repl 0 text
  end.

(** [Series.max()] of a non-empty column. *)
Definition series_max (s : list Z) : Z :=
  match s with
  | [] => 0
  | x :: s' => fold_left Z.max s' x
  end.

(** *** Extend *)

(** [results.iloc[0]] exists: [extend] returns before on an empty table. *)
Definition _is_intersect_results (results : DataFrame) : bool :=
  match results with
  | [] => false
  | sample :: _ =>
      match filter (fun r => String.eqb (ngram r) (ngram sample)
                             && negb (String.eqb (label r) (label sample))) results with
      | [] => false
      | _ :: _ => true
      end
  end.

(** One turn of the loop that builds [ngram_index]. *)
Definition index_ngram (ngram_index : dict (list string) (list (list string)))
    (ng : list string) : dict (list string) (list (list string)) :=
  let '(ngram_index, values) :=
    setdefault tuple_dec (slice_to (-1) ng) ([] : list (list string)) ngram_index in
  dset tuple_dec (slice_to (-1) ng) (values ++ [slice_from (-1) ng]) ngram_index.

(** One turn of the loop over the next tokens of a base:
    [(extended_ngrams, new_working_ngrams, remove_base)]. *)
Definition try_extension (tokenizer : Tokenizer) (text : string) (base : list string)
    (st : list (list string) * list (list string) * bool) (next_token : list string)
    : list (list string) * list (list string) * bool :=
  let '(extended_ngrams, new_working_ngrams, remove_base) := st in
  let extension := base ++ next_token in
  if contains text (t_join tokenizer extension) then
    (set_add extension extended_ngrams, new_working_ngrams ++ [extension], true)
  else st.

(** One turn of the loop over the working n-grams:
    [(extended_ngrams, new_working_ngrams, removals)]. *)
Definition extend_base (tokenizer : Tokenizer) (text : string) (overlap : Z)
    (ngram_index : dict (list string) (list (list string)))
    (st : list (list string) * list (list string) * list (list string))
    (base : list string)
    : list (list string) * list (list string) * list (list string) :=
  let '(extended_ngrams, new_working_ngrams, removals) := st in
  let base_overlap := slice_from (- overlap) base in
  let next_tokens :=
    match dget tuple_dec base_overlap ngram_index with
    | Some values => values
    | None => []
    end in
  let '(extended_ngrams, new_working_ngrams, remove_base) :=
    fold_left (try_extension tokenizer text base) next_tokens
      (extended_ngrams, new_working_ngrams, false) in
  (extended_ngrams, new_working_ngrams,
   if remove_base then set_add base removals else removals).

(** The [while working_ngrams] loop; [None] when the fuel runs out. *)
Fixpoint extend_rounds (fuel : nat) (tokenizer : Tokenizer) (text : string) (overlap : Z)
    (ngram_index : dict (list string) (list (list string)))
    (working_ngrams extended_ngrams : list (list string))
    : option (list (list string)) :=
  match working_ngrams with
  | [] => Some extended_ngrams
  | _ :: _ =>
      match fuel with
      | O => None
      | S fuel' =>
          let '(extended_ngrams, new_working_ngrams, removals) :=
            fold_left (extend_base tokenizer text overlap ngram_index) working_ngrams
              (extended_ngrams, [], []) in
          extend_rounds fuel' tokenizer text overlap ngram_index
            new_working_ngrams (set_minus extended_ngrams removals)
      end
  end.

(** One turn of the loop that overlays the extended n-grams on the text. *)
Definition align_ngram (st : string * list string) (ng : string) : string * list string :=
  let '(text, ngrams) := st in
  let '(text, cnt) := re_subn_escaped ng "  " text in
  (text, ngrams ++ repeat ng cnt).

(** [_generate_extended_ngrams]; of its logging only the read of
    [extended_ngrams[0]] is kept, which raises on an empty list. *)
Definition _generate_extended_ngrams (fuel : nat) (tokenizer : Tokenizer)
    (matches : DataFrame) (wrk sig lbl : string) (corpus : Corpus) (highest_n : Z)
    : outcome (list string) :=
  let witness_matches :=
    filter (fun r => String.eqb (work r) wrk && String.eqb (siglum r) sig
                     && String.eqb (label r) lbl) matches in
  match get_witness corpus wrk sig with
  | None => Raised (IOError wrk sig)
  | Some content =>
      let text := get_token_content tokenizer content in
      let ngrams := map (fun r => tokenize tokenizer (ngram r)) witness_matches in
      let working_ngrams := ngrams in
      let extended_ngrams := set_of ngrams in
      let overlap := highest_n - 1 in
      let ngram_index := fold_left index_ngram ngrams [] in
      match extend_rounds fuel tokenizer text overlap ngram_index
              working_ngrams extended_ngrams with
      | None => OutOfFuel
      | Some extended_ngrams =>
          let extended_ngrams :=
            sort_desc (fun ng => Z.of_nat (length ng)) extended_ngrams in
          let extended_ngrams := map (t_join tokenizer) extended_ngrams in
          match extended_ngrams with
          | [] => Raised IndexError
          | _ :: _ => Returned (snd (fold_left align_ngram extended_ngrams (text, [])))
          end
      end
  end.

Definition groupby_fields (r : row) : string * string * string * Z * string :=
  (ngram r, work r, siglum r, size r, label r).

Definition groupby_fields_dec (a b : string * string * string * Z * string)
  : {a = b} + {a <> b}.
Proof. repeat decide equality. Defined.

Definition then_compare (c c' : comparison) : comparison :=
  match c with
  | Eq => c'
  | _ => c
  end.

(** The order of the group keys of a sorted [groupby]. *)
Definition groupby_fields_ltb (a b : string * string * string * Z * string) : bool :=
  let '(ng, wrk, sig, sz, lbl) := a in
  let '(ng', wrk', sig', sz', lbl') := b in
  match then_compare (String.compare ng ng')
          (then_compare (String.compare wrk wrk')
             (then_compare (String.compare sig sig')
                (then_compare (Z.compare sz sz') (String.compare lbl lbl')))) with
  | Lt => true
  | _ => false
  end.

Fixpoint insert_sorted {A : Type} (ltb : A -> A -> bool) (x : A) (l : list A) : list A :=
  match l with
  | [] => [x]
  | y :: l' => if ltb x y then x :: l else y :: insert_sorted ltb x l'
  end.

(** [df.groupby(groupby_fields).sum().reset_index()]: one row for each
    key, in the order of the keys, with the sum of the counts. *)
Definition groupby_sum (df : DataFrame) : DataFrame :=
  map (fun k =>
         let '(ng, wrk, sig, sz, lbl) := k in
         mkRow ng sz wrk sig lbl
           (fold_left Z.add
              (map count
                 (filter (fun r => if groupby_fields_dec (groupby_fields r) k
                                   then true else false) df)) 0))
      (fold_right (insert_sorted groupby_fields_ltb) []
         (unique groupby_fields_dec (map groupby_fields df))).

Definition _generate_extended_matches (tokenizer : Tokenizer)
    (extended_ngrams : list string) (highest_n : Z) (wrk sig lbl : string)
    : DataFrame :=
  let rows_list :=
    flat_map (fun extended_ngram =>
                flat_map (fun '(sz, ngrams) =>
                            map (fun '(ng, cnt) => mkRow ng sz wrk sig lbl (Z.of_nat cnt))
                                (items ngrams))
                  (get_ngrams tokenizer extended_ngram (highest_n + 1)
                     (Z.of_nat (length (tokenize tokenizer extended_ngram)))))
             extended_ngrams in
  match rows_list with
  | [] => []
  | _ :: _ => groupby_sum rows_list
  end.

Definition witness_cols (r : row) : string * string * string :=
  (work r, siglum r, label r).

Definition witness_cols_dec (a b : string * string * string) : {a = b} + {a <> b}.
Proof. repeat decide equality. Defined.

(** The loop of [extend] over the witnesses of the largest n-grams. *)
Fixpoint extend_witnesses (fuel : nat) (tokenizer : Tokenizer) (corpus : Corpus)
    (matches : DataFrame) (highest_n : Z) (witnesses : list (string * string * string))
    (extended_matches : DataFrame) : outcome DataFrame :=
  match witnesses with
  | [] => Returned extended_matches
  | (wrk, sig, lbl) :: witnesses' =>
      match _generate_extended_ngrams fuel tokenizer matches wrk sig lbl corpus highest_n with
      | Returned extended_ngrams =>
          extend_witnesses fuel tokenizer corpus matches highest_n witnesses'
            (extended_matches
             ++ _generate_extended_matches tokenizer extended_ngrams highest_n wrk sig lbl)
      | Raised e => Raised e
      | OutOfFuel => OutOfFuel
      end
  end.

Definition highest_size (matches : DataFrame) : Z := series_max (map size matches).

(** [extend]; [fuel] bounds the rounds of each [while] loop. *)
Definition extend (fuel : nat) (tokenizer : Tokenizer) (corpus : Corpus) : method unit :=
  fun self_matches =>
    match self_matches with
    | [] => (Returned tt, self_matches)
    | _ :: _ =>
        let highest_n := highest_size self_matches in
        if highest_n =? 1 then (Returned tt, self_matches)
        else
          let is_intersect := _is_intersect_results self_matches in
          let matches := filter (fun r => size r =? highest_n) self_matches in
          match extend_witnesses fuel tokenizer corpus matches highest_n
                  (unique witness_cols_dec (map witness_cols matches)) [] with
          | Returned extended_matches =>
              let extended_matches :=
                if is_intersect then _reciprocal_remove extended_matches
                else extended_matches in
              (Returned tt, self_matches ++ extended_matches)
          | Raised e => (Raised e, self_matches)
          | OutOfFuel => (OutOfFuel, self_matches)
          end
    end.

(** ** Further operations of [Results] *)

From Stdlib Require Import Permutation Sorted.

(** *** Sort *)

(** The order of [sort]: size (descending), n-gram, count (descending),
    label, work, siglum; strings compare character by character, as
    Python's do. *)
Definition sort_compare (a b : row) : comparison :=
  then_compare (Z.compare (size b) (size a))
    (then_compare (String.compare (ngram a) (ngram b))
       (then_compare (Z.compare (count b) (count a))
          (then_compare (String.compare (label a) (label b))
             (then_compare (String.compare (work a) (work b))
                (String.compare (siglum a) (siglum b)))))).

Definition sort_ltb (a b : row) : bool :=
  match sort_compare a b with
  | Lt => true
  | _ => false
  end.

(** [sort_values(by=[...], ascending=[...])]: the six keys are all the
    fields of a row, so rows that compare equal are equal and the sorted
    table does not depend on how ties are broken. *)
Definition sort (matches : DataFrame) : DataFrame :=
  fold_right (insert_sorted sort_ltb) [] matches.

(** *** Prune by n-gram, by size, by total count and by work count *)

Definition prune_by_ngram (ngrams : list string) (matches : DataFrame) : DataFrame :=
  filter (fun r => negb (isin ngrams (ngram r))) matches.

Definition prune_by_ngram_size (minimum maximum : option Z) (matches : DataFrame)
    : DataFrame :=
  let matches :=
    if truthy minimum then filter (fun r => bound minimum <=? size r) matches
    else matches in
  if truthy maximum then filter (fun r => size r <=? bound maximum) matches
  else matches.

(** [sorted(l)] of strings; the group keys of a sorted [groupby]. *)
Definition sort_strings (l : list string) : list string :=
  fold_right (insert_sorted String.ltb) [] l.




(** [prune_by_work_count].  [counts] maps each n-gram that has a row with
    a positive count to the number of distinct works of such rows; the
    inner [pd.merge] keeps the rows whose n-gram is still a key of
    [counts] (in the order of the left frame). *)
Definition prune_by_work_count (minimum maximum : option Z) (matches : DataFrame)
    : DataFrame :=
  let filtered := filter (fun r => 0 <? count r) matches in
  let counts : dict string nat :=
    map (fun g => (g, nunique (map work
                         (filter (fun r => String.eqb (ngram r) g) filtered))))
        (sort_strings (unique string_dec (map ngram filtered))) in
  let counts :=
    if truthy minimum then filter (fun p => bound minimum <=? Z.of_nat (snd p)) counts
    else counts in
  let counts :=
    if truthy maximum then filter (fun p => Z.of_nat (snd p) <=? bound maximum) counts
    else counts in
  filter (fun r => isin (keys counts) (ngram r)) matches.

(** *** Label count *)


(** *** Collapse witnesses *)

(** A row after [collapse_witnesses]: [sigla] in place of [siglum]. *)
Record collapsed_row : Type := mkCollapsedRow
  { c_ngram : string;
    c_size : Z;
    c_work : string;
    c_label : string;
    c_count : Z;
    c_sigla : string }.

Definition double_quote : string := String "034"%char EmptyString.

(** A siglum as [merge_sigla] lists it: quoted when it has a space. *)
Definition quote_siglum (s : string) : string :=
  if contains s " " then String.append double_quote (String.append s double_quote)
  else s.

(** [merge_sigla]: the first row of the group, with the sorted sigla of
    the whole group joined by spaces. *)
Definition merge_sigla (df : DataFrame) : list collapsed_row :=
  match df with
  | [] => []
  | merged :: _ =>
      let sigla := sort_strings (map quote_siglum (map siglum df)) in
      [ mkCollapsedRow (ngram merged) (size merged) (work merged) (label merged)
          (count merged) (String.concat " " sigla) ]
  end.

Definition collapse_cols (r : row) : string * string * Z :=
  (work r, ngram r, count r).

Definition collapse_cols_dec (a b : string * string * Z) : {a = b} + {a <> b}.
Proof. repeat decide equality. Defined.

(** The rows of [collapse_witnesses]: one for each group of (work, n-gram,
    count), the groups in the order of their first rows.  (Of an empty
    table the result is empty; what deleting the siglum column of that
    empty result does is not modelled.) *)
Definition collapse_witnesses (matches : DataFrame) : list collapsed_row :=
  flat_map (fun g => merge_sigla (snd g))
           (groupby_unsorted collapse_cols_dec collapse_cols matches).
(** *** Notions used to state the properties *)

(** The number of distinct labels among the positive-count rows of the
    n-gram [g]. *)
Definition attested_labels (g : string) (t : DataFrame) : nat :=
  nunique (map label
    (filter (fun x => (if string_dec (ngram x) g then true else false) && (0 <? count x)) t)).

(** The test that reciprocal remove applies to a row of the table [t]. *)
Definition kept_by_reciprocal_remove (t : DataFrame) (r : row) : bool :=
  (0 <? count r) && (attested_labels (ngram r) t =? nunique (map label t))%nat.

(** A count lies within the bounds of a prune, where a bound that is not
    given, or is [0], does not bind. *)
Definition within_bounds (minimum maximum : option Z) (c : Z) : Prop :=
  (truthy minimum = true -> bound minimum <= c)
  /\ (truthy maximum = true -> c <= bound maximum).

Definition within_boundsb (minimum maximum : option Z) (c : Z) : bool :=
  (negb (truthy minimum) || (bound minimum <=? c))
  && (negb (truthy maximum) || (c <=? bound maximum)).

(** [d[a][b]] in a dictionary of dictionaries. *)
Definition dget2 {K1 K2 V : Type}
    (K1_dec : forall a b : K1, {a = b} + {a <> b})
    (K2_dec : forall a b : K2, {a = b} + {a <> b})
    (a : K1) (b : K2) (d : dict K1 (dict K2 V)) : option V :=
  match dget K1_dec a d with
  | Some inner => dget K2_dec b inner
  | None => None
  end.

(** [data[label][work]] in the dictionary of witnesses by label. *)
Definition lookup2 (data : sigla_data) (lbl wrk : string) : option (list string) :=
  dget2 string_dec string_dec lbl wrk data.

(** Every object of the heap has a count of 0. *)
Definition zero_counts (h : heap) : Prop := Forall (fun d => rd_count d = 0) h.

(** [data[label][work]] exists for the key of a group. *)
Definition catalogued (data : sigla_data) (k : string * string * Z * string) : Prop :=
  let '(lbl, _, _, wrk) := k in lookup2 data lbl wrk <> None.

(** A dictionary as Python holds it: no key twice. *)
Definition well_keyed {K V : Type} (d : dict K V) : Prop := NoDup (keys d).

(** [wd'] has the keys of [wd], in their order, with the same sizes and
    with counts that are not greater. *)
Definition lowered (wd wd' : witness_data) : Prop :=
  keys wd' = keys wd
  /\ forall k,
       match dget string_dec k wd', dget string_dec k wd with
       | Some d', Some d => nd_count d' <= nd_count d /\ nd_size d' = nd_size d
       | None, None => True
       | _, _ => False
       end.

(** What the first loop of [reduce] has recorded of the rows [seen]: every
    entry of [data] holds the count of a row of its triple. *)
Definition loaded (seen : list row) (data : dict (string * string) witness_data) : Prop :=
  well_keyed data
  /\ (forall ws wd, In (ws, wd) data -> well_keyed wd)
  /\ (forall ws ng d, dget2 pair_dec string_dec ws ng data = Some d ->
        exists r, In r seen /\ triple r = (ng, fst ws, snd ws)
                  /\ count r = nd_count d).

(** [s] occurs in [t] as a literal substring. *)
Definition substring_of (s t : string) : Prop :=
  exists pre post, t = String.append pre (String.append s post).

(** A token is a string that [tokenize] produces from some text. *)
Definition is_token (tokenizer : Tokenizer) (tok : string) : Prop :=
  exists s, In tok (tokenize tokenizer s).

(** The contract of the tokenizer: tokenizing the joined form of a
    sequence of tokens gives the sequence back. *)
Definition roundtrips (tokenizer : Tokenizer) : Prop :=
  forall tokens, Forall (is_token tokenizer) tokens ->
    tokenize tokenizer (t_join tokenizer tokens) = tokens.

(** The invariant of the data model on the largest n-grams of a table:
    their size is their number of tokens. *)
Definition sizes_agree (tokenizer : Tokenizer) (t : DataFrame) : Prop :=
  forall r, In r t -> size r = highest_size t ->
    Z.of_nat (length (tokenize tokenizer (ngram r))) = size r.

(** What [_generate_extended_ngrams] knows of a tuple in its set: it is
    made of tokens, and it is one of the n-grams of the results or its
    joined form occurs in the text. *)
Definition verified (tokenizer : Tokenizer) (text : string)
    (bases : list (list string)) (x : list string) : Prop :=
  Forall (is_token tokenizer) x
  /\ (In x bases \/ contains text (t_join tokenizer x) = true).

(** Every value of the index of n-grams is a tuple of tokens. *)
Definition token_values (tokenizer : Tokenizer)
    (ngram_index : dict (list string) (list (list string))) : Prop :=
  forall k vs v, dget tuple_dec k ngram_index = Some vs -> In v vs ->
    Forall (is_token tokenizer) v.

(** Every value of the index of n-grams is a tuple of one token. *)
Definition unit_values (ngram_index : dict (list string) (list (list string))) : Prop :=
  forall k vs v, dget tuple_dec k ngram_index = Some vs -> In v vs -> length v = 1%nat.

(** [x] is a working n-gram followed by a next token of the index, and its
    joined form occurs in the text. *)
Definition extension_of (tokenizer : Tokenizer) (text : string)
    (ngram_index : dict (list string) (list (list string)))
    (working_ngrams : list (list string)) (x : list string) : Prop :=
  exists base next_token k vs,
    In base working_ngrams /\ dget tuple_dec k ngram_index = Some vs
    /\ In next_token vs /\ x = base ++ next_token
    /\ contains text (t_join tokenizer x) = true.

(** The length of the longest token content among the witnesses that the
    rows of a table name. *)
Definition longest_text (tokenizer : Tokenizer) (corpus : Corpus) (t : DataFrame) : nat :=
  list_max
    (map (fun r =>
            match get_witness corpus (work r) (siglum r) with
            | Some content => String.length (get_token_content tokenizer content)
            | None => 0%nat
            end) t).

(** The set of extended n-grams holds verified tuples, and the new working
    n-grams are tuples of tokens. *)
Definition good_state (tokenizer : Tokenizer) (text : string) (bases : list (list string))
    (extended_ngrams new_working_ngrams : list (list string)) : Prop :=
  Forall (verified tokenizer text bases) extended_ngrams
  /\ Forall (Forall (is_token tokenizer)) new_working_ngrams.

(** The sigla of a work for which a group has no row. *)
Definition missing_sigla (group : DataFrame) (sigla : list string) : list string :=
  filter (fun sig =>
            match filter (fun r => String.eqb (siglum r) sig) group with
            | [] => true
            | _ :: _ => false
            end) sigla.

(** The rows that zero fill adds for a group: as many as the group misses
    sigla, each a reading of the one [row_data] of the group, which by
    then names the last missing siglum. *)
Definition zero_rows_of_group (data : sigla_data)
    (g : (string * string * Z * string) * DataFrame) : list row :=
  let '((lbl, ng, sz, wrk), group) := g in
  match lookup2 data lbl wrk with
  | Some sigla =>
      let missing := missing_sigla group sigla in
      repeat (mkRow ng sz wrk (last missing EmptyString) lbl 0) (length missing)
  | None => []
  end.

(** Every reference is the address of an object of the heap. *)
Definition valid_refs (h : heap) (zero_rows : list nat) : Prop :=
  Forall (fun addr => (addr < length h)%nat) zero_rows.

(** A comparison that orders its arguments totally up to the equivalence
    of comparing equal. *)
Definition weak_order {A : Type} (cmp : A -> A -> comparison) : Prop :=
  (forall a b, cmp a b = CompOpp (cmp b a))
  /\ (forall a b c, cmp a b = Lt -> cmp b c = Lt -> cmp a c = Lt)
  /\ (forall a b, cmp a b = Eq -> forall x, cmp a x = cmp b x).

(** [a] does not come after [b] in the order of [sort]. *)
Definition sort_le (a b : row) : Prop := sort_compare a b <> Gt.

(** The number of distinct works among the positive-count rows of the
    n-gram [g]. *)
Definition attesting_works (g : string) (t : DataFrame) : nat :=
  nunique (map work
    (filter (fun r => String.eqb (ngram r) g && (0 <? count r)) t)).

(** The columns by which [collapse_witnesses] groups, of a collapsed row. *)
Definition collapsed_cols (o : collapsed_row) : string * string * Z :=
  (c_work o, c_ngram o, c_count o).

(** What the first loop of [reduce] holds after the rows [seen]: the size
    of every entry is the size of a row of its triple, and the label of
    every work is the label of a row of that work. *)
Definition recorded (seen : list row)
    (st : dict (string * string) witness_data * dict string string) : Prop :=
  (forall ws ng d, dget2 pair_dec string_dec ws ng (fst st) = Some d ->
     exists r, In r seen /\ triple r = (ng, fst ws, snd ws) /\ size r = nd_size d)
  /\ (forall w l, dget string_dec w (snd st) = Some l ->
        exists r, In r seen /\ work r = w /\ label r = l).

(** The group of [r0] in the grouping of [zero_fill]. *)
Definition zero_fill_group_of (t : DataFrame) (r0 : row) : DataFrame :=
  filter (fun r => if grouping_cols_dec (grouping_cols r) (grouping_cols r0)
                   then true else false) t.

(** *** Example tables *)

(** The table on which [C1] fails as first stated: the n-gram [x] is kept,
    and its zero-count row is not retained. *)
Definition table_with_zero_row : DataFrame :=
  [ mkRow "x" 2 "W1" "base" "A" 1;
    mkRow "x" 2 "W1" "a" "A" 0 ].

(** Scenario C of the specification: one n-gram, a count of 3 in one work
    and of 1 in another. *)
Definition scenario_C : DataFrame :=
  [ mkRow "x" 1 "W1" "base" "A" 3;
    mkRow "x" 1 "W2" "base" "B" 1 ].

(** A zero-filled table: [y] is absent from one witness, [x] from none. *)
Definition table_with_absent_witness : DataFrame :=
  [ mkRow "x" 1 "W1" "base" "A" 2;
    mkRow "y" 1 "W1" "base" "A" 1;
    mkRow "y" 1 "W2" "base" "B" 0 ].

Definition scenario_A : DataFrame :=
  [ mkRow "x y" 2 "W1" "base" "A" 1;
    mkRow "x y" 2 "W2" "base" "B" 1 ].

(** A work with three witnesses, of which the table has one. *)
Definition three_witness_corpus : Corpus :=
  {| get_sigla := fun w => if String.eqb w "W" then ["s1"; "s2"; "s3"]%string else [];
     get_witness := fun _ _ => None |}.

Definition one_work_catalogue : Catalogue := [("W", "A")]%string.

Definition one_row_table : DataFrame :=
  [ mkRow "a" 1 "W" "s1" "A" 2 ].

(** A table with a row of a work that the catalogue does not list. *)
Definition uncatalogued_table : DataFrame :=
  [ mkRow "a" 1 "W" "s1" "A" 2;
    mkRow "a" 1 "V" "s1" "B" 1 ].

(** A tokenizer in the manner of the CBETA one of the tests: every
    character is a token and the joiner is empty. *)
Fixpoint characters (s : string) : list string :=
  match s with
  | EmptyString => []
  | String c s' => String c EmptyString :: characters s'
  end.

Definition character_tokenizer : Tokenizer :=
  {| tokenize := characters; joiner := EmptyString |}.

(** Scenario B of the specification after extension, with [a], [b], [c],
    [d] for the tokens: a 4-gram and its two trigrams in one witness. *)
Definition extended_scenario_B : DataFrame :=
  [ mkRow "abc" 3 "W" "base" "A" 1;
    mkRow "bcd" 3 "W" "base" "A" 1;
    mkRow "abcd" 4 "W" "base" "A" 1 ].

(** A bigram and its two unigrams in one witness. *)
Definition bigram_table : DataFrame :=
  [ mkRow "a" 1 "W" "base" "A" 3;
    mkRow "ab" 2 "W" "base" "A" 2;
    mkRow "b" 1 "W" "base" "A" 2 ].

(** Scenario B of the specification: the witness text [a b c d] and its
    two trigrams. *)
Definition scenario_B_corpus : Corpus :=
  {| get_sigla := fun _ => ["base"]%string;
     get_witness := fun w s =>
       if String.eqb w "W" && String.eqb s "base" then Some "abcd"%string else None |}.

Definition scenario_B : DataFrame :=
  [ mkRow "abc" 3 "W" "base" "A" 1;
    mkRow "bcd" 3 "W" "base" "A" 1 ].


(** Scenario D of the specification, with a third witness whose siglum has
    a space. *)
Definition scenario_D : DataFrame :=
  [ mkRow "x" 1 "W" "b" "A" 5;
    mkRow "x" 1 "W" "a" "A" 5;
    mkRow "x" 1 "W" "c d" "A" 4 ].

(** A work with two witnesses, of which the table has one. *)
Definition two_witness_corpus : Corpus :=
  {| get_sigla := fun w => if String.eqb w "W" then ["s1"; "s2"]%string else [];
     get_witness := fun _ _ => None |}.

(** ** Part II: properties *)

(** *** Lists and filters *)

Lemma filter_filter_andb {A : Type} (f g : A -> bool) (l : list A) :
  filter f (filter g l) = filter (fun x => f x && g x) l.
Proof.
  induction l as [|a l IH]; simpl; [reflexivity|].
  destruct (g a) eqn:Hg; simpl.
  - destruct (f a); simpl; now rewrite IH.
  - rewrite andb_false_r. exact IH.
Qed.

Lemma filter_all {A : Type} (f : A -> bool) (l : list A) :
  (forall x, In x l -> f x = true) -> filter f l = l.
Proof.
  induction l as [|a l IH]; simpl; intros H; [reflexivity|].
  rewrite (H a (or_introl eq_refl)). f_equal. apply IH. intros x Hx. apply H. now right.
Qed.

Lemma nunique_incl (a b : list string) : incl a b -> (nunique a <= nunique b)%nat.
Proof.
  intros H. unfold nunique. apply NoDup_incl_length.
  - apply NoDup_nodup.
  - intros x Hx. apply nodup_In. apply H. now apply nodup_In in Hx.
Qed.

Lemma isin_In (values : list string) (s : string) :
  isin values s = true <-> In s values.
Proof.
  unfold isin. rewrite existsb_exists. split.
  - intros [x [Hx He]]. apply String.eqb_eq in He. now subst.
  - intros H. exists s. split; [exact H | apply String.eqb_refl].
Qed.

Lemma In_unique {A : Type} (A_dec : forall a b : A, {a = b} + {a <> b})
    (l : list A) (x : A) :
  In x (unique A_dec l) <-> In x l.
Proof.
  induction l as [|a l IH]; simpl; [tauto|].
  rewrite filter_In, IH.
  destruct (A_dec x a) as [e|n].
  - subst x. split; intros _; now left.
  - split.
    + intros [H|[H _]]; [now left | now right].
    + intros [H|H]; [now left | right; split; [exact H | reflexivity]].
Qed.

Lemma NoDup_map_eq {A B : Type} (f : A -> B) (l : list A) (a b : A) :
  NoDup (map f l) -> In a l -> In b l -> f a = f b -> a = b.
Proof.
  induction l as [|x l IH]; simpl; intros Hn Ha Hb He; [contradiction|].
  inversion Hn as [|y l' Hx Hl]; subst.
  destruct Ha as [Ha|Ha], Hb as [Hb|Hb].
  - congruence.
  - subst x. exfalso. apply Hx. rewrite He. now apply in_map.
  - subst x. exfalso. apply Hx. rewrite <- He. now apply in_map.
  - now apply IH.
Qed.

Lemma Forall_store {A : Type} (P : A -> Prop) (f : A -> A) (addr : nat) (h : list A) :
  (forall x, P x -> P (f x)) -> Forall P h -> Forall P (store addr f h).
Proof.
  intros Hf. revert addr. induction h as [|x h IH]; intros addr H; simpl.
  - destruct addr; constructor.
  - inversion H; subst. destruct addr; constructor; auto.
Qed.

(** *** Dictionaries *)

Section DictFacts.
Context {K V : Type}.
Variable K_dec : forall a b : K, {a = b} + {a <> b}.

Lemma dget_dset_eq (k : K) (v : V) (d : dict K V) :
  dget K_dec k (dset K_dec k v d) = Some v.
Proof.
  induction d as [|[k' v'] d IH]; simpl.
  - destruct (K_dec k k); congruence.
  - destruct (K_dec k k') as [e|n]; simpl.
    + destruct (K_dec k k'); congruence.
    + destruct (K_dec k k'); congruence.
Qed.

Lemma dget_dset_ne (k k' : K) (v : V) (d : dict K V) :
  k <> k' -> dget K_dec k' (dset K_dec k v d) = dget K_dec k' d.
Proof.
  intros Hne. induction d as [|[k0 v0] d IH]; simpl.
  - destruct (K_dec k' k); congruence.
  - destruct (K_dec k k0) as [e|n]; simpl.
    + subst k0. destruct (K_dec k' k); congruence.
    + destruct (K_dec k' k0); congruence.
Qed.

Lemma dget_In (k : K) (v : V) (d : dict K V) :
  dget K_dec k d = Some v -> In (k, v) d.
Proof.
  induction d as [|[k' v'] d IH]; simpl; [discriminate|].
  destruct (K_dec k k') as [e|n].
  - intros H. left. congruence.
  - intros H. right. auto.
Qed.

Lemma keys_dset (k : K) (v : V) (d : dict K V) :
  keys (dset K_dec k v d) =
  match dget K_dec k d with Some _ => keys d | None => keys d ++ [k] end.
Proof.
  unfold keys. induction d as [|[k' v'] d IH]; simpl; [reflexivity|].
  destruct (K_dec k k') as [e|n]; simpl; [reflexivity|].
  rewrite IH. destruct (dget K_dec k d); reflexivity.
Qed.

Lemma dget_None_keys (k : K) (d : dict K V) :
  dget K_dec k d = None <-> ~ In k (keys d).
Proof.
  unfold keys. induction d as [|[k' v'] d IH]; simpl; [tauto|].
  destruct (K_dec k k') as [e|n].
  - split; [discriminate | intros H; exfalso; apply H; left; congruence].
  - rewrite IH. split; [intros H [H1|H1]; [congruence | tauto] | tauto].
Qed.

Lemma dget_dset (k k' : K) (v : V) (d : dict K V) :
  dget K_dec k' (dset K_dec k v d) = if K_dec k' k then Some v else dget K_dec k' d.
Proof.
  destruct (K_dec k' k) as [e|n].
  - subst k'. apply dget_dset_eq.
  - apply dget_dset_ne. congruence.
Qed.

Lemma well_keyed_dset (k : K) (v : V) (d : dict K V) :
  well_keyed d -> well_keyed (dset K_dec k v d).
Proof.
  unfold well_keyed. intros H. rewrite keys_dset.
  destruct (dget K_dec k d) eqn:Hk; [exact H|].
  apply NoDup_app; [exact H | repeat constructor; intros [] |].
  intros a Ha [Hb|[]]. subst a. now apply dget_None_keys in Hk.
Qed.

Lemma In_dset (k k' : K) (v v' : V) (d : dict K V) :
  In (k', v') (dset K_dec k v d) -> (k' = k /\ v' = v) \/ In (k', v') d.
Proof.
  induction d as [|[k0 v0] d IH]; simpl.
  - intros [H|[]]. left. now inversion H.
  - destruct (K_dec k k0) as [e|n]; simpl.
    + intros [H|H]; [left; inversion H; subst; auto | right; now right].
    + intros [H|H]; [right; now left|].
      destruct (IH H) as [H1|H1]; [now left | right; now right].
Qed.

Lemma In_dget (k : K) (v : V) (d : dict K V) :
  well_keyed d -> In (k, v) d -> dget K_dec k d = Some v.
Proof.
  unfold well_keyed, keys. induction d as [|[k0 v0] d IH]; simpl; intros Hn Hin; [contradiction|].
  inversion Hn as [|x l Hx Hl]; subst.
  destruct Hin as [Hin|Hin].
  - inversion Hin; subst. destruct (K_dec k k); congruence.
  - destruct (K_dec k k0) as [e|n]; [|now apply IH].
    subst k0. exfalso. apply Hx. apply in_map_iff. now exists (k, v).
Qed.

Lemma In_map_values (f : V -> V) (k : K) (v' : V) (d : dict K V) :
  In (k, v') (map (fun '(k, v) => (k, f v)) d) ->
  exists v, In (k, v) d /\ v' = f v.
Proof.
  intros H. apply in_map_iff in H. destruct H as [[k0 v0] [He Hin]].
  inversion He; subst. now exists v0.
Qed.
End DictFacts.

Section NestedDictFacts.
Context {K1 K2 V : Type}.
Variable K1_dec : forall a b : K1, {a = b} + {a <> b}.
Variable K2_dec : forall a b : K2, {a = b} + {a <> b}.

(** [d[k1][k2] = v], where [inner] is [d[k1]] (a new dictionary when [d]
    has no [k1]). *)
Lemma dget2_dset (d : dict K1 (dict K2 V)) (k1 a : K1) (k2 b : K2)
    (inner : dict K2 V) (v : V) :
  dget K1_dec k1 d = Some inner \/ (dget K1_dec k1 d = None /\ inner = []) ->
  dget2 K1_dec K2_dec a b (dset K1_dec k1 (dset K2_dec k2 v inner) d) =
  if K1_dec a k1 then
    if K2_dec b k2 then Some v else dget2 K1_dec K2_dec a b d
  else dget2 K1_dec K2_dec a b d.
Proof.
  intros Hw. unfold dget2.
  destruct (K1_dec a k1) as [e|n].
  - subst a. rewrite dget_dset_eq.
    destruct (K2_dec b k2) as [e|n].
    + subst b. apply dget_dset_eq.
    + rewrite dget_dset_ne by congruence.
      destruct Hw as [Hw|[Hw Hnil]]; rewrite Hw; [reflexivity | now subst inner].
  - now rewrite dget_dset_ne by congruence.
Qed.
End NestedDictFacts.

Lemma dget_tabulate_None {V : Type} (f : string -> V) (k : string) (l : list string) :
  ~ In k l -> dget string_dec k (map (fun v => (v, f v)) l) = None.
Proof.
  induction l as [|a l IH]; simpl; intros H; [reflexivity|].
  destruct (string_dec k a) as [e|n]; [exfalso; apply H; left; now symmetry|].
  apply IH. tauto.
Qed.

(** *** Reciprocal remove *)

Lemma _reciprocal_remove_filter (t : DataFrame) :
  _reciprocal_remove t = filter (kept_by_reciprocal_remove t) t.
Proof.
  unfold _reciprocal_remove, groupby_filter.
  rewrite filter_filter_andb. apply filter_ext. intros r.
  unfold kept_by_reciprocal_remove, attested_labels.
  rewrite filter_filter_andb. apply andb_comm.
Qed.

Lemma attested_labels_le (g : string) (t : DataFrame) :
  (attested_labels g t <= nunique (map label t))%nat.
Proof.
  unfold attested_labels. apply nunique_incl. intros x Hx.
  apply in_map_iff in Hx. destruct Hx as [r [Hr Hin]].
  apply filter_In in Hin. apply in_map_iff. exists r. tauto.
Qed.

Lemma nunique_nonempty (s : list string) (x : string) :
  In x s -> (0 < nunique s)%nat.
Proof.
  intros H. unfold nunique. apply (nodup_In string_dec) in H.
  destruct (nodup string_dec s); [contradiction | simpl; lia].
Qed.

Lemma nunique_zero_nil (s : list string) : nunique s = 0%nat -> s = [].
Proof.
  destruct s as [|x s]; [reflexivity|]. intros H.
  pose proof (nunique_nonempty (x :: s) x (or_introl eq_refl)). lia.
Qed.

(** [C1] (as amended).  Reciprocal remove keeps exactly the positive-count
    rows of the n-grams whose positive-count rows carry as many distinct
    labels as the whole table does, in their original order; so an n-gram
    of the table has rows in the output if and only if its attested labels
    are all the labels of the table, and the rows of a kept n-gram that
    are retained are its positive-count rows (a row with a count of zero
    is never in the output). *)
Theorem reciprocal_remove_keeps_attested_positive_rows (t : DataFrame) :
  _reciprocal_remove t = filter (kept_by_reciprocal_remove t) t
  /\ (forall r, In r (_reciprocal_remove t) <->
        In r t /\ 0 < count r
        /\ attested_labels (ngram r) t = nunique (map label t))
  /\ (forall g, In g (map ngram t) ->
        ((exists r, In r (_reciprocal_remove t) /\ ngram r = g) <->
         attested_labels g t = nunique (map label t))).
Proof.
  assert (Hrows : forall r, In r (_reciprocal_remove t) <->
        In r t /\ 0 < count r
        /\ attested_labels (ngram r) t = nunique (map label t)).
  { intros r. rewrite _reciprocal_remove_filter, filter_In.
    unfold kept_by_reciprocal_remove.
    rewrite andb_true_iff, Z.ltb_lt, Nat.eqb_eq. tauto. }
  split; [apply _reciprocal_remove_filter|]. split; [exact Hrows|].
  intros g Hg. split.
  - intros [r [Hr Hn]]. apply Hrows in Hr. now subst g.
  - intros Hatt.
    apply in_map_iff in Hg. destruct Hg as [r0 [Hg0 Hr0]].
    assert (Hpos : (0 < attested_labels g t)%nat).
    { rewrite Hatt. apply (nunique_nonempty _ (label r0)). now apply in_map. }
    unfold attested_labels in Hpos.
    destruct (filter _ t) as [|r l] eqn:Hf; [vm_compute in Hpos; lia|].
    assert (Hin : In r (filter (fun x => (if string_dec (ngram x) g then true else false) && (0 <? count x)) t))
      by (rewrite Hf; now left).
    apply filter_In in Hin. destruct Hin as [Hin Hc].
    apply andb_true_iff in Hc. destruct Hc as [Hn Hc].
    destruct (string_dec (ngram r) g) as [Heq|]; [|discriminate].
    exists r. split; [|exact Heq]. apply Hrows. rewrite Heq.
    apply Z.ltb_lt in Hc. tauto.
Qed.

Lemma reciprocal_remove_keeps_attested_positive_rows_witness :
  In "x y"%string (map ngram scenario_A)
  /\ ((exists r, In r (_reciprocal_remove scenario_A) /\ ngram r = "x y"%string) <->
      attested_labels "x y" scenario_A = nunique (map label scenario_A)).
Proof.
  assert (H : In "x y"%string (map ngram scenario_A)) by (now left).
  split; [exact H|].
  exact (proj2 (proj2 (reciprocal_remove_keeps_attested_positive_rows scenario_A)) _ H).
Defined.

Lemma reciprocal_remove_drops_zero_count_row :
  ~ (forall r r', In r' (_reciprocal_remove table_with_zero_row) ->
       In r table_with_zero_row -> ngram r = ngram r' ->
       In r (_reciprocal_remove table_with_zero_row)).
Proof.
  intros H.
  specialize (H (mkRow "x" 2 "W1" "a" "A" 0) (mkRow "x" 2 "W1" "base" "A" 1)).
  assert (Hin : In (mkRow "x" 2 "W1" "a" "A" 0)
                  (_reciprocal_remove table_with_zero_row)).
  { apply H; [vm_compute; now left | simpl; now right; left | reflexivity]. }
  vm_compute in Hin. destruct Hin as [Hin|[]]. discriminate Hin.
Qed.

Lemma reciprocal_remove_rows_kept (t : DataFrame) (r : row) :
  In r (_reciprocal_remove t) -> kept_by_reciprocal_remove (_reciprocal_remove t) r = true.
Proof.
  intros Hr.
  pose proof (_reciprocal_remove_filter t) as Hf.
  assert (Hk : kept_by_reciprocal_remove t r = true).
  { rewrite Hf in Hr. now apply filter_In in Hr. }
  unfold kept_by_reciprocal_remove in Hk |- *.
  apply andb_true_iff in Hk. destruct Hk as [Hc Hn]. rewrite Hc. simpl.
  apply Nat.eqb_eq in Hn. apply Nat.eqb_eq.
  (* the positive rows of [ngram r] all survive *)
  assert (Hsame : filter (fun x => (if string_dec (ngram x) (ngram r) then true else false) && (0 <? count x)) (_reciprocal_remove t)
                = filter (fun x => (if string_dec (ngram x) (ngram r) then true else false) && (0 <? count x)) t).
  { rewrite Hf, filter_filter_andb. apply filter_ext_in. intros x Hx.
    destruct (string_dec (ngram x) (ngram r)) as [e|]; simpl; [|reflexivity].
    unfold kept_by_reciprocal_remove. rewrite e, Hn, Nat.eqb_refl.
    destruct (0 <? count x); reflexivity. }
  assert (Hatt : attested_labels (ngram r) (_reciprocal_remove t) = attested_labels (ngram r) t).
  { unfold attested_labels. now rewrite Hsame. }
  rewrite Hatt, Hn. apply Nat.le_antisymm.
  - rewrite <- Hn, <- Hatt. apply attested_labels_le.
  - apply nunique_incl. intros x Hx. apply in_map_iff in Hx.
    destruct Hx as [y [Hy Hin]]. rewrite Hf in Hin. apply filter_In in Hin.
    apply in_map_iff. exists y. tauto.
Qed.

(** [C6].  Reciprocal remove is idempotent: applying it to its own result
    gives that result again. *)
Theorem reciprocal_remove_idempotent (t : DataFrame) :
  reciprocal_remove (reciprocal_remove t) = reciprocal_remove t.
Proof.
  unfold reciprocal_remove.
  rewrite (_reciprocal_remove_filter (_reciprocal_remove t)).
  apply filter_all. apply reciprocal_remove_rows_kept.
Qed.

(** *** Prune by n-gram count per work *)

Lemma within_boundsb_spec (minimum maximum : option Z) (c : Z) :
  within_boundsb minimum maximum c = true <-> within_bounds minimum maximum c.
Proof.
  unfold within_boundsb, within_bounds.
  rewrite andb_true_iff, !orb_true_iff, !negb_true_iff, !Z.leb_le.
  destruct (truthy minimum), (truthy maximum); intuition congruence.
Qed.

Lemma prune_by_ngram_count_per_work_filter (minimum maximum : option Z) (t : DataFrame) :
  prune_by_ngram_count_per_work minimum maximum t =
  filter (fun r => isin (map ngram (filter (fun r' => within_boundsb minimum maximum (count r')) t)) (ngram r)) t.
Proof.
  unfold prune_by_ngram_count_per_work, within_boundsb.
  destruct (truthy minimum) eqn:Hmin, (truthy maximum) eqn:Hmax; simpl.
  - reflexivity.
  - apply filter_ext. intros r. f_equal. f_equal. apply filter_ext.
    intros r'. now rewrite andb_true_r.
  - reflexivity.
  - symmetry. apply filter_all. intros r Hr. apply isin_In.
    apply in_map. apply filter_In. split; [exact Hr | reflexivity].
Qed.

(** [C7] (as amended).  Prune by per-work count, where a bound of [0] is
    read as no bound: a row is kept, in its place, exactly when some row
    of its n-gram (of any work and witness) has a count within the bounds;
    all other rows are removed.  With a minimum of 2, the n-gram of
    scenario C with counts 3 and 1 keeps both of its rows. *)
Theorem prune_per_work_keeps_whole_ngrams (minimum maximum : option Z) (t : DataFrame) :
  (forall r, In r (prune_by_ngram_count_per_work minimum maximum t) <->
     In r t /\ exists r', In r' t /\ ngram r' = ngram r
                          /\ within_bounds minimum maximum (count r'))
  /\ prune_by_ngram_count_per_work (Some 2) None scenario_C = scenario_C.
Proof.
  split; [|reflexivity].
  intros r. rewrite prune_by_ngram_count_per_work_filter, filter_In, isin_In, in_map_iff.
  split.
  - intros [Hr [r' [Hn Hin]]]. split; [exact Hr|]. exists r'.
    apply filter_In in Hin. destruct Hin as [Hin Hb].
    apply within_boundsb_spec in Hb. tauto.
  - intros [Hr [r' [Hin [Hn Hb]]]]. split; [exact Hr|]. exists r'.
    split; [exact Hn|]. apply filter_In. split; [exact Hin|].
    now apply within_boundsb_spec.
Qed.

(** With both bounds [0], no row of [x] has a count in [0, 0], and yet
    the rows of [x] are kept: the prune does nothing. *)
Lemma prune_per_work_zero_bounds_keep_all :
  (forall r, In r table_with_absent_witness -> ngram r = "x"%string ->
     ~ (0 <= count r <= 0))
  /\ prune_by_ngram_count_per_work (Some 0) (Some 0) table_with_absent_witness
     = table_with_absent_witness
  /\ In (mkRow "x" 1 "W1" "base" "A" 2)
       (prune_by_ngram_count_per_work (Some 0) (Some 0) table_with_absent_witness).
Proof.
  split; [|split; [reflexivity | now left]].
  intros r Hr Hx. simpl in Hr.
  destruct Hr as [H|[H|[H|[]]]]; subst r; simpl in *; try discriminate; lia.
Qed.

(** *** Remove label *)

(** [C10].  Removing a label that labels no row raises [KeyError] from the
    lookup of the row count, and the table is left as it was. *)
Theorem remove_label_absent_raises (lbl : string) (t : DataFrame) :
  ~ In lbl (map label t) ->
  remove_label lbl t = (Raised (KeyError lbl), t).
Proof.
  intros H. unfold remove_label, value_counts.
  rewrite dget_tabulate_None; [reflexivity|].
  intros Hin. apply H. now apply nodup_In in Hin.
Qed.

Lemma remove_label_absent_raises_witness :
  ~ In "C"%string (map label scenario_A)
  /\ remove_label "C" scenario_A = (Raised (KeyError "C"), scenario_A).
Proof.
  assert (H : ~ In "C"%string (map label scenario_A)).
  { simpl. intros [H|[H|[]]]; discriminate H. }
  split; [exact H | exact (remove_label_absent_raises "C" scenario_A H)].
Defined.

(** *** Zero fill *)

Lemma lookup2_dset (data : sigla_data) (lbl wrk l w : string)
    (works : dict string (list string)) (v : list string) :
  dget string_dec lbl data = Some works \/ (dget string_dec lbl data = None /\ works = []) ->
  lookup2 (dset string_dec lbl (dset string_dec wrk v works) data) l w =
  if string_dec l lbl then
    if string_dec w wrk then Some v else lookup2 data l w
  else lookup2 data l w.
Proof. apply dget2_dset. Qed.

Lemma lookup2_append_siglum (data : sigla_data) (lbl wrk sig l w : string) :
  lookup2 (append_siglum lbl wrk sig data) l w =
  if string_dec l lbl then
    if string_dec w wrk then option_map (fun s => s ++ [sig]) (lookup2 data l w)
    else lookup2 data l w
  else lookup2 data l w.
Proof.
  unfold append_siglum.
  destruct (dget string_dec lbl data) as [works|] eqn:Hl.
  - destruct (dget string_dec wrk works) as [sigla|] eqn:Hw.
    + rewrite lookup2_dset by (now left).
      destruct (string_dec l lbl) as [e|]; [|reflexivity].
      destruct (string_dec w wrk) as [e'|]; [|reflexivity].
      subst. unfold lookup2, dget2. now rewrite Hl, Hw.
    + destruct (string_dec l lbl) as [e|]; [|reflexivity].
      destruct (string_dec w wrk) as [e'|]; [|reflexivity].
      subst. unfold lookup2, dget2. now rewrite Hl, Hw.
  - destruct (string_dec l lbl) as [e|]; [|reflexivity].
    destruct (string_dec w wrk) as [e'|]; [|reflexivity].
    subst. unfold lookup2, dget2. now rewrite Hl.
Qed.

Lemma lookup2_append_sigla (sigla : list string) (data : sigla_data) (lbl wrk l w : string) :
  lookup2 (fold_left (fun data sig => append_siglum lbl wrk sig data) sigla data) l w =
  if string_dec l lbl then
    if string_dec w wrk then option_map (fun s => s ++ sigla) (lookup2 data l w)
    else lookup2 data l w
  else lookup2 data l w.
Proof.
  revert data. induction sigla as [|sig sigla IH]; intros data; simpl.
  - destruct (string_dec l lbl); [|reflexivity].
    destruct (string_dec w wrk); [|reflexivity].
    destruct (lookup2 data l w); simpl; [now rewrite app_nil_r | reflexivity].
  - rewrite IH, lookup2_append_siglum.
    destruct (string_dec l lbl); [|reflexivity].
    destruct (string_dec w wrk); [|reflexivity].
    destruct (lookup2 data l w); simpl; [now rewrite <- app_assoc | reflexivity].
Qed.

(** After the turn for [(wrk, lbl)], [data[lbl][wrk]] is the list of the
    sigla of [wrk]; the other entries are as before. *)
Lemma lookup2_add_work (corpus : Corpus) (data : sigla_data) (wrk lbl l w : string) :
  lookup2 (add_work corpus data (wrk, lbl)) l w =
  if string_dec l lbl then
    if string_dec w wrk then Some (get_sigla corpus wrk) else lookup2 data l w
  else lookup2 data l w.
Proof.
  unfold add_work, setdefault.
  destruct (dget string_dec lbl data) as [works|] eqn:Hl; cbv beta iota zeta.
  - rewrite lookup2_append_sigla, lookup2_dset by (now left).
    destruct (string_dec l lbl); [|reflexivity].
    destruct (string_dec w wrk); reflexivity.
  - rewrite lookup2_append_sigla.
    rewrite lookup2_dset by (left; apply dget_dset_eq).
    destruct (string_dec l lbl) as [e|n].
    + destruct (string_dec w wrk); [reflexivity|].
      subst l. unfold lookup2, dget2. rewrite dget_dset_eq, Hl. reflexivity.
    + unfold lookup2, dget2. now rewrite dget_dset_ne by congruence.
Qed.

Lemma lookup2_fold_add_work (corpus : Corpus) (its : list (string * string))
    (data : sigla_data) (l w : string) :
  (In (w, l) its /\
   lookup2 (fold_left (add_work corpus) its data) l w = Some (get_sigla corpus w))
  \/ (~ In (w, l) its /\
      lookup2 (fold_left (add_work corpus) its data) l w = lookup2 data l w).
Proof.
  revert data. induction its as [|[wrk lbl] its IH]; intros data; cbn [fold_left In].
  - right. tauto.
  - destruct (IH (add_work corpus data (wrk, lbl))) as [[Hin Hl]|[Hin Hl]].
    + left. split; [now right | exact Hl].
    + rewrite Hl, lookup2_add_work.
      destruct (string_dec l lbl) as [e|n].
      * destruct (string_dec w wrk) as [e'|n'].
        -- left. subst. split; [now left | reflexivity].
        -- right. split; [|reflexivity]. intros [H|H]; [congruence | tauto].
      * right. split; [|reflexivity]. intros [H|H]; [congruence | tauto].
Qed.

(** [data[label][work]] exists exactly for the pairs of the catalogue, and
    is then the list of the sigla of the work. *)
Lemma lookup2_witnesses_by_label (corpus : Corpus) (catalogue : Catalogue) (l w : string) :
  lookup2 (witnesses_by_label corpus catalogue) l w =
  if in_dec pair_dec (w, l) (items catalogue) then Some (get_sigla corpus w) else None.
Proof.
  unfold witnesses_by_label.
  destruct (lookup2_fold_add_work corpus (items catalogue) [] l w) as [[Hin Hl]|[Hin Hl]];
    rewrite Hl; destruct (in_dec pair_dec (w, l) (items catalogue)); tauto || reflexivity.
Qed.

Lemma zero_fill_siglum_zero_counts (group : DataFrame) (addr : nat)
    (sigla : list string) (st : heap * list nat) :
  zero_counts (fst st) ->
  zero_counts (fst (fold_left (zero_fill_siglum group addr) sigla st)).
Proof.
  revert st. induction sigla as [|sig sigla IH]; intros [h zr] H; simpl; [exact H|].
  apply IH. destruct (filter _ group); simpl; [|exact H].
  apply Forall_store; [intros x Hx; exact Hx | exact H].
Qed.

Lemma zero_fill_group_outcome (data : sigla_data) (st : heap * list nat)
    (lbl ng wrk : string) (sz : Z) (group : DataFrame) :
  match lookup2 data lbl wrk with
  | Some sigla =>
      zero_fill_group data st ((lbl, ng, sz, wrk), group) =
      Returned (fold_left (zero_fill_siglum group (length (fst st))) sigla
                  (fst st ++ [mkRowData ng lbl sz 0 wrk None], snd st))
  | None =>
      exists k, zero_fill_group data st ((lbl, ng, sz, wrk), group) = Raised (KeyError k)
  end.
Proof.
  unfold lookup2, dget2, zero_fill_group. destruct st as [h zr]. simpl.
  destruct (dget string_dec lbl data) as [works|]; [|now exists lbl].
  destruct (dget string_dec wrk works); [reflexivity | now exists wrk].
Qed.

Lemma zero_fill_groups_returns (data : sigla_data)
    (groups : list ((string * string * Z * string) * DataFrame)) (st : heap * list nat) :
  (forall g, In g groups -> catalogued data (fst g)) ->
  zero_counts (fst st) ->
  exists st', zero_fill_groups data st groups = Returned st' /\ zero_counts (fst st').
Proof.
  revert st. induction groups as [|[[[[lbl ng] sz] wrk] group] groups IH];
    intros st Hc Hz; cbn [zero_fill_groups].
  - now exists st.
  - pose proof (zero_fill_group_outcome data st lbl ng wrk sz group) as Hg.
    pose proof (Hc _ (or_introl eq_refl)) as Hk. simpl in Hk.
    destruct (lookup2 data lbl wrk) as [sigla|]; [|congruence].
    rewrite Hg. apply IH.
    + intros g Hin. apply Hc. now right.
    + apply zero_fill_siglum_zero_counts. simpl.
      apply Forall_app. split; [exact Hz|]. now constructor.
Qed.

Lemma zero_fill_groups_raises (data : sigla_data)
    (groups : list ((string * string * Z * string) * DataFrame)) (st : heap * list nat) :
  (exists g, In g groups /\ ~ catalogued data (fst g)) ->
  exists k, zero_fill_groups data st groups = Raised (KeyError k).
Proof.
  revert st. induction groups as [|[[[[lbl ng] sz] wrk] group] groups IH];
    intros st [g [Hin Hn]]; [contradiction|]. cbn [zero_fill_groups].
  pose proof (zero_fill_group_outcome data st lbl ng wrk sz group) as Hg.
  destruct (lookup2 data lbl wrk) as [sigla|] eqn:Hl.
  - rewrite Hg. apply IH. destruct Hin as [Hin|Hin]; [|now exists g].
    subst g. exfalso. apply Hn. simpl. congruence.
  - destruct Hg as [k Hg]. rewrite Hg. now exists k.
Qed.

Lemma frame_of_refs_zero_counts (h : heap) (zero_rows : list nat) :
  zero_counts h -> Forall (fun r => count r = 0) (frame_of_refs h zero_rows).
Proof.
  intros Hz. apply Forall_forall. intros r Hr.
  unfold frame_of_refs in Hr. apply in_flat_map in Hr.
  destruct Hr as [addr [_ Hr]].
  destruct (nth_error h addr) as [d|] eqn:Hd; [|contradiction].
  apply nth_error_In in Hd.
  unfold row_of_data in Hr. destruct (rd_siglum d); [|contradiction].
  destruct Hr as [Hr|[]]. subst r. simpl.
  unfold zero_counts in Hz. rewrite Forall_forall in Hz. now apply Hz.
Qed.

Lemma catalogued_groups (corpus : Corpus) (catalogue : Catalogue) (t : DataFrame)
    (g : (string * string * Z * string) * DataFrame) :
  In g (groupby_unsorted grouping_cols_dec grouping_cols t) ->
  exists r, In r t /\ fst g = grouping_cols r
            /\ (catalogued (witnesses_by_label corpus catalogue) (fst g)
                <-> In (work r, label r) (items catalogue)).
Proof.
  unfold groupby_unsorted. intros Hin. apply in_map_iff in Hin.
  destruct Hin as [k [Hg Hk]]. apply In_unique in Hk. apply in_map_iff in Hk.
  destruct Hk as [r [Hr Hin]]. exists r. subst g k. simpl.
  split; [exact Hin|]. split; [reflexivity|].
  rewrite lookup2_witnesses_by_label.
  destruct (in_dec pair_dec (work r, label r) (items catalogue)); split; intros H;
    congruence || tauto.
Qed.

Lemma group_of_row (t : DataFrame) (r : row) :
  In r t ->
  exists g, In g (groupby_unsorted grouping_cols_dec grouping_cols t)
            /\ fst g = grouping_cols r.
Proof.
  intros Hr. unfold groupby_unsorted.
  exists (grouping_cols r, filter (fun r' => if grouping_cols_dec (grouping_cols r') (grouping_cols r) then true else false) t).
  split; [|reflexivity].
  apply in_map_iff. exists (grouping_cols r). split; [reflexivity|].
  apply In_unique. now apply in_map.
Qed.

(** Zero fill returns, with the table followed by rows of count 0, when
    the catalogue has the work of every row under the label of that row. *)
Lemma zero_fill_returns (corpus : Corpus) (catalogue : Catalogue) (t : DataFrame) :
  (forall r, In r t -> In (work r, label r) (items catalogue)) ->
  exists z, zero_fill corpus catalogue t = (Returned tt, t ++ z)
            /\ Forall (fun r => count r = 0) z.
Proof.
  intros Hc. unfold zero_fill.
  destruct (zero_fill_groups_returns (witnesses_by_label corpus catalogue)
              (groupby_unsorted grouping_cols_dec grouping_cols t) ([], []))
    as [[h zr] [Hret Hz]].
  - intros g Hg. destruct (catalogued_groups corpus catalogue t g Hg) as [r [Hr [_ Hiff]]].
    apply Hiff. now apply Hc.
  - constructor.
  - rewrite Hret. exists (frame_of_refs h zr). split; [reflexivity|].
    now apply frame_of_refs_zero_counts.
Qed.

(** Zero fill raises [KeyError], and leaves the table as it was, when some
    row has a work that the catalogue does not list under its label. *)
Lemma zero_fill_raises (corpus : Corpus) (catalogue : Catalogue) (t : DataFrame) :
  (exists r, In r t /\ ~ In (work r, label r) (items catalogue)) ->
  exists k, zero_fill corpus catalogue t = (Raised (KeyError k), t).
Proof.
  intros [r [Hr Hn]]. unfold zero_fill.
  destruct (zero_fill_groups_raises (witnesses_by_label corpus catalogue)
              (groupby_unsorted grouping_cols_dec grouping_cols t) ([], []))
    as [k Hk].
  - destruct (group_of_row t r Hr) as [g [Hg Hkey]]. exists g. split; [exact Hg|].
    rewrite Hkey. simpl. rewrite lookup2_witnesses_by_label.
    destruct (in_dec pair_dec (work r, label r) (items catalogue)); tauto.
  - rewrite Hk. now exists k.
Qed.

Lemma all_catalogued_dec (catalogue : Catalogue) (t : DataFrame) :
  (forall r, In r t -> In (work r, label r) (items catalogue))
  \/ (exists r, In r t /\ ~ In (work r, label r) (items catalogue)).
Proof.
  induction t as [|a t IH].
  - left. intros r [].
  - destruct (in_dec pair_dec (work a, label a) (items catalogue)) as [Ha|Ha].
    + destruct IH as [IH|[r [Hr Hn]]].
      * left. intros r [Hr|Hr]; [now subst r | now apply IH].
      * right. exists r. split; [now right | exact Hn].
    + right. exists a. split; [now left | exact Ha].
Qed.

(** The heap of [zero_fill]: what the references read at the end. *)

Lemma store_store {A : Type} (f g : A -> A) (addr : nat) (h : list A) :
  store addr f (store addr g h) = store addr (fun x => f (g x)) h.
Proof.
  revert addr. induction h as [|x h IH]; intros addr; simpl.
  - destruct addr; reflexivity.
  - destruct addr; simpl; [reflexivity | now rewrite IH].
Qed.

Lemma length_store {A : Type} (f : A -> A) (addr : nat) (h : list A) :
  length (store addr f h) = length h.
Proof.
  revert addr. induction h as [|x h IH]; intros addr; simpl.
  - destruct addr; reflexivity.
  - destruct addr; simpl; [reflexivity | now rewrite IH].
Qed.

Lemma nth_error_store_other {A : Type} (f : A -> A) (addr i : nat) (h : list A) :
  i <> addr -> nth_error (store addr f h) i = nth_error h i.
Proof.
  revert addr i. induction h as [|x h IH]; intros addr i Hne; simpl.
  - destruct addr; reflexivity.
  - destruct addr, i; simpl; try reflexivity; try congruence.
    apply IH. congruence.
Qed.

Lemma nth_error_store_same {A : Type} (f : A -> A) (addr : nat) (h : list A) :
  nth_error (store addr f h) addr = option_map f (nth_error h addr).
Proof.
  revert addr. induction h as [|x h IH]; intros addr; simpl.
  - destruct addr; reflexivity.
  - destruct addr; simpl; [reflexivity | apply IH].
Qed.

(** The loop over the sigla of a group appends one reference to the
    group's [row_data] for each missing siglum, and leaves in it the last
    of them. *)
Lemma zero_fill_sigla_run (group : DataFrame) (addr : nat) (sigla : list string)
    (h : heap) (zero_rows : list nat) :
  fold_left (zero_fill_siglum group addr) sigla (h, zero_rows) =
  (match missing_sigla group sigla with
   | [] => h
   | _ :: _ => store addr (set_siglum (last (missing_sigla group sigla) EmptyString)) h
   end,
   zero_rows ++ repeat addr (length (missing_sigla group sigla))).
Proof.
  revert h zero_rows. induction sigla as [|sig sigla IH]; intros h zr.
  - simpl. now rewrite app_nil_r.
  - cbn [fold_left]. unfold zero_fill_siglum at 2. unfold missing_sigla. cbn [filter].
    fold (missing_sigla group sigla).
    destruct (filter (fun r => String.eqb (siglum r) sig) group) eqn:Hsig.
    + rewrite IH. cbn [length repeat]. rewrite <- app_assoc. cbn [app]. f_equal.
      destruct (missing_sigla group sigla) as [|m ms] eqn:Hm; [reflexivity|].
      rewrite store_store. reflexivity.
    + apply IH.
Qed.

Lemma frame_of_refs_app (h : heap) (a b : list nat) :
  frame_of_refs h (a ++ b) = frame_of_refs h a ++ frame_of_refs h b.
Proof. unfold frame_of_refs. apply flat_map_app. Qed.

Lemma frame_of_refs_agree (h h' : heap) (zero_rows : list nat) :
  (forall addr, In addr zero_rows -> nth_error h' addr = nth_error h addr) ->
  frame_of_refs h' zero_rows = frame_of_refs h zero_rows.
Proof.
  intros H. unfold frame_of_refs.
  induction zero_rows as [|addr zr IH]; [reflexivity|].
  cbn [flat_map]. rewrite (H addr (or_introl eq_refl)). f_equal.
  apply IH. intros a Ha. apply H. now right.
Qed.

Lemma frame_of_refs_repeat (h : heap) (addr k : nat) (d : row_data) (r : row) :
  nth_error h addr = Some d -> row_of_data d = Some r ->
  frame_of_refs h (repeat addr k) = repeat r k.
Proof.
  intros Hd Hr. induction k as [|k IH]; [reflexivity|].
  cbn [repeat]. change (addr :: repeat addr k) with ([addr] ++ repeat addr k).
  rewrite frame_of_refs_app, IH. unfold frame_of_refs. simpl. now rewrite Hd, Hr.
Qed.

(** One group: the frame read from the heap afterwards is the frame read
    before, followed by the rows of the group. *)
Lemma zero_fill_group_frame (data : sigla_data) (h h' : heap) (zero_rows zero_rows' : list nat)
    (g : (string * string * Z * string) * DataFrame) :
  valid_refs h zero_rows ->
  zero_fill_group data (h, zero_rows) g = Returned (h', zero_rows') ->
  valid_refs h' zero_rows'
  /\ frame_of_refs h' zero_rows' = frame_of_refs h zero_rows ++ zero_rows_of_group data g.
Proof.
  destruct g as [[[[lbl ng] sz] wrk] group]. intros Hvalid Hrun.
  pose proof (zero_fill_group_outcome data (h, zero_rows) lbl ng wrk sz group) as Hg.
  unfold zero_rows_of_group.
  destruct (lookup2 data lbl wrk) as [sigla|];
    [|destruct Hg as [k Hk]; congruence].
  rewrite Hg in Hrun. cbn [fst snd] in Hrun. rewrite zero_fill_sigla_run in Hrun.
  remember (missing_sigla group sigla) as missing eqn:Hm.
  remember (mkRowData ng lbl sz 0 wrk None) as d0 eqn:Hd0.
  inversion Hrun as [[Hh Hz]]. clear Hrun Hg.
  assert (Hlen : length h' = S (length h)).
  { rewrite <- Hh. destruct missing; [|rewrite length_store]; rewrite length_app; simpl; lia. }
  assert (Hold : forall addr, (addr < length h)%nat -> nth_error h' addr = nth_error h addr).
  { intros addr Hlt. rewrite <- Hh. destruct missing as [|m ms].
    - now rewrite nth_error_app1.
    - rewrite nth_error_store_other by lia. now rewrite nth_error_app1. }
  rewrite Hh. split.
  - unfold valid_refs in *. apply Forall_app. split.
    + apply Forall_forall. intros a Ha. rewrite Forall_forall in Hvalid.
      specialize (Hvalid a Ha). lia.
    + apply Forall_forall. intros a Ha. apply repeat_spec in Ha. lia.
  - rewrite frame_of_refs_app. f_equal.
    + apply frame_of_refs_agree. intros addr Hin. apply Hold.
      unfold valid_refs in Hvalid. rewrite Forall_forall in Hvalid. now apply Hvalid.
    + destruct missing as [|m ms]; [reflexivity|].
      apply (frame_of_refs_repeat _ _ _ (set_siglum (last (m :: ms) EmptyString) d0)).
      * rewrite <- Hh, nth_error_store_same, nth_error_app2 by lia.
        rewrite Nat.sub_diag. reflexivity.
      * subst d0. reflexivity.
Qed.

Lemma zero_fill_groups_frame (data : sigla_data)
    (groups : list ((string * string * Z * string) * DataFrame))
    (h h' : heap) (zero_rows zero_rows' : list nat) :
  valid_refs h zero_rows ->
  zero_fill_groups data (h, zero_rows) groups = Returned (h', zero_rows') ->
  frame_of_refs h' zero_rows'
  = frame_of_refs h zero_rows ++ flat_map (zero_rows_of_group data) groups.
Proof.
  revert h zero_rows. induction groups as [|g groups IH]; intros h zr Hvalid Hrun;
    cbn [zero_fill_groups] in Hrun.
  - inversion Hrun; subst. simpl. now rewrite app_nil_r.
  - destruct (zero_fill_group data (h, zr) g) as [[h1 zr1]| |] eqn:Hg; try discriminate.
    destruct (zero_fill_group_frame data h h1 zr zr1 g Hvalid Hg) as [Hvalid1 Hframe].
    rewrite (IH h1 zr1 Hvalid1 Hrun), Hframe. cbn [flat_map]. now rewrite app_assoc.
Qed.

(** The table that zero fill returns: the input followed, group by group,
    by as many rows as the group misses sigla, all naming the last of
    them. *)
Lemma zero_fill_added_rows (corpus : Corpus) (catalogue : Catalogue) (t t' : DataFrame) :
  zero_fill corpus catalogue t = (Returned tt, t') ->
  t' = t ++ flat_map (zero_rows_of_group (witnesses_by_label corpus catalogue))
                     (groupby_unsorted grouping_cols_dec grouping_cols t).
Proof.
  unfold zero_fill.
  destruct (zero_fill_groups (witnesses_by_label corpus catalogue) ([], [])
              (groupby_unsorted grouping_cols_dec grouping_cols t))
    as [[h zr]| |] eqn:Hrun; try discriminate.
  intros H. inversion H; subst t'. f_equal.
  now rewrite (zero_fill_groups_frame _ _ [] h [] zr (Forall_nil _) Hrun).
Qed.

(** Whenever a group misses two or more of the sigla of its work, the
    table that zero fill returns has a triple twice. *)
Lemma zero_fill_repeats_triple (corpus : Corpus) (catalogue : Catalogue) (t t' : DataFrame)
    (g : (string * string * Z * string) * DataFrame) (sigla : list string) :
  zero_fill corpus catalogue t = (Returned tt, t') ->
  In g (groupby_unsorted grouping_cols_dec grouping_cols t) ->
  lookup2 (witnesses_by_label corpus catalogue) (fst (fst (fst (fst g)))) (snd (fst g))
  = Some sigla ->
  (2 <= length (missing_sigla (snd g) sigla))%nat ->
  ~ NoDup (map triple t').
Proof.
  intros Hrun Hg Hsigla Hmiss Hnodup.
  rewrite (zero_fill_added_rows corpus catalogue t t' Hrun), map_app in Hnodup.
  apply NoDup_app_remove_l in Hnodup.
  apply in_split in Hg. destruct Hg as [g1 [g2 Hg]]. rewrite Hg in Hnodup.
  rewrite flat_map_app, map_app in Hnodup. apply NoDup_app_remove_l in Hnodup.
  cbn [flat_map] in Hnodup. rewrite map_app in Hnodup.
  apply NoDup_app_remove_r in Hnodup.
  destruct g as [[[[lbl ng] sz] wrk] group]. cbn [fst snd] in Hsigla, Hmiss.
  unfold zero_rows_of_group in Hnodup. rewrite Hsigla in Hnodup.
  destruct (length (missing_sigla group sigla)) as [|[|k]]; try lia.
  cbn [repeat map] in Hnodup. inversion Hnodup as [|x l Hx Hl]; subst.
  apply Hx. now left.
Qed.

(** [C5].  Whatever zero fill does, it changes no row of the table: when
    it returns, the table is the input, row for row, followed by added rows
    that all have a count of 0 (and it does return when the catalogue lists
    the work of every row under its label); when it raises, the table is
    the input. *)
Theorem zero_fill_keeps_rows_adds_zero_counts
    (corpus : Corpus) (catalogue : Catalogue) (t : DataFrame) :
  (forall o t', zero_fill corpus catalogue t = (o, t') ->
     (o = Returned tt /\ exists z, t' = t ++ z /\ Forall (fun r => count r = 0) z)
     \/ ((exists e, o = Raised e) /\ t' = t))
  /\ ((forall r, In r t -> In (work r, label r) (items catalogue)) ->
      exists z, zero_fill corpus catalogue t = (Returned tt, t ++ z)
                /\ Forall (fun r => count r = 0) z).
Proof.
  split; [|apply zero_fill_returns].
  intros o t' Hrun.
  destruct (all_catalogued_dec catalogue t) as [Hc|Hc].
  - destruct (zero_fill_returns corpus catalogue t Hc) as [z [Hz Hzero]].
    rewrite Hz in Hrun. inversion Hrun; subst. left. split; [reflexivity|].
    now exists z.
  - destruct (zero_fill_raises corpus catalogue t Hc) as [k Hk].
    rewrite Hk in Hrun. inversion Hrun; subst. right. split; [|reflexivity].
    now exists (KeyError k).
Qed.

Lemma zero_fill_keeps_rows_adds_zero_counts_witness :
  (forall r, In r one_row_table -> In (work r, label r) (items one_work_catalogue))
  /\ exists z, zero_fill three_witness_corpus one_work_catalogue one_row_table
               = (Returned tt, one_row_table ++ z)
               /\ Forall (fun r => count r = 0) z.
Proof.
  assert (H : forall r, In r one_row_table -> In (work r, label r) (items one_work_catalogue)).
  { intros r [Hr|[]]. subst r. now left. }
  split; [exact H|].
  exact (proj2 (zero_fill_keeps_rows_adds_zero_counts
                  three_witness_corpus one_work_catalogue one_row_table) H).
Defined.

(** [C8] (as amended).  Zero fill completes whenever the catalogue lists
    the work of every row of the table under the label of that row,
    whatever else the catalogue lists; when the table has a row whose work
    the catalogue does not list under that label, zero fill raises
    [KeyError] and leaves the table as it was. *)
Theorem zero_fill_completes_iff_rows_catalogued
    (corpus : Corpus) (catalogue : Catalogue) (t : DataFrame) :
  ((forall r, In r t -> In (work r, label r) (items catalogue)) ->
   exists z, zero_fill corpus catalogue t = (Returned tt, t ++ z))
  /\ ((exists r, In r t /\ ~ In (work r, label r) (items catalogue)) ->
      exists k, zero_fill corpus catalogue t = (Raised (KeyError k), t)).
Proof.
  split.
  - intros Hc. destruct (zero_fill_returns corpus catalogue t Hc) as [z [Hz _]].
    now exists z.
  - apply zero_fill_raises.
Qed.

Lemma zero_fill_completes_iff_rows_catalogued_witness :
  (forall r, In r one_row_table ->
     In (work r, label r) (items (one_work_catalogue ++ [("V", "B")]%string)))
  /\ exists z, zero_fill three_witness_corpus (one_work_catalogue ++ [("V", "B")]%string)
                 one_row_table
               = (Returned tt, one_row_table ++ z).
Proof.
  assert (H : forall r, In r one_row_table ->
                In (work r, label r) (items (one_work_catalogue ++ [("V", "B")]%string))).
  { intros r [Hr|[]]. subst r. now left. }
  split; [exact H|].
  exact (proj1 (zero_fill_completes_iff_rows_catalogued
                  three_witness_corpus (one_work_catalogue ++ [("V", "B")]%string)
                  one_row_table) H).
Defined.

(** The table has the label [B], which the catalogue does not specify:
    zero fill raises. *)
Lemma zero_fill_uncatalogued_label_raises :
  zero_fill three_witness_corpus one_work_catalogue uncatalogued_table
  = (Raised (KeyError "B"), uncatalogued_table).
Proof. reflexivity. Qed.

(** [C2] fails on the code: with sigla [s1], [s2], [s3] for the work and a
    row for [s1] only, both added rows name [s3] and none names [s2],
    because the one [row_data] dictionary of the group is appended twice
    and read after its last update. *)
Theorem zero_fill_repeats_last_missing_siglum :
  zero_fill three_witness_corpus one_work_catalogue one_row_table
  = (Returned tt,
     [ mkRow "a" 1 "W" "s1" "A" 2;
       mkRow "a" 1 "W" "s3" "A" 0;
       mkRow "a" 1 "W" "s3" "A" 0 ]).
Proof. reflexivity. Qed.

(** [C9] fails on the code: the triples of the table are unique before
    zero fill and not after it. *)
Theorem zero_fill_breaks_triple_uniqueness :
  NoDup (map triple one_row_table)
  /\ ~ NoDup (map triple
         (snd (zero_fill three_witness_corpus one_work_catalogue one_row_table))).
Proof.
  split.
  - repeat constructor. intros [].
  - intros H. vm_compute in H. inversion H as [|x l Hn Hd]; subst.
    inversion Hd as [|y l' Hn' Hd']; subst. apply Hn'. now left.
Qed.

(** *** Reduce *)

Lemma lowered_refl (wd : witness_data) : lowered wd wd.
Proof.
  split; [reflexivity|]. intros k.
  destruct (dget string_dec k wd); [split; [lia | reflexivity] | exact I].
Qed.

Lemma lowered_trans (a b c : witness_data) :
  lowered a b -> lowered b c -> lowered a c.
Proof.
  intros [Hk1 H1] [Hk2 H2]. split; [congruence|].
  intros k. specialize (H1 k). specialize (H2 k).
  destruct (dget string_dec k c), (dget string_dec k b), (dget string_dec k a);
    try contradiction; try exact I.
  destruct H1, H2. split; [lia | congruence].
Qed.

Lemma reduce_substring_lowered (cnt : Z) (wd : witness_data) (s : string) :
  0 <= cnt -> lowered wd (reduce_substring cnt wd s).
Proof.
  intros Hc. unfold reduce_substring.
  destruct (dget string_dec s wd) as [sd|] eqn:Hs; [|apply lowered_refl].
  split.
  - rewrite keys_dset, Hs. reflexivity.
  - intros k. rewrite dget_dset.
    destruct (string_dec k s) as [e|n].
    + subst k. rewrite Hs. simpl. split; [lia | reflexivity].
    + destruct (dget string_dec k wd); [split; [lia | reflexivity] | exact I].
Qed.

Lemma reduce_substrings_lowered (cnt : Z) (l : list string) (wd : witness_data) :
  0 <= cnt -> lowered wd (fold_left (reduce_substring cnt) l wd).
Proof.
  intros Hc. revert wd. induction l as [|s l IH]; intros wd; simpl.
  - apply lowered_refl.
  - eapply lowered_trans; [apply reduce_substring_lowered, Hc | apply IH].
Qed.

Lemma _reduce_by_ngram_lowered (tokenizer : Tokenizer) (wd : witness_data) (ng : string) :
  (forall d, dget string_dec ng wd = Some d -> 0 <= nd_count d) ->
  lowered wd (_reduce_by_ngram tokenizer wd ng).
Proof.
  intros H. unfold _reduce_by_ngram.
  destruct (dget string_dec ng wd) as [d|]; [|apply lowered_refl].
  apply reduce_substrings_lowered. now apply H.
Qed.

(** The second loop of [reduce] only lowers counts: it subtracts counts
    that it has found to be positive. *)
Lemma reduce_witness_lowered (tokenizer : Tokenizer) (wd : witness_data) :
  lowered wd (reduce_witness tokenizer wd).
Proof.
  unfold reduce_witness. generalize (sort_desc (size_in wd) (keys wd)) as ngrams.
  intros ngrams. revert wd.
  induction ngrams as [|ng ngrams IH]; intros wd; simpl.
  - apply lowered_refl.
  - eapply lowered_trans; [|apply IH].
    destruct (dget string_dec ng wd) as [d|] eqn:Hd; [|apply lowered_refl].
    destruct (0 <? nd_count d) eqn:Hpos; [|apply lowered_refl].
    apply _reduce_by_ngram_lowered. intros d' Hd'.
    rewrite Hd in Hd'. inversion Hd'; subst. apply Z.ltb_lt in Hpos. lia.
Qed.

Lemma reduce_load_data (data : dict (string * string) witness_data)
    (labels : dict string string) (r : row) :
  fst (reduce_load (data, labels) r) =
  match dget pair_dec (work r, siglum r) data with
  | Some wd =>
      dset pair_dec (work r, siglum r)
        (dset string_dec (ngram r) (mkNgramData (count r) (size r)) wd) data
  | None =>
      dset pair_dec (work r, siglum r)
        (dset string_dec (ngram r) (mkNgramData (count r) (size r)) [])
        (dset pair_dec (work r, siglum r) [] data)
  end.
Proof.
  unfold reduce_load, setdefault.
  destruct (dget pair_dec (work r, siglum r) data); reflexivity.
Qed.

Lemma loaded_nil : loaded [] [].
Proof.
  split; [constructor|]. split; [intros ws wd []|].
  intros ws ng d H. discriminate H.
Qed.

Lemma loaded_step (seen : list row) (data : dict (string * string) witness_data)
    (labels : dict string string) (r : row) :
  loaded seen data -> loaded (seen ++ [r]) (fst (reduce_load (data, labels) r)).
Proof.
  intros [Hk [Hin Hget]]. rewrite reduce_load_data.
  assert (Hold : forall ws ng d,
             dget2 pair_dec string_dec ws ng data = Some d ->
             exists r0, In r0 (seen ++ [r]) /\ triple r0 = (ng, fst ws, snd ws)
                        /\ count r0 = nd_count d).
  { intros ws ng d H. destruct (Hget ws ng d H) as [r0 [H0 H1]].
    exists r0. split; [apply in_or_app; now left | exact H1]. }
  assert (Hnew : exists r0, In r0 (seen ++ [r])
                   /\ triple r0 = (ngram r, fst (work r, siglum r), snd (work r, siglum r))
                   /\ count r0 = nd_count (mkNgramData (count r) (size r))).
  { exists r. split; [apply in_or_app; right; now left | split; reflexivity]. }
  destruct (dget pair_dec (work r, siglum r) data) as [wd|] eqn:Hws.
  - split; [now apply well_keyed_dset|]. split.
    + intros ws wd' H. apply In_dset in H. destruct H as [[_ H]|H]; [|now apply (Hin ws)].
      subst wd'. apply well_keyed_dset. apply (Hin (work r, siglum r)).
      now apply (dget_In pair_dec).
    + intros ws ng d H. rewrite dget2_dset in H by (now left).
      destruct (pair_dec ws (work r, siglum r)) as [e|n]; [|now apply Hold].
      destruct (string_dec ng (ngram r)) as [e'|n']; [|now apply Hold].
      inversion H; subst. exact Hnew.
  - split; [now apply well_keyed_dset, well_keyed_dset|]. split.
    + intros ws wd' H. apply In_dset in H. destruct H as [[_ H]|H].
      * subst wd'. apply well_keyed_dset. constructor.
      * apply In_dset in H. destruct H as [[_ H]|H]; [subst wd'; constructor|].
        now apply (Hin ws).
    + intros ws ng d H.
      rewrite dget2_dset in H by (left; apply dget_dset_eq).
      destruct (pair_dec ws (work r, siglum r)) as [e|n].
      * destruct (string_dec ng (ngram r)) as [e'|n'].
        -- inversion H; subst. exact Hnew.
        -- subst ws. unfold dget2 in H. rewrite dget_dset_eq in H. discriminate H.
      * unfold dget2 in H. rewrite dget_dset_ne in H by congruence. now apply Hold.
Qed.

Lemma loaded_fold (l seen : list row)
    (st : dict (string * string) witness_data * dict string string) :
  loaded seen (fst st) -> loaded (seen ++ l) (fst (fold_left reduce_load l st)).
Proof.
  revert seen st. induction l as [|r l IH]; intros seen [data labels] H; cbn [fold_left].
  - now rewrite app_nil_r.
  - replace (seen ++ r :: l) with ((seen ++ [r]) ++ l) by (now rewrite <- app_assoc).
    apply IH. now apply loaded_step.
Qed.

(** Every row that [reduce] returns comes from an entry, with a positive
    count, of the dictionary of its witness after the second loop. *)
Lemma reduce_rows_from_entries (tokenizer : Tokenizer) (t : DataFrame) (r' : row) :
  In r' (reduce tokenizer t) ->
  exists wd d,
    In ((work r', siglum r'), wd) (fst (fold_left reduce_load t ([], [])))
    /\ In (ngram r', d) (reduce_witness tokenizer wd)
    /\ 0 < nd_count d /\ count r' = nd_count d.
Proof.
  unfold reduce. destruct (fold_left reduce_load t ([], [])) as [data labels].
  intros H. apply in_flat_map in H. destruct H as [[[wrk sig] wd'] [Hin Hr]].
  apply In_map_values in Hin. destruct Hin as [wd [Hin Hwd]].
  unfold reduce_rows in Hr. apply in_flat_map in Hr.
  destruct Hr as [[ng d] [Hd Hr]].
  destruct (0 <? nd_count d) eqn:Hpos; [|contradiction].
  destruct (dget string_dec wrk labels); [|contradiction].
  destruct Hr as [Hr|[]]. subst r' wd'. simpl.
  exists wd, d. apply Z.ltb_lt in Hpos. auto.
Qed.

Lemma reduce_row_bound (tokenizer : Tokenizer) (t : DataFrame) (r' : row) :
  In r' (reduce tokenizer t) ->
  0 < count r'
  /\ exists r, In r t /\ triple r = triple r' /\ count r' <= count r.
Proof.
  intros H. destruct (reduce_rows_from_entries tokenizer t r' H)
    as [wd [d' [Hwd [Hd' [Hpos Hc]]]]].
  split; [lia|].
  pose proof (loaded_fold t [] ([], []) loaded_nil) as [Hk [Hin Hget]].
  simpl in Hk, Hin, Hget.
  pose proof (reduce_witness_lowered tokenizer wd) as [Hkeys Hlow].
  assert (Hwk : well_keyed (reduce_witness tokenizer wd)).
  { unfold well_keyed. rewrite Hkeys. apply (Hin _ _ Hwd). }
  pose proof (In_dget string_dec _ _ _ Hwk Hd') as Hg'.
  specialize (Hlow (ngram r')). rewrite Hg' in Hlow.
  destruct (dget string_dec (ngram r') wd) as [d|] eqn:Hg; [|contradiction].
  destruct (Hget (work r', siglum r') (ngram r') d) as [r [Hr [Ht Hcr]]].
  { unfold dget2. now rewrite (In_dget pair_dec _ _ _ Hk Hwd). }
  exists r. split; [exact Hr|]. split; [exact Ht|]. lia.
Qed.

(** [labels[work]] exists for the work of every witness of [data]: the
    third loop of [reduce] reads it without a [KeyError]. *)
Lemma reduce_load_labels (l : list row)
    (st : dict (string * string) witness_data * dict string string) :
  (forall ws, In ws (keys (fst st)) -> dget string_dec (fst ws) (snd st) <> None) ->
  forall ws, In ws (keys (fst (fold_left reduce_load l st))) ->
    dget string_dec (fst ws) (snd (fold_left reduce_load l st)) <> None.
Proof.
  revert st. induction l as [|r l IH]; intros [data labels] H; cbn [fold_left]; [exact H|].
  apply IH. intros ws Hws.
  assert (Hsnd : snd (reduce_load (data, labels) r)
                 = dset string_dec (work r) (label r) labels).
  { unfold reduce_load, setdefault.
    destruct (dget pair_dec (work r, siglum r) data); reflexivity. }
  rewrite Hsnd, dget_dset. destruct (string_dec (fst ws) (work r)) as [e|n]; [discriminate|].
  apply H. rewrite reduce_load_data in Hws. cbn [fst].
  destruct (dget pair_dec (work r, siglum r) data) as [wd|] eqn:Hd.
  - rewrite keys_dset, Hd in Hws. exact Hws.
  - rewrite keys_dset, dget_dset_eq, keys_dset, Hd in Hws.
    apply in_app_or in Hws. destruct Hws as [Hws|[Hws|[]]]; [exact Hws|].
    subst ws. simpl in n. congruence.
Qed.

(** Every entry with a positive count after the second loop gives a row. *)
Lemma reduce_rows_of_entries (tokenizer : Tokenizer) (t : DataFrame)
    (ws : string * string) (wd : witness_data) (ng : string) (d : ngram_data) :
  In (ws, wd) (fst (fold_left reduce_load t ([], []))) ->
  In (ng, d) (reduce_witness tokenizer wd) ->
  0 < nd_count d ->
  exists lbl, In (mkRow ng (nd_size d) (fst ws) (snd ws) lbl (nd_count d))
                 (reduce tokenizer t).
Proof.
  intros Hws Hd Hpos.
  pose proof (reduce_load_labels t ([], []) (fun ws H => match H with end) ws) as Hlbl.
  unfold reduce. destruct (fold_left reduce_load t ([], [])) as [data labels].
  cbn [fst snd] in *.
  destruct (dget string_dec (fst ws) labels) as [lbl|] eqn:Hl.
  2:{ exfalso. apply Hlbl; [|reflexivity]. unfold keys. apply in_map_iff.
      now exists (ws, wd). }
  exists lbl. apply in_flat_map. exists (ws, reduce_witness tokenizer wd). split.
  - unfold items. apply in_map_iff. now exists (ws, wd).
  - destruct ws as [wrk sig]. unfold reduce_rows. apply in_flat_map.
    exists (ng, d). split; [exact Hd|]. cbn [fst snd] in *.
    apply Z.ltb_lt in Hpos. rewrite Hpos, Hl. now left.
Qed.

(** [C3].  Every row that Reduce returns has a count greater than 0, and
    a row of the same (ngram, work, siglum) in the input whose count is
    not smaller; in a table where each (ngram, work, siglum) has one row,
    the count after Reduce of every triple that still has a row is at
    most its count before. *)
Theorem reduce_counts_positive_and_not_increased (tokenizer : Tokenizer) (t : DataFrame) :
  (forall r', In r' (reduce tokenizer t) ->
     0 < count r'
     /\ exists r, In r t /\ triple r = triple r' /\ count r' <= count r)
  /\ (NoDup (map triple t) ->
      forall r r', In r t -> In r' (reduce tokenizer t) ->
        triple r = triple r' -> count r' <= count r).
Proof.
  split; [apply reduce_row_bound|].
  intros Hn r r' Hr Hr' Ht.
  destruct (reduce_row_bound tokenizer t r' Hr') as [_ [r0 [Hr0 [Ht0 Hc]]]].
  assert (r = r0) by (apply (NoDup_map_eq triple t); congruence).
  now subst r0.
Qed.

Lemma reduce_counts_positive_and_not_increased_witness :
  NoDup (map triple bigram_table)
  /\ In (mkRow "a" 1 "W" "base" "A" 3) bigram_table
  /\ In (mkRow "a" 1 "W" "base" "A" 1) (reduce character_tokenizer bigram_table)
  /\ 1 <= 3.
Proof.
  assert (Hn : NoDup (map triple bigram_table)).
  { repeat constructor; simpl; intros H;
      repeat (destruct H as [H|H]; [discriminate H|]); exact H. }
  assert (Hr : In (mkRow "a" 1 "W" "base" "A" 3) bigram_table) by (now left).
  assert (Hr' : In (mkRow "a" 1 "W" "base" "A" 1) (reduce character_tokenizer bigram_table))
    by (vm_compute; now left).
  split; [exact Hn|]. split; [exact Hr|]. split; [exact Hr'|].
  exact (proj2 (reduce_counts_positive_and_not_increased character_tokenizer bigram_table)
           Hn _ _ Hr Hr' eq_refl).
Defined.

(** *** Extend *)

Local Open Scope string_scope.

Lemma append_assoc (a b c : string) : (a ++ b) ++ c = a ++ (b ++ c).
Proof. induction a as [|x a IH]; simpl; [reflexivity | now rewrite IH]. Qed.

Lemma append_empty_r (a : string) : a ++ "" = a.
Proof. induction a as [|x a IH]; simpl; [reflexivity | now rewrite IH]. Qed.

Lemma length_append (a b : string) :
  String.length (a ++ b) = (String.length a + String.length b)%nat.
Proof. induction a as [|x a IH]; simpl; [reflexivity | now rewrite IH]. Qed.

Lemma substring_of_refl (s : string) : substring_of s s.
Proof. exists "", "". simpl. now rewrite append_empty_r. Qed.

Lemma substring_of_trans (a b c : string) :
  substring_of a b -> substring_of b c -> substring_of a c.
Proof.
  intros [p1 [q1 H1]] [p2 [q2 H2]]. exists (p2 ++ p1), (q1 ++ q2).
  subst. now rewrite !append_assoc.
Qed.

Lemma substring_of_length (s t : string) :
  substring_of s t -> (String.length s <= String.length t)%nat.
Proof. intros [p [q H]]. subst. rewrite !length_append. lia. Qed.

Lemma prefix_append (s t : string) :
  String.prefix s t = true -> exists post, t = s ++ post.
Proof.
  revert t. induction s as [|c s IH]; intros t H.
  - now exists t.
  - destruct t as [|c' t]; simpl in H; [discriminate|].
    destruct (ascii_dec c c') as [e|n]; [|discriminate].
    destruct (IH t H) as [post Hp]. exists post. simpl. congruence.
Qed.

Lemma contains_substring_of (text s : string) :
  contains text s = true -> substring_of s text.
Proof.
  induction text as [|c text IH]; cbn [contains]; intros H.
  - destruct s; [exists "", ""; reflexivity | discriminate H].
  - apply orb_true_iff in H. destruct H as [H|H].
    + destruct (prefix_append _ _ H) as [post Hp]. exists "", post. exact Hp.
    + destruct (IH H) as [pre [post Hp]]. exists (String c pre), post.
      simpl. now rewrite Hp.
Qed.

(** [sep.join(a + b)] *)
Lemma concat_app (sep : string) (a b : list string) :
  String.concat sep (a ++ b) =
  match a, b with
  | [], _ => String.concat sep b
  | _, [] => String.concat sep a
  | _, _ => String.concat sep a ++ sep ++ String.concat sep b
  end.
Proof.
  induction a as [|x a IH]; [reflexivity|].
  destruct b as [|y b]; [now rewrite app_nil_r|].
  destruct a as [|x' a]; [reflexivity|].
  change (String.concat sep ((x :: x' :: a) ++ y :: b))
    with (x ++ sep ++ String.concat sep ((x' :: a) ++ y :: b)).
  rewrite IH.
  change (String.concat sep (x :: x' :: a))
    with (x ++ sep ++ String.concat sep (x' :: a)).
  now rewrite !append_assoc.
Qed.

Lemma substring_of_concat_l (sep : string) (a b : list string) :
  substring_of (String.concat sep a) (String.concat sep (a ++ b)).
Proof.
  rewrite concat_app. destruct a as [|x a].
  - exists "", (String.concat sep b). reflexivity.
  - destruct b as [|y b]; [apply substring_of_refl|].
    exists "", (sep ++ String.concat sep (y :: b)). reflexivity.
Qed.

Lemma substring_of_concat_r (sep : string) (a b : list string) :
  substring_of (String.concat sep b) (String.concat sep (a ++ b)).
Proof.
  rewrite concat_app. destruct a as [|x a]; [apply substring_of_refl|].
  destruct b as [|y b].
  - exists (String.concat sep (x :: a)), "". simpl. now rewrite append_empty_r.
  - exists (String.concat sep (x :: a) ++ sep), "".
    now rewrite append_empty_r, append_assoc.
Qed.

(** The joined form of a run of tokens occurs in the joined form of the
    whole sequence. *)
Lemma substring_of_window (sep : string) (tokens : list string) (i n : nat) :
  substring_of (String.concat sep (firstn n (skipn i tokens)))
               (String.concat sep tokens).
Proof.
  rewrite <- (firstn_skipn i tokens) at 2.
  eapply substring_of_trans; [|apply substring_of_concat_r].
  rewrite <- (firstn_skipn n (skipn i tokens)) at 2.
  apply substring_of_concat_l.
Qed.

Local Close Scope string_scope.

(** *** Membership in the lists that extend builds *)

Lemma In_insert_desc {A : Type} (key : A -> Z) (x y : A) (l : list A) :
  In y (insert_desc key x l) <-> y = x \/ In y l.
Proof.
  induction l as [|a l IH]; simpl.
  - intuition.
  - destruct (key a <? key x); simpl; [intuition|].
    rewrite IH. intuition.
Qed.

Lemma In_sort_desc {A : Type} (key : A -> Z) (l : list A) (y : A) :
  In y (sort_desc key l) <-> In y l.
Proof.
  unfold sort_desc.
  assert (H : forall acc, In y (fold_left (fun acc x => insert_desc key x acc) l acc)
                          <-> In y acc \/ In y l).
  { induction l as [|a l IH]; intros acc; simpl; [tauto|].
    rewrite IH, In_insert_desc. intuition. }
  rewrite H. simpl. tauto.
Qed.

Lemma In_insert_sorted {A : Type} (ltb : A -> A -> bool) (x y : A) (l : list A) :
  In y (insert_sorted ltb x l) <-> y = x \/ In y l.
Proof.
  induction l as [|a l IH]; simpl.
  - intuition.
  - destruct (ltb x a); simpl; [intuition|].
    rewrite IH. intuition.
Qed.

Lemma In_sorted {A : Type} (ltb : A -> A -> bool) (l : list A) (y : A) :
  In y (fold_right (insert_sorted ltb) [] l) <-> In y l.
Proof.
  induction l as [|a l IH]; simpl; [tauto|].
  rewrite In_insert_sorted, IH. intuition.
Qed.

Lemma In_Counter (l : list string) (x : string) (n : nat) :
  In (x, n) (Counter l) -> In x l.
Proof.
  unfold Counter.
  assert (H : forall c, In (x, n)
                (fold_left (fun c x => match dget string_dec x c with
                                       | Some n => dset string_dec x (S n) c
                                       | None => dset string_dec x 1%nat c
                                       end) l c) ->
              In x (keys c) \/ In x l).
  { induction l as [|a l IH]; intros c Hin; simpl in *.
    - left. unfold keys. apply in_map_iff. now exists (x, n).
    - destruct (IH _ Hin) as [Hk|Hl]; [|right; now right].
      destruct (dget string_dec a c) eqn:Ha; rewrite keys_dset, Ha in Hk.
      + now left.
      + apply in_app_or in Hk. destruct Hk as [Hk|[Hk|[]]]; [now left | right; now left]. }
  intros Hin. destruct (H [] Hin) as [[]|Hl]. exact Hl.
Qed.

Lemma In_aligned (l : list string) (text : string) (acc : list string) (e : string) :
  In e (snd (fold_left align_ngram l (text, acc))) -> In e acc \/ In e l.
Proof.
  revert text acc. induction l as [|ng l IH]; intros text acc H; simpl in *; [now left|].
  destruct (re_subn_escaped ng "  " text) as [text' cnt].
  destruct (IH _ _ H) as [Hacc|Hl]; [|right; now right].
  apply in_app_or in Hacc. destruct Hacc as [Hacc|Hrep]; [now left|].
  apply repeat_spec in Hrep. right. now left.
Qed.

Lemma In_range (lo hi z : Z) : In z (range lo hi) -> lo <= z < hi.
Proof.
  unfold range. intros H. apply in_map_iff in H. destruct H as [i [Hz Hi]].
  apply in_seq in Hi. lia.
Qed.

Lemma In__ngrams (tokenizer : Tokenizer) (tokens : list string) (degree : Z) (g : string) :
  In g (_ngrams tokenizer tokens degree) ->
  1 <= degree <= Z.of_nat (length tokens)
  /\ exists i, g = t_join tokenizer (firstn (Z.to_nat degree) (skipn i tokens)).
Proof.
  unfold _ngrams. destruct (degree <? 1) eqn:Hd; [intros []|].
  apply Z.ltb_ge in Hd. intros H. apply in_map_iff in H.
  destruct H as [i [Hg Hi]]. apply in_seq in Hi. split; [lia|]. now exists i.
Qed.

Lemma In_groupby_sum (df : DataFrame) (r : row) :
  In r (groupby_sum df) ->
  exists r0, In r0 df /\ groupby_fields r0 = groupby_fields r.
Proof.
  unfold groupby_sum. intros H. apply in_map_iff in H.
  destruct H as [[[[[ng wrk] sig] sz] lbl] [Hr Hk]].
  apply In_sorted, In_unique, in_map_iff in Hk. destruct Hk as [r0 [Hk Hin]].
  exists r0. split; [exact Hin|]. now subst r.
Qed.

(** A row that [_generate_extended_matches] returns names the witness it
    was called for, and its n-gram is the joined form of a run of [size]
    tokens, more than [highest_n], of one of the extended n-grams. *)
Lemma In__generate_extended_matches (tokenizer : Tokenizer) (extended_ngrams : list string)
    (highest_n : Z) (wrk sig lbl : string) (r : row) :
  In r (_generate_extended_matches tokenizer extended_ngrams highest_n wrk sig lbl) ->
  work r = wrk /\ siglum r = sig /\ label r = lbl
  /\ exists e, In e extended_ngrams
       /\ highest_n < size r <= Z.of_nat (length (tokenize tokenizer e))
       /\ exists i, ngram r = t_join tokenizer
                      (firstn (Z.to_nat (size r)) (skipn i (tokenize tokenizer e))).
Proof.
  unfold _generate_extended_matches.
  set (rows_list := flat_map _ extended_ngrams).
  intros H.
  assert (Hg : exists r0, In r0 rows_list /\ groupby_fields r0 = groupby_fields r).
  { destruct rows_list; [contradiction | now apply In_groupby_sum]. }
  destruct Hg as [r0 [Hin Hk]].
  unfold rows_list in Hin. apply in_flat_map in Hin. destruct Hin as [e [He Hin]].
  apply in_flat_map in Hin. destruct Hin as [[sz ngrams] [Hsz Hin]].
  apply in_map_iff in Hin. destruct Hin as [[ng cnt] [Hr0 Hng]].
  unfold get_ngrams in Hsz. apply in_map_iff in Hsz. destruct Hsz as [sz' [Hp Hrange]].
  inversion Hp; subst sz' ngrams. clear Hp.
  apply In_range in Hrange. unfold items in Hng. apply In_Counter in Hng.
  apply In__ngrams in Hng. destruct Hng as [Hdeg [i Hi]].
  unfold groupby_fields in Hk. subst r0. simpl in Hk. inversion Hk; subst.
  repeat split; try reflexivity.
  exists e. split; [exact He|]. split; [lia|]. now exists i.
Qed.

(** *** The invariant of the extension loop *)

Lemma Forall_skipn {A : Type} (P : A -> Prop) (n : nat) (l : list A) :
  Forall P l -> Forall P (skipn n l).
Proof.
  intros H. rewrite <- (firstn_skipn n l) in H. now apply Forall_app in H.
Qed.

Lemma Forall_slice_from {A : Type} (P : A -> Prop) (start : Z) (l : list A) :
  Forall P l -> Forall P (slice_from start l).
Proof. apply Forall_skipn. Qed.

Lemma Forall_set_add (P : list string -> Prop) (x : list string) (s : list (list string)) :
  P x -> Forall P s -> Forall P (set_add x s).
Proof.
  intros Hx Hs. unfold set_add. destruct (in_dec tuple_dec x s); [exact Hs|].
  apply Forall_app. split; [exact Hs | now constructor].
Qed.

Lemma Forall_set_of (P : list string -> Prop) (l : list (list string)) :
  Forall P l -> Forall P (set_of l).
Proof.
  unfold set_of.
  assert (H : forall s, Forall P s -> Forall P l ->
                        Forall P (fold_left (fun s x => set_add x s) l s)).
  { induction l as [|x l IH]; intros s Hs Hl; simpl; [exact Hs|].
    inversion Hl; subst. apply IH; [now apply Forall_set_add | assumption]. }
  intros Hl. apply H; [constructor | exact Hl].
Qed.

Lemma Forall_set_minus (P : list string -> Prop) (s removals : list (list string)) :
  Forall P s -> Forall P (set_minus s removals).
Proof.
  intros H. apply Forall_forall. intros x Hx. unfold set_minus in Hx.
  apply filter_In in Hx. rewrite Forall_forall in H. now apply H.
Qed.

Lemma index_ngram_token_values (tokenizer : Tokenizer)
    (ngram_index : dict (list string) (list (list string))) (ng : list string) :
  Forall (is_token tokenizer) ng ->
  token_values tokenizer ngram_index ->
  token_values tokenizer (index_ngram ngram_index ng).
Proof.
  intros Hng Hidx k vs v Hk Hv. unfold index_ngram, setdefault in Hk.
  destruct (dget tuple_dec (slice_to (-1) ng) ngram_index) as [values|] eqn:Hold;
    cbv beta iota zeta in Hk; rewrite dget_dset in Hk;
    destruct (tuple_dec k (slice_to (-1) ng)) as [e|n].
  - inversion Hk; subst vs. apply in_app_or in Hv. destruct Hv as [Hv|[Hv|[]]].
    + now apply (Hidx _ _ _ Hold).
    + subst v. now apply Forall_slice_from.
  - now apply (Hidx _ _ _ Hk).
  - inversion Hk; subst vs. destruct Hv as [Hv|[]]. subst v.
    now apply Forall_slice_from.
  - rewrite dget_dset_ne in Hk by congruence. now apply (Hidx _ _ _ Hk).
Qed.

Lemma ngram_index_token_values (tokenizer : Tokenizer) (ngrams : list (list string)) :
  Forall (Forall (is_token tokenizer)) ngrams ->
  token_values tokenizer (fold_left index_ngram ngrams []).
Proof.
  assert (H : forall idx, token_values tokenizer idx ->
                Forall (Forall (is_token tokenizer)) ngrams ->
                token_values tokenizer (fold_left index_ngram ngrams idx)).
  { induction ngrams as [|ng ngrams IH]; intros idx Hidx Hn; cbn [fold_left]; [exact Hidx|].
    inversion Hn; subst. apply IH; [now apply index_ngram_token_values | assumption]. }
  apply H. intros k vs v Hk. discriminate Hk.
Qed.

Section ExtensionLoop.
Variable tokenizer : Tokenizer.
Variable text : string.
Variable bases : list (list string).

Lemma try_extension_good (base next_token : list string)
    (extended_ngrams new_working_ngrams : list (list string)) (remove_base : bool) :
  Forall (is_token tokenizer) base ->
  Forall (is_token tokenizer) next_token ->
  good_state tokenizer text bases extended_ngrams new_working_ngrams ->
  let '(e, w, _) := try_extension tokenizer text base
                      (extended_ngrams, new_working_ngrams, remove_base) next_token in
  good_state tokenizer text bases e w.
Proof.
  intros Hb Hn [He Hw]. unfold try_extension.
  destruct (contains text (t_join tokenizer (base ++ next_token))) eqn:Hc; [|now split].
  assert (Ht : Forall (is_token tokenizer) (base ++ next_token))
    by (apply Forall_app; now split).
  split.
  - apply Forall_set_add; [|exact He]. split; [exact Ht | now right].
  - apply Forall_app. split; [exact Hw | now constructor].
Qed.

Lemma try_extensions_good (base : list string) (next_tokens : list (list string))
    (extended_ngrams new_working_ngrams : list (list string)) (remove_base : bool) :
  Forall (is_token tokenizer) base ->
  Forall (Forall (is_token tokenizer)) next_tokens ->
  good_state tokenizer text bases extended_ngrams new_working_ngrams ->
  let '(e, w, _) := fold_left (try_extension tokenizer text base) next_tokens
                      (extended_ngrams, new_working_ngrams, remove_base) in
  good_state tokenizer text bases e w.
Proof.
  intros Hb. revert extended_ngrams new_working_ngrams remove_base.
  induction next_tokens as [|nt nts IH]; intros e w rb Hn Hg; cbn [fold_left]; [exact Hg|].
  inversion Hn; subst.
  pose proof (try_extension_good base nt e w rb Hb H1 Hg) as Hstep.
  destruct (try_extension tokenizer text base (e, w, rb) nt) as [[e' w'] rb'].
  now apply IH.
Qed.

Lemma extend_base_good (overlap : Z)
    (ngram_index : dict (list string) (list (list string))) (base : list string)
    (extended_ngrams new_working_ngrams removals : list (list string)) :
  token_values tokenizer ngram_index ->
  Forall (is_token tokenizer) base ->
  good_state tokenizer text bases extended_ngrams new_working_ngrams ->
  let '(e, w, _) := extend_base tokenizer text overlap ngram_index
                      (extended_ngrams, new_working_ngrams, removals) base in
  good_state tokenizer text bases e w.
Proof.
  intros Hidx Hb Hg. unfold extend_base.
  set (next_tokens := match dget tuple_dec (slice_from (- overlap) base) ngram_index with
                      | Some values => values
                      | None => []
                      end).
  assert (Hn : Forall (Forall (is_token tokenizer)) next_tokens).
  { unfold next_tokens.
    destruct (dget tuple_dec (slice_from (- overlap) base) ngram_index) as [values|] eqn:Hv;
      [|constructor].
    apply Forall_forall. intros v Hin. now apply (Hidx _ _ _ Hv). }
  pose proof (try_extensions_good base next_tokens extended_ngrams new_working_ngrams
                false Hb Hn Hg) as Hstep.
  destruct (fold_left (try_extension tokenizer text base) next_tokens
              (extended_ngrams, new_working_ngrams, false)) as [[e w] rb].
  exact Hstep.
Qed.

Lemma extend_bases_good (overlap : Z)
    (ngram_index : dict (list string) (list (list string)))
    (working_ngrams extended_ngrams new_working_ngrams removals : list (list string)) :
  token_values tokenizer ngram_index ->
  Forall (Forall (is_token tokenizer)) working_ngrams ->
  good_state tokenizer text bases extended_ngrams new_working_ngrams ->
  let '(e, w, _) := fold_left (extend_base tokenizer text overlap ngram_index)
                      working_ngrams (extended_ngrams, new_working_ngrams, removals) in
  good_state tokenizer text bases e w.
Proof.
  intros Hidx. revert extended_ngrams new_working_ngrams removals.
  induction working_ngrams as [|base working IH]; intros e w rm Hw Hg;
    cbn [fold_left]; [exact Hg|].
  inversion Hw; subst.
  pose proof (extend_base_good overlap ngram_index base e w rm Hidx H1 Hg) as Hstep.
  destruct (extend_base tokenizer text overlap ngram_index (e, w, rm) base)
    as [[e' w'] rm'].
  now apply IH.
Qed.

(** Whatever the loop returns is a set of verified tuples. *)
Lemma extend_rounds_verified (fuel : nat) (overlap : Z)
    (ngram_index : dict (list string) (list (list string)))
    (working_ngrams extended_ngrams result : list (list string)) :
  token_values tokenizer ngram_index ->
  Forall (Forall (is_token tokenizer)) working_ngrams ->
  Forall (verified tokenizer text bases) extended_ngrams ->
  extend_rounds fuel tokenizer text overlap ngram_index working_ngrams extended_ngrams
  = Some result ->
  Forall (verified tokenizer text bases) result.
Proof.
  intros Hidx. revert working_ngrams extended_ngrams.
  induction fuel as [|fuel IH]; intros working extended Hw He Hrun;
    destruct working as [|base working]; cbn [extend_rounds] in Hrun;
    try (inversion Hrun; subst; exact He); try discriminate Hrun.
  pose proof (extend_bases_good overlap ngram_index (base :: working) extended [] []
                Hidx Hw (conj He (Forall_nil _))) as Hstep.
  destruct (fold_left (extend_base tokenizer text overlap ngram_index) (base :: working)
              (extended, [], [])) as [[e w] rm].
  destruct Hstep as [He' Hw'].
  apply (IH w (set_minus e rm)); [exact Hw' | now apply Forall_set_minus | exact Hrun].
Qed.
End ExtensionLoop.

(** *** Extend: containment *)

(** Each extended n-gram that [_generate_extended_ngrams] returns is the
    joined form of a verified tuple, for the text of the witness. *)
Lemma _generate_extended_ngrams_verified (fuel : nat) (tokenizer : Tokenizer)
    (matches : DataFrame) (wrk sig lbl : string) (corpus : Corpus) (highest_n : Z)
    (extended_ngrams : list string) :
  _generate_extended_ngrams fuel tokenizer matches wrk sig lbl corpus highest_n
  = Returned extended_ngrams ->
  exists content,
    get_witness corpus wrk sig = Some content
    /\ forall e, In e extended_ngrams ->
         exists x, e = t_join tokenizer x
           /\ verified tokenizer (get_token_content tokenizer content)
                (map (fun r => tokenize tokenizer (ngram r)) matches) x.
Proof.
  unfold _generate_extended_ngrams.
  destruct (get_witness corpus wrk sig) as [content|]; [|discriminate].
  set (text := get_token_content tokenizer content).
  set (witness_matches := filter _ matches).
  set (ngrams := map (fun r => tokenize tokenizer (ngram r)) witness_matches).
  set (bases := map (fun r => tokenize tokenizer (ngram r)) matches).
  intros Hrun. exists content. split; [reflexivity|].
  assert (Htok : Forall (Forall (is_token tokenizer)) ngrams).
  { apply Forall_forall. intros x Hx. unfold ngrams in Hx. apply in_map_iff in Hx.
    destruct Hx as [r [Hx _]]. subst x. apply Forall_forall. intros tok Htok.
    now exists (ngram r). }
  assert (Hbase : Forall (verified tokenizer text bases) ngrams).
  { apply Forall_forall. intros x Hx. split.
    - rewrite Forall_forall in Htok. now apply Htok.
    - left. unfold ngrams in Hx. apply in_map_iff in Hx. destruct Hx as [r [Hx Hr]].
      unfold witness_matches in Hr. apply filter_In in Hr.
      unfold bases. apply in_map_iff. exists r. tauto. }
  destruct (extend_rounds fuel tokenizer text (highest_n - 1)
              (fold_left index_ngram ngrams []) ngrams (set_of ngrams))
    as [result|] eqn:Hloop; [|discriminate].
  destruct (map (t_join tokenizer) (sort_desc (fun ng => Z.of_nat (length ng)) result))
    as [|e0 joined] eqn:Hjoined; [discriminate|].
  rewrite <- Hjoined in Hrun. clear e0 joined Hjoined.
  inversion Hrun; subst extended_ngrams. clear Hrun.
  pose proof (extend_rounds_verified tokenizer text bases fuel (highest_n - 1) _ _ _ result
                (ngram_index_token_values tokenizer ngrams Htok) Htok
                (Forall_set_of _ _ Hbase) Hloop) as Hres.
  intros e He. apply In_aligned in He. destruct He as [[]|He].
  apply in_map_iff in He. destruct He as [x [He Hx]].
  apply In_sort_desc in Hx. exists x. split; [now symmetry|].
  rewrite Forall_forall in Hres. now apply Hres.
Qed.

(** The rows made from the extended n-grams of a witness occur in its
    text, when the tokenizer round-trips and the n-grams of the results
    all have [highest_n] tokens. *)
Lemma extended_matches_contained (fuel : nat) (tokenizer : Tokenizer)
    (matches : DataFrame) (wrk sig lbl : string) (corpus : Corpus) (highest_n : Z)
    (extended_ngrams : list string) (r : row) :
  roundtrips tokenizer ->
  (forall r0, In r0 matches ->
     Z.of_nat (length (tokenize tokenizer (ngram r0))) = highest_n) ->
  _generate_extended_ngrams fuel tokenizer matches wrk sig lbl corpus highest_n
  = Returned extended_ngrams ->
  In r (_generate_extended_matches tokenizer extended_ngrams highest_n wrk sig lbl) ->
  highest_n < size r
  /\ exists content,
       get_witness corpus (work r) (siglum r) = Some content
       /\ substring_of (ngram r) (get_token_content tokenizer content).
Proof.
  intros Hrt Hlen Hrun Hr.
  destruct (_generate_extended_ngrams_verified _ _ _ _ _ _ _ _ _ Hrun)
    as [content [Hw Hver]].
  apply In__generate_extended_matches in Hr.
  destruct Hr as [Hwrk [Hsig [_ [e [He [Hsz [i Hng]]]]]]].
  split; [lia|]. exists content. subst wrk sig. split; [exact Hw|].
  destruct (Hver e He) as [x [Hex [Htok Hx]]].
  assert (Hx' : tokenize tokenizer e = x) by (subst e; now apply Hrt).
  rewrite Hx' in Hsz, Hng.
  assert (Hin : contains (get_token_content tokenizer content) (t_join tokenizer x) = true).
  { destruct Hx as [Hb|Hc]; [|exact Hc].
    apply in_map_iff in Hb. destruct Hb as [r0 [Hr0 Hin0]].
    specialize (Hlen r0 Hin0). rewrite Hr0 in Hlen. lia. }
  apply contains_substring_of in Hin.
  eapply substring_of_trans; [|exact Hin].
  rewrite Hng. apply substring_of_window.
Qed.

Lemma extend_witnesses_contained (fuel : nat) (tokenizer : Tokenizer) (corpus : Corpus)
    (matches : DataFrame) (highest_n : Z) (witnesses : list (string * string * string))
    (extended_matches result : DataFrame) (P : row -> Prop) :
  (forall wrk sig lbl extended_ngrams r,
     _generate_extended_ngrams fuel tokenizer matches wrk sig lbl corpus highest_n
     = Returned extended_ngrams ->
     In r (_generate_extended_matches tokenizer extended_ngrams highest_n wrk sig lbl) ->
     P r) ->
  Forall P extended_matches ->
  extend_witnesses fuel tokenizer corpus matches highest_n witnesses extended_matches
  = Returned result ->
  Forall P result.
Proof.
  intros Hstep. revert extended_matches.
  induction witnesses as [|[[wrk sig] lbl] witnesses IH]; intros acc Hacc Hrun;
    cbn [extend_witnesses] in Hrun.
  - inversion Hrun; now subst.
  - destruct (_generate_extended_ngrams fuel tokenizer matches wrk sig lbl corpus highest_n)
      as [extended_ngrams| |] eqn:Hgen; try discriminate Hrun.
    apply IH in Hrun; [exact Hrun|].
    apply Forall_app. split; [exact Hacc|].
    apply Forall_forall. intros r Hr. now apply (Hstep wrk sig lbl extended_ngrams).
Qed.

Lemma series_max_upper (s : list Z) (z : Z) : In z s -> z <= series_max s.
Proof.
  assert (H : forall l a, a <= fold_left Z.max l a
                          /\ forall z, In z l -> z <= fold_left Z.max l a).
  { induction l as [|x l IH]; intros a; simpl; [split; [lia | intros z0 []]|].
    destruct (IH (Z.max a x)) as [Ha Hl]. split; [lia|].
    intros z0 [Hz|Hz]; [subst; lia | now apply Hl]. }
  destruct s as [|x s]; [intros []|]. simpl.
  destruct (H s x) as [Ha Hl]. intros [Hz|Hz]; [subst; exact Ha | now apply Hl].
Qed.

(** The table that [extend] returns is the input followed by added rows;
    the rows of the input have at most the maximum size of the input, and
    every added row has a greater size and an n-gram that occurs in the
    token content of its witness. *)
Lemma extend_added_rows_contained (fuel : nat) (tokenizer : Tokenizer)
    (corpus : Corpus) (t t' : DataFrame) :
  roundtrips tokenizer ->
  sizes_agree tokenizer t ->
  extend fuel tokenizer corpus t = (Returned tt, t') ->
  exists added,
    t' = t ++ added
    /\ (forall r, In r t -> size r <= highest_size t)
    /\ (forall r, In r added ->
          highest_size t < size r
          /\ exists content,
               get_witness corpus (work r) (siglum r) = Some content
               /\ substring_of (ngram r) (get_token_content tokenizer content)).
Proof.
  intros Hrt Hsz Hrun.
  assert (Hmax : forall r, In r t -> size r <= highest_size t).
  { intros r Hr. apply series_max_upper. now apply in_map. }
  unfold extend in Hrun. destruct t as [|r0 t0] eqn:Ht.
  { inversion Hrun; subst. exists []. split; [reflexivity|].
    split; [exact Hmax | intros r []]. }
  rewrite <- Ht in *. clear r0 t0 Ht.
  destruct (highest_size t =? 1).
  { inversion Hrun; subst. exists []. split; [now rewrite app_nil_r|].
    split; [exact Hmax | intros r []]. }
  set (matches := filter (fun r => size r =? highest_size t) t) in Hrun.
  destruct (extend_witnesses fuel tokenizer corpus matches (highest_size t)
              (unique witness_cols_dec (map witness_cols matches)) [])
    as [extended_matches| |] eqn:Hloop; try discriminate Hrun.
  inversion Hrun; subst t'. clear Hrun.
  eexists. split; [reflexivity|]. split; [exact Hmax|].
  assert (Hall : Forall (fun r => highest_size t < size r
                   /\ exists content,
                        get_witness corpus (work r) (siglum r) = Some content
                        /\ substring_of (ngram r) (get_token_content tokenizer content))
                  extended_matches).
  { apply (extend_witnesses_contained fuel tokenizer corpus matches (highest_size t)
             (unique witness_cols_dec (map witness_cols matches)) [] extended_matches);
      [|constructor | exact Hloop].
    intros wrk sig lbl extended_ngrams r Hgen Hr.
    apply (extended_matches_contained fuel tokenizer matches wrk sig lbl corpus
             (highest_size t) extended_ngrams r Hrt); [|exact Hgen | exact Hr].
    intros r1 Hr1. unfold matches in Hr1. apply filter_In in Hr1.
    destruct Hr1 as [Hr1 Hs]. apply Z.eqb_eq in Hs. rewrite <- Hs. now apply Hsz. }
  rewrite Forall_forall in Hall. intros r Hr. apply Hall.
  destruct (_is_intersect_results t); [|exact Hr].
  rewrite _reciprocal_remove_filter in Hr. now apply filter_In in Hr.
Qed.

Lemma concat_characters (c : ascii) (tokens : list string) :
  String.concat "" (String c "" :: tokens) = String c (String.concat "" tokens).
Proof. destruct tokens; reflexivity. Qed.

Lemma is_token_character (tok : string) :
  is_token character_tokenizer tok -> exists c, tok = String c "".
Proof.
  intros [s Hs]. simpl in Hs. induction s as [|c s IH]; simpl in Hs; [contradiction|].
  destruct Hs as [Hs|Hs]; [now exists c | now apply IH].
Qed.

Lemma character_tokenizer_roundtrips : roundtrips character_tokenizer.
Proof.
  intros tokens Htok. unfold t_join. simpl.
  induction tokens as [|tok tokens IH]; [reflexivity|].
  inversion Htok; subst. destruct (is_token_character tok H1) as [c Hc]. subst tok.
  rewrite concat_characters. simpl. f_equal. now apply IH.
Qed.

(** *** Extend: the loop ends *)

Lemma is_token_nonempty (tokenizer : Tokenizer) (tok : string) :
  roundtrips tokenizer -> is_token tokenizer tok -> tok <> EmptyString.
Proof.
  intros Hrt Htok He. subst tok.
  pose proof (Hrt [EmptyString] (Forall_cons _ Htok (Forall_nil _))) as H1.
  pose proof (Hrt [] (Forall_nil _)) as H0.
  unfold t_join in H1, H0. simpl in H1, H0. congruence.
Qed.

Lemma length_concat_tokens (sep : string) (x : list string) :
  Forall (fun tok => tok <> EmptyString) x ->
  (length x <= String.length (String.concat sep x))%nat.
Proof.
  induction x as [|a x IH]; intros H; [simpl; lia|].
  inversion H as [|a' x' Ha Hx]; subst.
  assert (Hlen : (1 <= String.length a)%nat) by (destruct a; [congruence | simpl; lia]).
  destruct x as [|b x]; [simpl; lia|].
  change (String.concat sep (a :: b :: x))
    with (String.append a (String.append sep (String.concat sep (b :: x)))).
  rewrite !length_append. specialize (IH Hx). simpl length in *. lia.
Qed.

Lemma length_slice_from_last {A : Type} (ng : list A) :
  ng <> [] -> length (slice_from (-1) ng) = 1%nat.
Proof.
  intros Hne. unfold slice_from. rewrite length_skipn.
  assert (1 <= length ng)%nat by (destruct ng; [congruence | simpl; lia]).
  change (-1 <? 0) with true. cbv iota. lia.
Qed.

Lemma index_ngram_unit_values
    (ngram_index : dict (list string) (list (list string))) (ng : list string) :
  ng <> [] -> unit_values ngram_index -> unit_values (index_ngram ngram_index ng).
Proof.
  intros Hng Hidx k vs v Hk Hv. unfold index_ngram, setdefault in Hk.
  destruct (dget tuple_dec (slice_to (-1) ng) ngram_index) as [values|] eqn:Hold;
    cbv beta iota zeta in Hk; rewrite dget_dset in Hk;
    destruct (tuple_dec k (slice_to (-1) ng)) as [e|n].
  - inversion Hk; subst vs. apply in_app_or in Hv. destruct Hv as [Hv|[Hv|[]]].
    + now apply (Hidx _ _ _ Hold).
    + subst v. now apply length_slice_from_last.
  - now apply (Hidx _ _ _ Hk).
  - inversion Hk; subst vs. destruct Hv as [Hv|[]]. subst v.
    now apply length_slice_from_last.
  - rewrite dget_dset_ne in Hk by congruence. now apply (Hidx _ _ _ Hk).
Qed.

Lemma ngram_index_unit_values (ngrams : list (list string)) :
  Forall (fun ng => ng <> []) ngrams ->
  unit_values (fold_left index_ngram ngrams []).
Proof.
  assert (H : forall idx, unit_values idx -> Forall (fun ng => ng <> []) ngrams ->
                unit_values (fold_left index_ngram ngrams idx)).
  { induction ngrams as [|ng ngrams IH]; intros idx Hidx Hn; cbn [fold_left]; [exact Hidx|].
    inversion Hn; subst. apply IH; [now apply index_ngram_unit_values | assumption]. }
  apply H. intros k vs v Hk. discriminate Hk.
Qed.

Section NewWorkingNgrams.
Variable tokenizer : Tokenizer.
Variable text : string.
Variable overlap : Z.
Variable ngram_index : dict (list string) (list (list string)).

Lemma try_extensions_new_working (base : list string) (next_tokens : list (list string))
    (extended_ngrams new_working_ngrams : list (list string)) (remove_base : bool) :
  let '(_, w, _) := fold_left (try_extension tokenizer text base) next_tokens
                      (extended_ngrams, new_working_ngrams, remove_base) in
  forall x, In x w ->
    In x new_working_ngrams
    \/ exists next_token, In next_token next_tokens /\ x = base ++ next_token
         /\ contains text (t_join tokenizer x) = true.
Proof.
  revert extended_ngrams new_working_ngrams remove_base.
  induction next_tokens as [|nt nts IH]; intros e w rb; cbn [fold_left].
  - intros x Hx. now left.
  - specialize (IH (fst (fst (try_extension tokenizer text base (e, w, rb) nt)))
                   (snd (fst (try_extension tokenizer text base (e, w, rb) nt)))
                   (snd (try_extension tokenizer text base (e, w, rb) nt))).
    rewrite <- !surjective_pairing in IH.
    destruct (fold_left (try_extension tokenizer text base) nts
                (try_extension tokenizer text base (e, w, rb) nt)) as [[e' w'] rb'].
    intros x Hx. destruct (IH x Hx) as [Hin|[nt' [Hnt Hx']]].
    + unfold try_extension in Hin.
      destruct (contains text (t_join tokenizer (base ++ nt))) eqn:Hc; simpl in Hin.
      * apply in_app_or in Hin. destruct Hin as [Hin|[Hin|[]]]; [now left|].
        right. exists nt. subst x. split; [now left | split; [reflexivity | exact Hc]].
      * now left.
    + right. exists nt'. split; [now right | exact Hx'].
Qed.

Lemma extend_base_new_working (base : list string)
    (extended_ngrams new_working_ngrams removals : list (list string)) :
  let '(_, w, _) := extend_base tokenizer text overlap ngram_index
                      (extended_ngrams, new_working_ngrams, removals) base in
  forall x, In x w ->
    In x new_working_ngrams \/ extension_of tokenizer text ngram_index [base] x.
Proof.
  unfold extend_base.
  destruct (dget tuple_dec (slice_from (- overlap) base) ngram_index)
    as [values|] eqn:Hv.
  - pose proof (try_extensions_new_working base values extended_ngrams
                  new_working_ngrams false) as H.
    destruct (fold_left (try_extension tokenizer text base) values
                (extended_ngrams, new_working_ngrams, false)) as [[e w] rb].
    intros x Hx. destruct (H x Hx) as [Hin|[nt [Hnt [Hx' Hc]]]]; [now left|].
    right. exists base, nt, (slice_from (- overlap) base), values.
    split; [now left | auto].
  - cbn [fold_left]. intros x Hx. now left.
Qed.

Lemma extend_bases_new_working
    (working_ngrams extended_ngrams new_working_ngrams removals : list (list string)) :
  let '(_, w, _) := fold_left (extend_base tokenizer text overlap ngram_index)
                      working_ngrams (extended_ngrams, new_working_ngrams, removals) in
  forall x, In x w ->
    In x new_working_ngrams \/ extension_of tokenizer text ngram_index working_ngrams x.
Proof.
  revert extended_ngrams new_working_ngrams removals.
  induction working_ngrams as [|base working IH]; intros e w rm; cbn [fold_left].
  - intros x Hx. now left.
  - pose proof (extend_base_new_working base e w rm) as Hstep.
    destruct (extend_base tokenizer text overlap ngram_index (e, w, rm) base)
      as [[e1 w1] rm1].
    specialize (IH e1 w1 rm1).
    destruct (fold_left (extend_base tokenizer text overlap ngram_index) working
                (e1, w1, rm1)) as [[e2 w2] rm2].
    intros x Hx. destruct (IH x Hx) as [Hin|[b [nt [k [vs [Hb Hrest]]]]]].
    + destruct (Hstep x Hin) as [Hw|[b [nt [k [vs [Hb Hrest]]]]]]; [now left|].
      right. exists b, nt, k, vs. split; [|exact Hrest].
      destruct Hb as [Hb|[]]. now left.
    + right. exists b, nt, k, vs. split; [now right | exact Hrest].
Qed.

(** With tokens that are not empty and an index of single tokens, the
    working n-grams of round [j] have at least [j] tokens and, after the
    first round, occur in the text: the loop ends within as many rounds as
    the text has characters, and one more. *)
Lemma extend_rounds_ends (fuel j : nat)
    (working_ngrams extended_ngrams : list (list string)) :
  (forall tok, is_token tokenizer tok -> tok <> EmptyString) ->
  token_values tokenizer ngram_index ->
  unit_values ngram_index ->
  (forall x, In x working_ngrams ->
     Forall (is_token tokenizer) x /\ (j <= length x)%nat
     /\ ((1 <= j)%nat -> contains text (t_join tokenizer x) = true)) ->
  (String.length text < fuel + j)%nat ->
  extend_rounds fuel tokenizer text overlap ngram_index working_ngrams extended_ngrams
  <> None.
Proof.
  intros Hne Htok Hunit. revert j working_ngrams extended_ngrams.
  induction fuel as [|fuel IH]; intros j working extended Hw Hfuel;
    destruct working as [|base working]; cbn [extend_rounds]; try discriminate.
  - exfalso. destruct (Hw base (or_introl eq_refl)) as [Hb [Hj Hc]].
    assert (Hin : contains text (t_join tokenizer base) = true) by (apply Hc; lia).
    apply contains_substring_of, substring_of_length in Hin.
    assert (Hlen : (length base <= String.length (t_join tokenizer base))%nat).
    { apply length_concat_tokens. apply Forall_forall. intros tok Hin'.
      apply Hne. rewrite Forall_forall in Hb. now apply Hb. }
    simpl in Hfuel. lia.
  - pose proof (extend_bases_new_working (base :: working) extended [] []) as Hnew.
    destruct (fold_left (extend_base tokenizer text overlap ngram_index) (base :: working)
                (extended, [], [])) as [[e w] rm].
    apply (IH (S j)); [|lia].
    intros x Hx. destruct (Hnew x Hx) as [[]|[b [nt [k [vs [Hb [Hk [Hnt [Hx' Hc]]]]]]]]].
    destruct (Hw b Hb) as [Hbt [Hbj _]].
    split; [|split; [|intros _; exact Hc]].
    + subst x. apply Forall_app. split; [exact Hbt | now apply (Htok k vs)].
    + subst x. rewrite length_app, (Hunit k vs nt Hk Hnt). lia.
Qed.
End NewWorkingNgrams.

Lemma _generate_extended_ngrams_ends (fuel : nat) (tokenizer : Tokenizer)
    (matches : DataFrame) (wrk sig lbl : string) (corpus : Corpus) (highest_n : Z) :
  roundtrips tokenizer ->
  (forall r, In r matches -> tokenize tokenizer (ngram r) <> []) ->
  (forall content, get_witness corpus wrk sig = Some content ->
     (String.length (get_token_content tokenizer content) < fuel)%nat) ->
  _generate_extended_ngrams fuel tokenizer matches wrk sig lbl corpus highest_n
  <> OutOfFuel.
Proof.
  intros Hrt Hne Hfuel. unfold _generate_extended_ngrams.
  destruct (get_witness corpus wrk sig) as [content|]; [|discriminate].
  set (text := get_token_content tokenizer content).
  set (witness_matches := filter _ matches).
  set (ngrams := map (fun r => tokenize tokenizer (ngram r)) witness_matches).
  assert (Htok : Forall (Forall (is_token tokenizer)) ngrams).
  { apply Forall_forall. intros x Hx. unfold ngrams in Hx. apply in_map_iff in Hx.
    destruct Hx as [r [Hx _]]. subst x. apply Forall_forall. intros tok Htok.
    now exists (ngram r). }
  assert (Hnil : Forall (fun ng => ng <> []) ngrams).
  { apply Forall_forall. intros x Hx. unfold ngrams in Hx. apply in_map_iff in Hx.
    destruct Hx as [r [Hx Hr]]. subst x. apply Hne.
    unfold witness_matches in Hr. now apply filter_In in Hr. }
  pose proof (extend_rounds_ends tokenizer text (highest_n - 1)
                (fold_left index_ngram ngrams []) fuel 0 ngrams (set_of ngrams)
                (fun tok => is_token_nonempty tokenizer tok Hrt)
                (ngram_index_token_values tokenizer ngrams Htok)
                (ngram_index_unit_values ngrams Hnil)) as Hends.
  destruct (extend_rounds fuel tokenizer text (highest_n - 1)
              (fold_left index_ngram ngrams []) ngrams (set_of ngrams)) as [result|].
  { destruct (map (t_join tokenizer) (sort_desc (fun ng => Z.of_nat (length ng)) result));
      discriminate. }
  exfalso. apply Hends; [|specialize (Hfuel content eq_refl); fold text in Hfuel; lia
                         |reflexivity].
  intros x Hx. rewrite Forall_forall in Htok. split; [now apply Htok|].
  split; [lia | intros H; lia].
Qed.

Lemma extend_witnesses_ends (fuel : nat) (tokenizer : Tokenizer) (corpus : Corpus)
    (matches : DataFrame) (highest_n : Z) (witnesses : list (string * string * string))
    (extended_matches : DataFrame) :
  (forall wrk sig lbl, In (wrk, sig, lbl) witnesses ->
     _generate_extended_ngrams fuel tokenizer matches wrk sig lbl corpus highest_n
     <> OutOfFuel) ->
  extend_witnesses fuel tokenizer corpus matches highest_n witnesses extended_matches
  <> OutOfFuel.
Proof.
  revert extended_matches.
  induction witnesses as [|[[wrk sig] lbl] witnesses IH]; intros acc Hgen;
    cbn [extend_witnesses]; [discriminate|].
  pose proof (Hgen wrk sig lbl (or_introl eq_refl)) as Hthis.
  destruct (_generate_extended_ngrams fuel tokenizer matches wrk sig lbl corpus highest_n);
    [|discriminate | congruence].
  apply IH. intros w s l Hin. apply Hgen. now right.
Qed.

Lemma longest_text_upper (tokenizer : Tokenizer) (corpus : Corpus) (t : DataFrame)
    (r : row) (content : string) :
  In r t -> get_witness corpus (work r) (siglum r) = Some content ->
  (String.length (get_token_content tokenizer content) <= longest_text tokenizer corpus t)%nat.
Proof.
  intros Hr Hw. unfold longest_text.
  pose proof (proj1 (list_max_le _ _) (Nat.le_refl (list_max
     (map (fun r => match get_witness corpus (work r) (siglum r) with
                    | Some content => String.length (get_token_content tokenizer content)
                    | None => 0%nat
                    end) t)))) as Hall.
  rewrite Forall_forall in Hall.
  specialize (Hall (String.length (get_token_content tokenizer content))).
  apply Hall. apply in_map_iff. exists r. now rewrite Hw.
Qed.

(** With more fuel than the longest text of the witnesses has characters,
    [extend] returns or raises: every [while] loop ends, when the
    tokenizer round-trips and the largest n-grams have as many tokens, at
    least one, as their size says. *)
Lemma extend_ends (fuel : nat) (tokenizer : Tokenizer) (corpus : Corpus) (t : DataFrame) :
  roundtrips tokenizer ->
  sizes_agree tokenizer t ->
  0 < highest_size t ->
  (longest_text tokenizer corpus t < fuel)%nat ->
  fst (extend fuel tokenizer corpus t) <> OutOfFuel.
Proof.
  intros Hrt Hsz Hpos Hfuel. unfold extend.
  destruct t as [|r0 t0] eqn:Ht; [discriminate|]. rewrite <- Ht in *. clear r0 t0 Ht.
  destruct (highest_size t =? 1); [discriminate|].
  set (matches := filter (fun r => size r =? highest_size t) t).
  pose proof (extend_witnesses_ends fuel tokenizer corpus matches (highest_size t)
                (unique witness_cols_dec (map witness_cols matches)) []) as Hends.
  destruct (extend_witnesses fuel tokenizer corpus matches (highest_size t)
              (unique witness_cols_dec (map witness_cols matches)) []);
    [discriminate | discriminate |].
  exfalso. apply Hends; [|reflexivity].
  intros wrk sig lbl Hin. apply In_unique, in_map_iff in Hin.
  destruct Hin as [r [Hcols Hr]]. inversion Hcols; subst wrk sig lbl.
  unfold matches in Hr. apply filter_In in Hr. destruct Hr as [Hr _].
  apply _generate_extended_ngrams_ends; [exact Hrt | |].
  - intros r1 Hr1 Hnil. unfold matches in Hr1. apply filter_In in Hr1.
    destruct Hr1 as [Hr1 Hs]. apply Z.eqb_eq in Hs.
    pose proof (Hsz r1 Hr1 Hs) as Hlen. rewrite Hnil in Hlen. simpl in Hlen. lia.
  - intros content Hw.
    pose proof (longest_text_upper tokenizer corpus t r content Hr Hw). lia.
Qed.

(** [C4].  When the tokenizer round-trips and the largest n-grams of the
    table have as many tokens as their size says, every row that Extend
    adds (every row of the returned table whose size exceeds the maximum
    size of the input: the returned table is the input, whose rows have at
    most that size, followed by the added rows) names a witness of the
    corpus and has an n-gram that is a literal substring of the joined
    token content of that witness.  Extend does return or raise, given
    more fuel than the longest text has characters, when that maximum size
    is positive. *)
Theorem extend_adds_substrings_of_witness (fuel : nat) (tokenizer : Tokenizer)
    (corpus : Corpus) (t : DataFrame) :
  roundtrips tokenizer ->
  sizes_agree tokenizer t ->
  (forall t', extend fuel tokenizer corpus t = (Returned tt, t') ->
     exists added,
       t' = t ++ added
       /\ (forall r, In r t -> size r <= highest_size t)
       /\ (forall r, In r added ->
             highest_size t < size r
             /\ exists content,
                  get_witness corpus (work r) (siglum r) = Some content
                  /\ substring_of (ngram r) (get_token_content tokenizer content)))
  /\ (0 < highest_size t -> (longest_text tokenizer corpus t < fuel)%nat ->
      fst (extend fuel tokenizer corpus t) <> OutOfFuel).
Proof.
  intros Hrt Hsz. split.
  - intros t'. now apply extend_added_rows_contained.
  - now apply extend_ends.
Qed.

Lemma extend_adds_substrings_of_witness_witness :
  roundtrips character_tokenizer
  /\ sizes_agree character_tokenizer scenario_B
  /\ extend 5 character_tokenizer scenario_B_corpus scenario_B
     = (Returned tt, extended_scenario_B)
  /\ exists added,
       extended_scenario_B = scenario_B ++ added
       /\ (forall r, In r scenario_B -> size r <= highest_size scenario_B)
       /\ (forall r, In r added ->
             highest_size scenario_B < size r
             /\ exists content,
                  get_witness scenario_B_corpus (work r) (siglum r) = Some content
                  /\ substring_of (ngram r)
                       (get_token_content character_tokenizer content)).
Proof.
  assert (Hs : sizes_agree character_tokenizer scenario_B).
  { intros r Hr _. simpl in Hr. destruct Hr as [Hr|[Hr|[]]]; subst r; reflexivity. }
  assert (Hrun : extend 5 character_tokenizer scenario_B_corpus scenario_B
                 = (Returned tt, extended_scenario_B)) by reflexivity.
  split; [exact character_tokenizer_roundtrips|]. split; [exact Hs|].
  split; [exact Hrun|].
  exact (proj1 (extend_adds_substrings_of_witness 5 character_tokenizer scenario_B_corpus
                  scenario_B character_tokenizer_roundtrips Hs)
           extended_scenario_B Hrun).
Defined.

(** ** Part III: further properties *)

(** *** Orders *)

Lemma ascii_compare_refl (a : ascii) : Ascii.compare a a = Eq.
Proof. unfold Ascii.compare. apply N.compare_refl. Qed.

Lemma ascii_compare_trans (a b c : ascii) :
  Ascii.compare a b = Lt -> Ascii.compare b c = Lt -> Ascii.compare a c = Lt.
Proof.
  unfold Ascii.compare. rewrite !N.compare_lt_iff. apply N.lt_trans.
Qed.

Lemma string_compare_refl (s : string) : String.compare s s = Eq.
Proof.
  induction s as [|c s IH]; simpl; [reflexivity|].
  now rewrite ascii_compare_refl.
Qed.

Lemma string_compare_trans (a b c : string) :
  String.compare a b = Lt -> String.compare b c = Lt -> String.compare a c = Lt.
Proof.
  revert b c. induction a as [|x a IH]; intros [|y b] [|z c]; simpl;
    try discriminate; try reflexivity.
  destruct (Ascii.compare x y) eqn:Hxy; try discriminate;
    destruct (Ascii.compare y z) eqn:Hyz; try discriminate; intros H1 H2.
  - apply Ascii.compare_eq_iff in Hxy, Hyz. subst.
    rewrite ascii_compare_refl. now apply (IH b c).
  - apply Ascii.compare_eq_iff in Hxy. subst. now rewrite Hyz.
  - apply Ascii.compare_eq_iff in Hyz. subst. now rewrite Hxy.
  - now rewrite (ascii_compare_trans x y z).
Qed.

Lemma weak_order_by_string {A : Type} (f : A -> string) :
  weak_order (fun a b => String.compare (f a) (f b)).
Proof.
  split; [|split].
  - intros a b. apply String.compare_antisym.
  - intros a b c. apply string_compare_trans.
  - intros a b H x. apply String.compare_eq_iff in H. now rewrite H.
Qed.

Lemma weak_order_by_Z_desc {A : Type} (f : A -> Z) :
  weak_order (fun a b => Z.compare (f b) (f a)).
Proof.
  split; [|split].
  - intros a b. apply Z.compare_antisym.
  - intros a b c. rewrite !Z.compare_lt_iff. lia.
  - intros a b H x. apply Z.compare_eq_iff in H. now rewrite H.
Qed.

Lemma weak_order_right {A : Type} (cmp : A -> A -> comparison) (a b : A) :
  weak_order cmp -> cmp a b = Eq -> forall x, cmp x a = cmp x b.
Proof.
  intros [Hanti [_ Hcong]] H x.
  rewrite (Hanti x a), (Hanti x b). f_equal. now apply Hcong.
Qed.

(** The lexicographic product of two such comparisons is one. *)
Lemma weak_order_then {A : Type} (c1 c2 : A -> A -> comparison) :
  weak_order c1 -> weak_order c2 ->
  weak_order (fun a b => then_compare (c1 a b) (c2 a b)).
Proof.
  intros H1 H2.
  pose proof (weak_order_right c1) as Hr1.
  destruct H1 as [Ha1 [Ht1 Hc1]]. destruct H2 as [Ha2 [Ht2 Hc2]].
  assert (Hw1 : weak_order c1) by (split; [|split]; assumption).
  split; [|split].
  - intros a b. rewrite (Ha1 a b), (Ha2 a b). destruct (c1 b a); reflexivity.
  - intros a b c. unfold then_compare.
    destruct (c1 a b) eqn:Hab; try discriminate.
    + rewrite (Hc1 a b Hab c). destruct (c1 b c); try discriminate; [apply Ht2 | reflexivity].
    + destruct (c1 b c) eqn:Hbc; try discriminate; intros _ H.
      * now rewrite <- (Hr1 b c Hw1 Hbc a), Hab.
      * now rewrite (Ht1 a b c Hab Hbc).
  - intros a b H x. unfold then_compare in *.
    destruct (c1 a b) eqn:Hab; try discriminate.
    now rewrite (Hc1 a b Hab x), (Hc2 a b H x).
Qed.

Lemma then_compare_Eq (c c' : comparison) :
  then_compare c c' = Eq -> c = Eq /\ c' = Eq.
Proof. destruct c; simpl; intros H; try discriminate; now split. Qed.

Lemma sort_compare_weak_order : weak_order sort_compare.
Proof.
  unfold sort_compare.
  apply (weak_order_then (fun a b => Z.compare (size b) (size a))).
  { apply weak_order_by_Z_desc. }
  apply (weak_order_then (fun a b => String.compare (ngram a) (ngram b))).
  { apply weak_order_by_string. }
  apply (weak_order_then (fun a b => Z.compare (count b) (count a))).
  { apply weak_order_by_Z_desc. }
  apply (weak_order_then (fun a b => String.compare (label a) (label b))).
  { apply weak_order_by_string. }
  apply (weak_order_then (fun a b => String.compare (work a) (work b))).
  { apply weak_order_by_string. }
  apply weak_order_by_string.
Qed.

(** Rows that compare equal in the order of [sort] are the same row. *)
Lemma sort_compare_Eq (a b : row) : sort_compare a b = Eq -> a = b.
Proof.
  unfold sort_compare. intros H.
  apply then_compare_Eq in H. destruct H as [Hsize H].
  apply then_compare_Eq in H. destruct H as [Hngram H].
  apply then_compare_Eq in H. destruct H as [Hcount H].
  apply then_compare_Eq in H. destruct H as [Hlabel H].
  apply then_compare_Eq in H. destruct H as [Hwork Hsiglum].
  apply Z.compare_eq_iff in Hsize, Hcount.
  apply String.compare_eq_iff in Hngram, Hlabel, Hwork, Hsiglum.
  destruct a, b. simpl in *. congruence.
Qed.

(** *** Insertion into a sorted list *)

Section InsertSorted.
Context {A : Type}.
Variable ltb : A -> A -> bool.
Hypothesis ltb_irrefl : forall a, ltb a a = false.
Hypothesis ltb_trans : forall a b c, ltb a b = true -> ltb b c = true -> ltb a c = true.
Hypothesis ltb_connected : forall a b, ltb a b = false -> ltb b a = false -> a = b.

Lemma ltb_asym (a b : A) : ltb a b = true -> ltb b a = true -> False.
Proof.
  intros Hab Hba. pose proof (ltb_irrefl a) as Hi.
  rewrite (ltb_trans a b a Hab Hba) in Hi. discriminate.
Qed.

Lemma insert_sorted_Permutation (x : A) (l : list A) :
  Permutation (insert_sorted ltb x l) (x :: l).
Proof.
  induction l as [|y l IH]; simpl; [reflexivity|].
  destruct (ltb x y); [reflexivity|].
  rewrite IH. apply perm_swap.
Qed.

Lemma sorted_Permutation (l : list A) :
  Permutation (fold_right (insert_sorted ltb) [] l) l.
Proof.
  induction l as [|x l IH]; simpl; [reflexivity|].
  rewrite insert_sorted_Permutation. now constructor.
Qed.

Lemma insert_sorted_StronglySorted (x : A) (l : list A) :
  StronglySorted (fun a b => ltb b a = false) l ->
  StronglySorted (fun a b => ltb b a = false) (insert_sorted ltb x l).
Proof.
  induction l as [|y l IH]; intros Hs; simpl.
  - repeat constructor.
  - inversion Hs as [|y' l' Hl Hy]; subst.
    destruct (ltb x y) eqn:Hxy.
    + constructor; [exact Hs|]. constructor.
      * destruct (ltb y x) eqn:Hyx; [|reflexivity].
        exfalso. now apply (ltb_asym x y).
      * rewrite Forall_forall in Hy |- *. intros z Hz.
        destruct (ltb z x) eqn:Hzx; [|reflexivity].
        rewrite <- (Hy z Hz). symmetry. now apply (ltb_trans z x y).
    + constructor; [now apply IH|].
      apply Forall_forall. intros z Hz.
      apply (Permutation_in _ (insert_sorted_Permutation x l)) in Hz.
      destruct Hz as [Hz|Hz]; [now subst z|].
      rewrite Forall_forall in Hy. now apply Hy.
Qed.

Lemma sorted_StronglySorted (l : list A) :
  StronglySorted (fun a b => ltb b a = false) (fold_right (insert_sorted ltb) [] l).
Proof.
  induction l as [|x l IH]; simpl; [constructor|].
  now apply insert_sorted_StronglySorted.
Qed.

(** Two insertions give the same list in either order. *)
Lemma insert_sorted_comm (x y : A) (l : list A) :
  insert_sorted ltb x (insert_sorted ltb y l) = insert_sorted ltb y (insert_sorted ltb x l).
Proof.
  induction l as [|z l IH]; simpl.
  - destruct (ltb x y) eqn:Hxy, (ltb y x) eqn:Hyx; try reflexivity.
    + exfalso. now apply (ltb_asym x y).
    + now rewrite (ltb_connected x y Hxy Hyx).
  - destruct (ltb y z) eqn:Hyz, (ltb x z) eqn:Hxz; simpl; rewrite ?Hyz, ?Hxz.
    + destruct (ltb x y) eqn:Hxy, (ltb y x) eqn:Hyx; simpl; rewrite ?Hyz, ?Hxz;
        try reflexivity.
      * exfalso. now apply (ltb_asym x y).
      * now rewrite (ltb_connected x y Hxy Hyx).
    + destruct (ltb x y) eqn:Hxy; simpl; rewrite ?Hxz; [|reflexivity].
      rewrite (ltb_trans x y z Hxy Hyz) in Hxz. discriminate.
    + destruct (ltb y x) eqn:Hyx; simpl; rewrite ?Hyz; [|reflexivity].
      rewrite (ltb_trans y x z Hyx Hxz) in Hyz. discriminate.
    + now rewrite IH.
Qed.

Lemma sorted_of_Permutation (l l' : list A) :
  Permutation l l' ->
  fold_right (insert_sorted ltb) [] l = fold_right (insert_sorted ltb) [] l'.
Proof.
  induction 1 as [|x l l' _ IH|x y l|l l' l'' _ IH1 _ IH2]; simpl.
  - reflexivity.
  - now rewrite IH.
  - apply insert_sorted_comm.
  - congruence.
Qed.
End InsertSorted.

(** *** Sort *)

Lemma sort_ltb_irrefl (a : row) : sort_ltb a a = false.
Proof.
  unfold sort_ltb. destruct sort_compare_weak_order as [Hanti _].
  specialize (Hanti a a). destruct (sort_compare a a); try reflexivity; discriminate.
Qed.

Lemma sort_ltb_trans (a b c : row) :
  sort_ltb a b = true -> sort_ltb b c = true -> sort_ltb a c = true.
Proof.
  unfold sort_ltb. destruct sort_compare_weak_order as [_ [Htrans _]].
  destruct (sort_compare a b) eqn:Hab; try discriminate.
  destruct (sort_compare b c) eqn:Hbc; try discriminate.
  now rewrite (Htrans a b c Hab Hbc).
Qed.

Lemma sort_ltb_connected (a b : row) :
  sort_ltb a b = false -> sort_ltb b a = false -> a = b.
Proof.
  unfold sort_ltb. destruct sort_compare_weak_order as [Hanti _].
  rewrite (Hanti b a). destruct (sort_compare a b) eqn:Hab; simpl; try discriminate.
  intros _ _. now apply sort_compare_Eq.
Qed.

Lemma sort_ltb_false (a b : row) : sort_ltb b a = false <-> sort_le a b.
Proof.
  unfold sort_ltb, sort_le. destruct sort_compare_weak_order as [Hanti _].
  rewrite (Hanti b a). destruct (sort_compare a b); simpl; split; congruence.
Qed.

(** [X1].  Sort rearranges the rows of the table, losing and adding none,
    into the order by size (descending), n-gram, count (descending), label,
    work and siglum: every row comes before all rows that follow it in that
    order. *)
Theorem sort_is_ordered_permutation (t : DataFrame) :
  Permutation (sort t) t /\ StronglySorted sort_le (sort t).
Proof.
  split; [apply sorted_Permutation|].
  pose proof (sorted_StronglySorted sort_ltb sort_ltb_irrefl sort_ltb_trans t) as H.
  fold (sort t) in H. induction H as [|a l Hl IH Ha]; constructor; [exact IH|].
  eapply Forall_impl; [|exact Ha]. intros b Hb. now apply sort_ltb_false.
Qed.

(** [X2].  The sorted table depends only on which rows the table has, not
    on their order: tables with the same rows sort to the same table; in
    particular sorting twice gives what sorting once gives. *)
Theorem sort_is_canonical (t : DataFrame) :
  sort (sort t) = sort t
  /\ forall t', Permutation t t' -> sort t = sort t'.
Proof.
  assert (H : forall a b, Permutation a b -> sort a = sort b).
  { intros a b. apply sorted_of_Permutation.
    - exact sort_ltb_irrefl.
    - exact sort_ltb_trans.
    - exact sort_ltb_connected. }
  split; [|apply H]. apply H. apply sorted_Permutation.
Qed.

(** *** Prune by n-gram and by size *)

(** [X3].  Prune by n-gram keeps exactly the rows whose n-gram is not
    among those given; pruning by one list and then by
    another is pruning by both at once, in either order. *)
Theorem prune_by_ngram_removes_listed (ngrams ngrams' : list string) (t : DataFrame) :
  (forall r, In r (prune_by_ngram ngrams t) <-> In r t /\ ~ In (ngram r) ngrams)
  /\ prune_by_ngram ngrams (prune_by_ngram ngrams' t) = prune_by_ngram (ngrams ++ ngrams') t
  /\ prune_by_ngram ngrams (prune_by_ngram ngrams' t)
     = prune_by_ngram ngrams' (prune_by_ngram ngrams t).
Proof.
  assert (Hboth : forall a b, prune_by_ngram a (prune_by_ngram b t)
                              = filter (fun r => negb (isin a (ngram r))
                                                 && negb (isin b (ngram r))) t).
  { intros a b. unfold prune_by_ngram. apply filter_filter_andb. }
  split; [|split].
  - intros r. unfold prune_by_ngram. rewrite filter_In, negb_true_iff.
    rewrite <- isin_In. destruct (isin ngrams (ngram r)); intuition congruence.
  - rewrite Hboth. unfold prune_by_ngram. apply filter_ext. intros r.
    unfold isin. rewrite existsb_app. now rewrite negb_orb.
  - rewrite !Hboth. apply filter_ext. intros r. apply andb_comm.
Qed.

Lemma prune_by_ngram_size_filter (minimum maximum : option Z) (t : DataFrame) :
  prune_by_ngram_size minimum maximum t
  = filter (fun r => within_boundsb minimum maximum (size r)) t.
Proof.
  unfold prune_by_ngram_size, within_boundsb.
  destruct (truthy minimum), (truthy maximum); simpl.
  - rewrite filter_filter_andb. apply filter_ext. intros r. apply andb_comm.
  - apply filter_ext. intros r. now rewrite andb_true_r.
  - reflexivity.
  - symmetry. now apply filter_all.
Qed.

(** [X4].  Prune by n-gram size keeps exactly the rows whose size is within the bounds, a bound of [0] or none not binding;
    a second prune with the same bounds changes nothing. *)
Theorem prune_by_ngram_size_keeps_sizes_within_bounds
    (minimum maximum : option Z) (t : DataFrame) :
  (forall r, In r (prune_by_ngram_size minimum maximum t) <->
     In r t /\ within_bounds minimum maximum (size r))
  /\ prune_by_ngram_size minimum maximum (prune_by_ngram_size minimum maximum t)
     = prune_by_ngram_size minimum maximum t.
Proof.
  split.
  - intros r. rewrite prune_by_ngram_size_filter, filter_In, within_boundsb_spec. tauto.
  - rewrite !prune_by_ngram_size_filter. apply filter_all.
    intros r Hr. now apply filter_In in Hr.
Qed.

(** *** Prune by total n-gram count *)










(** *** Prune by work count *)

Lemma keys_filter_tabulated {V : Type} (f : string -> V) (c : V -> bool) (l : list string) :
  keys (filter (fun p => c (snd p)) (map (fun g => (g, f g)) l))
  = filter (fun g => c (f g)) l.
Proof.
  unfold keys. induction l as [|g l IH]; simpl; [reflexivity|].
  destruct (c (f g)); simpl; now rewrite IH.
Qed.

Lemma filter_tabulated {V : Type} (f : string -> V) (c : V -> bool) (l : list string) :
  filter (fun p => c (snd p)) (map (fun g => (g, f g)) l)
  = map (fun g => (g, f g)) (filter (fun g => c (f g)) l).
Proof.
  induction l as [|g l IH]; simpl; [reflexivity|].
  destruct (c (f g)); simpl; now rewrite IH.
Qed.

(** An n-gram is attested by at least one work exactly when one of its
    rows has a positive count. *)
Lemma attesting_works_positive (g : string) (t : DataFrame) :
  (0 < attesting_works g t)%nat <-> exists r, In r t /\ ngram r = g /\ 0 < count r.
Proof.
  unfold attesting_works. split.
  - intros H.
    destruct (filter (fun r => String.eqb (ngram r) g && (0 <? count r)) t)
      as [|r l] eqn:Hf; [vm_compute in H; lia|].
    assert (Hin : In r (filter (fun r => String.eqb (ngram r) g && (0 <? count r)) t))
      by (rewrite Hf; now left).
    apply filter_In in Hin. destruct Hin as [Hin Hc]. apply andb_true_iff in Hc.
    destruct Hc as [Hg Hc]. apply String.eqb_eq in Hg. apply Z.ltb_lt in Hc.
    now exists r.
  - intros [r [Hr [Hg Hc]]]. apply (nunique_nonempty _ (work r)). apply in_map.
    apply filter_In. split; [exact Hr|]. apply andb_true_iff.
    split; [now apply String.eqb_eq | now apply Z.ltb_lt].
Qed.

(** [X7].  Prune by work count keeps exactly the rows of the n-grams that some row attests with a positive count and whose
    number of distinct attesting works is within the bounds (a bound of
    [0] or none not binding): a kept n-gram keeps its rows of count zero
    too, and an n-gram that no row attests loses its rows whatever the
    bounds, also when none is given. *)
Theorem prune_by_work_count_keeps_attested_within_bounds
    (minimum maximum : option Z) (t : DataFrame) :
  (forall r, In r (prune_by_work_count minimum maximum t) <->
     In r t /\ (0 < attesting_works (ngram r) t)%nat
     /\ within_bounds minimum maximum (Z.of_nat (attesting_works (ngram r) t)))
  /\ (forall r, In r (prune_by_work_count None None t) <->
        In r t /\ exists r', In r' t /\ ngram r' = ngram r /\ 0 < count r').
Proof.
  assert (Hmain : forall mn mx r, In r (prune_by_work_count mn mx t) <->
     In r t /\ (0 < attesting_works (ngram r) t)%nat
     /\ within_bounds mn mx (Z.of_nat (attesting_works (ngram r) t))).
  { intros mn mx r. unfold prune_by_work_count. cbv zeta.
    set (filtered := filter (fun r => 0 <? count r) t).
    set (n := fun g => nunique (map work (filter (fun r => String.eqb (ngram r) g) filtered))).
    set (L := sort_strings (unique string_dec (map ngram filtered))).
    assert (Hn : forall g, n g = attesting_works g t).
    { intros g. unfold n, attesting_works, filtered. now rewrite filter_filter_andb. }
    assert (HL : forall g, In g L <-> (0 < attesting_works g t)%nat).
    { intros g. unfold L, sort_strings. rewrite In_sorted, In_unique, in_map_iff.
      rewrite attesting_works_positive. unfold filtered. split.
      - intros [r0 [Hg Hr0]]. apply filter_In in Hr0. destruct Hr0 as [Hr0 Hc].
        apply Z.ltb_lt in Hc. now exists r0.
      - intros [r0 [Hr0 [Hg Hc]]]. exists r0. split; [exact Hg|].
        apply filter_In. split; [exact Hr0 | now apply Z.ltb_lt]. }
    rewrite filter_In, isin_In. unfold within_bounds.
    destruct (truthy mn), (truthy mx).
    - rewrite (filter_tabulated n (fun v => bound mn <=? Z.of_nat v)).
      rewrite (keys_filter_tabulated n (fun v => Z.of_nat v <=? bound mx)).
      rewrite !filter_In, !Z.leb_le, HL, Hn. intuition.
    - rewrite (keys_filter_tabulated n (fun v => bound mn <=? Z.of_nat v)).
      rewrite filter_In, Z.leb_le, HL, Hn. intuition discriminate.
    - rewrite (keys_filter_tabulated n (fun v => Z.of_nat v <=? bound mx)).
      rewrite filter_In, Z.leb_le, HL, Hn. intuition discriminate.
    - unfold keys. rewrite map_map. simpl. rewrite map_id, HL. intuition discriminate. }
  split; [apply Hmain|].
  intros r. rewrite Hmain, attesting_works_positive. unfold within_bounds. simpl.
  split.
  - intros [Hr [[r' [Hr' [Hg Hc]]] _]]. split; [exact Hr|]. now exists r'.
  - intros [Hr [r' [Hr' [Hg Hc]]]]. split; [exact Hr|].
    split; [now exists r' | split; discriminate].
Qed.

(** *** Label count *)



(** *** Collapse witnesses *)

Lemma string_ltb_irrefl (s : string) : String.ltb s s = false.
Proof. unfold String.ltb. now rewrite string_compare_refl. Qed.

Lemma string_ltb_trans (a b c : string) :
  String.ltb a b = true -> String.ltb b c = true -> String.ltb a c = true.
Proof.
  unfold String.ltb.
  destruct (String.compare a b) eqn:Hab; try discriminate.
  destruct (String.compare b c) eqn:Hbc; try discriminate.
  now rewrite (string_compare_trans a b c Hab Hbc).
Qed.

Lemma merge_sigla_of_group (t : DataFrame) (k : string * string * Z) :
  In k (map collapse_cols t) ->
  exists o,
    merge_sigla (filter (fun r => if collapse_cols_dec (collapse_cols r) k
                                  then true else false) t) = [o]
    /\ collapsed_cols o = k
    /\ c_sigla o = String.concat " "
         (sort_strings (map quote_siglum (map siglum
            (filter (fun r => if collapse_cols_dec (collapse_cols r) k
                              then true else false) t)))).
Proof.
  intros Hk. apply in_map_iff in Hk. destruct Hk as [r [Hk Hr]].
  assert (Hin : In r (filter (fun r => if collapse_cols_dec (collapse_cols r) k
                                       then true else false) t)).
  { apply filter_In. split; [exact Hr|].
    destruct (collapse_cols_dec (collapse_cols r) k); [reflexivity | contradiction]. }
  destruct (filter (fun r => if collapse_cols_dec (collapse_cols r) k
                             then true else false) t) as [|m l] eqn:Hf; [contradiction|].
  assert (Hm : In m (filter (fun r => if collapse_cols_dec (collapse_cols r) k
                                      then true else false) t))
    by (rewrite Hf; now left).
  apply filter_In in Hm. destruct Hm as [_ Hm].
  destruct (collapse_cols_dec (collapse_cols m) k) as [e|]; [|discriminate].
  eexists. split; [reflexivity|]. split; [exact e | reflexivity].
Qed.

(** [X9].  Collapse witnesses of a table that is not empty gives one row
    for each distinct (work, n-gram, count) of the table, in the order in
    which these first occur and with that count (the counts of the
    witnesses are not added up); the sigla of the row are the sigla of all
    rows of its group, each quoted if it has a space, sorted and joined by
    spaces. *)
Theorem collapse_witnesses_one_row_per_group (t : DataFrame) :
  t <> [] ->
  map collapsed_cols (collapse_witnesses t) = unique collapse_cols_dec (map collapse_cols t)
  /\ forall o, In o (collapse_witnesses t) ->
       exists sigla,
         c_sigla o = String.concat " " sigla
         /\ Permutation sigla
              (map quote_siglum
                 (map siglum (filter (fun r => if collapse_cols_dec (collapse_cols r)
                                                    (collapsed_cols o)
                                               then true else false) t)))
         /\ StronglySorted (fun a b => String.ltb b a = false) sigla.
Proof.
  intros _. unfold collapse_witnesses, groupby_unsorted.
  assert (Hall : forall ks, (forall k, In k ks -> In k (map collapse_cols t)) ->
            map collapsed_cols
              (flat_map (fun g => merge_sigla (snd g))
                 (map (fun k => (k, filter (fun r => if collapse_cols_dec (collapse_cols r) k
                                                     then true else false) t)) ks)) = ks).
  { induction ks as [|k ks IH]; intros Hks; [reflexivity|].
    cbn [map flat_map snd]. rewrite map_app.
    destruct (merge_sigla_of_group t k (Hks k (or_introl eq_refl))) as [o [Ho [Hk _]]].
    rewrite Ho. cbn [map app]. rewrite Hk. f_equal.
    apply IH. intros k' Hk'. apply Hks. now right. }
  split.
  - apply Hall. intros k Hk. now apply In_unique in Hk.
  - intros o Ho. apply in_flat_map in Ho. destruct Ho as [g [Hg Ho]].
    apply in_map_iff in Hg. destruct Hg as [k [Hg Hk]]. subst g.
    apply In_unique in Hk.
    destruct (merge_sigla_of_group t k Hk) as [o' [Ho' [Hcols Hsigla]]].
    cbv beta in Ho. cbn [snd] in Ho. rewrite Ho' in Ho. destruct Ho as [Ho|[]]. subst o'.
    rewrite Hcols. eexists. split; [exact Hsigla|]. split.
    + apply sorted_Permutation.
    + apply sorted_StronglySorted; [exact string_ltb_irrefl | exact string_ltb_trans].
Qed.

Lemma collapse_witnesses_one_row_per_group_witness :
  scenario_D <> []
  /\ map collapsed_cols (collapse_witnesses scenario_D)
     = unique collapse_cols_dec (map collapse_cols scenario_D).
Proof.
  assert (H : scenario_D <> []) by discriminate.
  split; [exact H|].
  exact (proj1 (collapse_witnesses_one_row_per_group scenario_D H)).
Defined.

Example collapse_witnesses_scenario_D :
  collapse_witnesses scenario_D
  = [ mkCollapsedRow "x" 1 "W" "A" 5 "a b";
      mkCollapsedRow "x" 1 "W" "A" 4 (String.append double_quote
                                        (String.append "c d" double_quote)) ].
Proof. reflexivity. Qed.

(** *** Remove label, reciprocal remove and the test for intersect results *)

Lemma dget_tabulate_Some {V : Type} (f : string -> V) (k : string) (l : list string) :
  In k l -> dget string_dec k (map (fun v => (v, f v)) l) = Some (f k).
Proof.
  induction l as [|a l IH]; simpl; intros H; [contradiction|].
  destruct (string_dec k a) as [e|n]; [now subst|].
  apply IH. destruct H as [H|H]; [congruence | exact H].
Qed.

(** [X10].  Removing a label that labels some row returns, keeping
    exactly the rows of the other labels; removing the same
    label again then raises [KeyError] and leaves the table as it is. *)
Theorem remove_label_present_then_absent (lbl : string) (t : DataFrame) :
  In lbl (map label t) ->
  exists t', remove_label lbl t = (Returned tt, t')
    /\ (forall r, In r t' <-> In r t /\ label r <> lbl)
    /\ remove_label lbl t' = (Raised (KeyError lbl), t').
Proof.
  intros Hin. exists (filter (fun r => negb (String.eqb (label r) lbl)) t).
  assert (Hrows : forall r, In r (filter (fun r => negb (String.eqb (label r) lbl)) t)
                            <-> In r t /\ label r <> lbl).
  { intros r. rewrite filter_In, negb_true_iff, String.eqb_neq. tauto. }
  split; [|split; [exact Hrows|]].
  - unfold remove_label, value_counts.
    rewrite dget_tabulate_Some; [reflexivity|]. now apply nodup_In.
  - unfold remove_label, value_counts. rewrite dget_tabulate_None; [reflexivity|].
    intros H. apply nodup_In, in_map_iff in H. destruct H as [r [Hl Hr]].
    apply Hrows in Hr. tauto.
Qed.

Lemma remove_label_present_then_absent_witness :
  In "B"%string (map label scenario_A)
  /\ exists t', remove_label "B" scenario_A = (Returned tt, t')
       /\ (forall r, In r t' <-> In r scenario_A /\ label r <> "B"%string)
       /\ remove_label "B" t' = (Raised (KeyError "B"), t').
Proof.
  assert (H : In "B"%string (map label scenario_A)) by (right; now left).
  split; [exact H|].
  exact (remove_label_present_then_absent "B" scenario_A H).
Defined.

Lemma nunique_single (s : list string) (l : string) :
  (forall x, In x s -> x = l) -> (nunique s <= 1)%nat.
Proof.
  intros H. change 1%nat with (nunique [l]). apply nunique_incl.
  intros x Hx. left. symmetry. now apply H.
Qed.

(** [X11].  On a table whose rows all carry one label, reciprocal remove
    keeps exactly the rows with a positive count: every attested n-gram
    is attested under all the labels there are. *)
Theorem reciprocal_remove_single_label (l : string) (t : DataFrame) :
  (forall r, In r t -> label r = l) ->
  _reciprocal_remove t = filter (fun r => 0 <? count r) t.
Proof.
  intros Hl. rewrite _reciprocal_remove_filter. apply filter_ext_in.
  intros r Hr. unfold kept_by_reciprocal_remove.
  destruct (0 <? count r) eqn:Hc; [|reflexivity]. simpl. apply Nat.eqb_eq.
  assert (Hup : (nunique (map label t) <= 1)%nat).
  { apply (nunique_single _ l). intros x Hx. apply in_map_iff in Hx.
    destruct Hx as [r' [Hx Hr']]. subst x. now apply Hl. }
  assert (Hlow : (0 < attested_labels (ngram r) t)%nat).
  { unfold attested_labels. apply (nunique_nonempty _ (label r)). apply in_map.
    apply filter_In. split; [exact Hr|]. rewrite Hc.
    destruct (string_dec (ngram r) (ngram r)); [reflexivity | contradiction]. }
  pose proof (attested_labels_le (ngram r) t). lia.
Qed.

Lemma reciprocal_remove_single_label_witness :
  (forall r, In r table_with_zero_row -> label r = "A"%string)
  /\ _reciprocal_remove table_with_zero_row
     = filter (fun r => 0 <? count r) table_with_zero_row.
Proof.
  assert (H : forall r, In r table_with_zero_row -> label r = "A"%string).
  { intros r Hr. simpl in Hr. destruct Hr as [Hr|[Hr|[]]]; now subst r. }
  split; [exact H|].
  exact (reciprocal_remove_single_label "A" table_with_zero_row H).
Defined.

(** [X12].  Reciprocal remove loses no label: if any row is left, every
    label of the input labels a row of the result. *)
Theorem reciprocal_remove_keeps_every_label (t : DataFrame) (l : string) :
  _reciprocal_remove t <> [] ->
  In l (map label t) -> In l (map label (_reciprocal_remove t)).
Proof.
  intros Hne Hl. destruct (_reciprocal_remove t) as [|r rest] eqn:Hrr; [congruence|].
  rewrite <- Hrr in *. clear Hne.
  assert (Hr : In r (_reciprocal_remove t)) by (rewrite Hrr; now left).
  pose proof Hr as Hk. rewrite _reciprocal_remove_filter in Hk.
  apply filter_In in Hk. destruct Hk as [_ Hk].
  unfold kept_by_reciprocal_remove in Hk. apply andb_true_iff in Hk.
  destruct Hk as [_ Hk]. apply Nat.eqb_eq in Hk.
  (* the labels attested for the n-gram of [r] are all the labels of [t] *)
  set (att := map label (filter (fun x => (if string_dec (ngram x) (ngram r)
                                           then true else false) && (0 <? count x)) t)) in *.
  assert (Hincl : incl (nodup string_dec att) (nodup string_dec (map label t))).
  { intros x Hx. apply nodup_In. apply nodup_In in Hx. unfold att in Hx.
    apply in_map_iff in Hx. destruct Hx as [y [Hy Hin]]. apply filter_In in Hin.
    apply in_map_iff. exists y. tauto. }
  assert (Hback : incl (nodup string_dec (map label t)) (nodup string_dec att)).
  { apply NoDup_length_incl; [apply NoDup_nodup | | exact Hincl].
    unfold attested_labels, nunique in Hk. fold att in Hk. lia. }
  assert (Hatt : In l att).
  { apply (nodup_In string_dec). apply Hback. now apply nodup_In. }
  unfold att in Hatt. apply in_map_iff in Hatt. destruct Hatt as [y [Hy Hin]].
  apply filter_In in Hin. destruct Hin as [Hin Hc].
  apply andb_true_iff in Hc. destruct Hc as [Hng Hc].
  apply in_map_iff. exists y. split; [exact Hy|].
  rewrite _reciprocal_remove_filter. apply filter_In. split; [exact Hin|].
  unfold kept_by_reciprocal_remove. rewrite Hc. simpl.
  destruct (string_dec (ngram y) (ngram r)) as [e|]; [|discriminate].
  rewrite e. now apply Nat.eqb_eq.
Qed.

Lemma reciprocal_remove_keeps_every_label_witness :
  _reciprocal_remove scenario_A <> []
  /\ In "B"%string (map label scenario_A)
  /\ In "B"%string (map label (_reciprocal_remove scenario_A)).
Proof.
  assert (H1 : _reciprocal_remove scenario_A <> []) by (vm_compute; discriminate).
  assert (H2 : In "B"%string (map label scenario_A)) by (right; now left).
  split; [exact H1|]. split; [exact H2|].
  exact (reciprocal_remove_keeps_every_label scenario_A "B" H1 H2).
Defined.

(** [X13].  The test for intersect results looks only at the n-gram of the
    first row: it is true exactly when some other row has that n-gram
    under another label, whatever the other n-grams of the table are; so a
    table whose rows all carry one label is never taken for intersect
    results. *)
Theorem is_intersect_results_tests_first_ngram (sample : row) (rest : DataFrame) :
  (_is_intersect_results (sample :: rest) = true <->
     exists r, In r rest /\ ngram r = ngram sample /\ label r <> label sample)
  /\ ((forall r, In r rest -> label r = label sample) ->
      _is_intersect_results (sample :: rest) = false).
Proof.
  assert (Hiff : _is_intersect_results (sample :: rest) = true <->
     exists r, In r rest /\ ngram r = ngram sample /\ label r <> label sample).
  { unfold _is_intersect_results.
    set (p := fun r => String.eqb (ngram r) (ngram sample)
                       && negb (String.eqb (label r) (label sample))).
    assert (Hp : forall r, p r = true <-> ngram r = ngram sample /\ label r <> label sample).
    { intros r. unfold p.
      rewrite andb_true_iff, negb_true_iff, String.eqb_eq, String.eqb_neq. tauto. }
    destruct (filter p (sample :: rest)) as [|r l] eqn:Hf.
    - split; [discriminate|]. intros [r [Hr Hc]].
      assert (Hin : In r (filter p (sample :: rest))).
      { apply filter_In. split; [now right | now apply Hp]. }
      rewrite Hf in Hin. contradiction.
    - split; [|reflexivity]. intros _.
      assert (Hin : In r (filter p (sample :: rest))) by (rewrite Hf; now left).
      apply filter_In in Hin. destruct Hin as [Hin Hc]. apply Hp in Hc.
      destruct Hin as [Hin|Hin]; [subst r; tauto|]. now exists r. }
  split; [exact Hiff|].
  intros Hl. apply not_true_is_false. intros Hi.
  apply Hiff in Hi. destruct Hi as [r [Hr [_ Hne]]]. now specialize (Hl r Hr).
Qed.

(** *** Reduce: the rows returned *)

Lemma reduce_rows_triples (labels : dict string string) (ws : string * string)
    (wd : witness_data) (r : row) :
  In r (reduce_rows labels (ws, wd)) ->
  (work r, siglum r) = ws /\ In (ngram r) (keys wd).
Proof.
  destruct ws as [wrk sig]. unfold reduce_rows. intros H. apply in_flat_map in H.
  destruct H as [[ng d] [Hin Hr]].
  destruct (0 <? nd_count d); [|contradiction].
  destruct (dget string_dec wrk labels); [|contradiction].
  destruct Hr as [Hr|[]]. subst r. simpl. split; [reflexivity|].
  unfold keys. apply in_map_iff. now exists (ng, d).
Qed.

Lemma reduce_rows_NoDup (labels : dict string string) (ws : string * string)
    (wd : witness_data) :
  well_keyed wd -> NoDup (map triple (reduce_rows labels (ws, wd))).
Proof.
  destruct ws as [wrk sig]. unfold well_keyed, keys, reduce_rows, items.
  induction wd as [|[ng d] wd IH]; intros Hk; [constructor|].
  inversion Hk as [|k l Hng Hl]; subst. cbn [flat_map]. rewrite map_app.
  apply NoDup_app; [| now apply IH |].
  - destruct (0 <? nd_count d); [|constructor].
    destruct (dget string_dec wrk labels); repeat constructor. intros [].
  - intros tr H1 H2. apply in_map_iff in H2. destruct H2 as [r [Htr Hr]].
    assert (Hin : In r (reduce_rows labels ((wrk, sig), wd))) by exact Hr.
    apply reduce_rows_triples in Hin. destruct Hin as [_ Hin].
    destruct (0 <? nd_count d); [|contradiction].
    destruct (dget string_dec wrk labels); [|contradiction].
    destruct H1 as [H1|[]]. subst tr. unfold triple in Htr. simpl in Htr.
    inversion Htr as [[Hn Hw Hs]]. apply Hng. unfold keys in Hin. now rewrite <- Hn.
Qed.

(** [X14].  Whatever the table, the rows that Reduce returns have distinct
    (n-gram, work, siglum): where the input repeats one, Reduce keeps one
    row for it. *)
Theorem reduce_returns_distinct_triples (tokenizer : Tokenizer) (t : DataFrame) :
  NoDup (map triple (reduce tokenizer t)).
Proof.
  pose proof (loaded_fold t [] ([], []) loaded_nil) as [Hk [Hin _]].
  unfold reduce. destruct (fold_left reduce_load t ([], [])) as [data labels].
  cbn [fst] in Hk, Hin. unfold items.
  assert (Hwk : forall ws wd, In (ws, wd) (map (fun '(k, wd) => (k, reduce_witness tokenizer wd)) data) ->
                  well_keyed wd).
  { intros ws wd H. apply In_map_values in H. destruct H as [wd0 [H0 Hwd]]. subst wd.
    unfold well_keyed. destruct (reduce_witness_lowered tokenizer wd0) as [Hkeys _].
    rewrite Hkeys. now apply (Hin ws). }
  assert (Hkeys : NoDup (keys (map (fun '(k, wd) => (k, reduce_witness tokenizer wd)) data))).
  { unfold keys. rewrite map_map.
    replace (map (fun x => fst (let '(k, wd) := x in (k, reduce_witness tokenizer wd))) data)
      with (map fst data); [exact Hk|].
    apply map_ext. now intros [k wd]. }
  revert Hwk Hkeys.
  generalize (map (fun '(k, wd) => (k, reduce_witness tokenizer wd)) data) as data'.
  clear. intros data'. induction data' as [|[ws wd] data' IH]; intros Hwk Hkeys;
    [constructor|].
  unfold keys in Hkeys. cbn [map fst] in Hkeys.
  inversion Hkeys as [|k l Hws Hl]; subst.
  cbn [flat_map]. rewrite map_app. apply NoDup_app.
  - apply reduce_rows_NoDup. apply (Hwk ws). now left.
  - apply IH; [|exact Hl]. intros ws' wd' H. apply (Hwk ws'). now right.
  - intros tr H1 H2. apply in_map_iff in H1, H2.
    destruct H1 as [r1 [Ht1 Hr1]], H2 as [r2 [Ht2 Hr2]].
    apply reduce_rows_triples in Hr1. destruct Hr1 as [Hws1 _].
    apply in_flat_map in Hr2. destruct Hr2 as [[ws2 wd2] [Hin2 Hr2]].
    apply reduce_rows_triples in Hr2. destruct Hr2 as [Hws2 _].
    apply Hws. apply in_map_iff. exists (ws2, wd2). split; [|exact Hin2].
    simpl. unfold triple in Ht1, Ht2. rewrite <- Ht1 in Ht2. inversion Ht2. congruence.
Qed.

Lemma reduce_load_labels_eq (data : dict (string * string) witness_data)
    (labels : dict string string) (r : row) :
  snd (reduce_load (data, labels) r) = dset string_dec (work r) (label r) labels.
Proof.
  unfold reduce_load, setdefault.
  destruct (dget pair_dec (work r, siglum r) data); reflexivity.
Qed.

Lemma recorded_step (seen : list row)
    (st : dict (string * string) witness_data * dict string string) (r : row) :
  recorded seen st -> recorded (seen ++ [r]) (reduce_load st r).
Proof.
  destruct st as [data labels]. intros [Hsize Hlabel]. cbn [fst snd] in *. split.
  - rewrite reduce_load_data.
    assert (Hold : forall ws ng d,
               dget2 pair_dec string_dec ws ng data = Some d ->
               exists r0, In r0 (seen ++ [r]) /\ triple r0 = (ng, fst ws, snd ws)
                          /\ size r0 = nd_size d).
    { intros ws ng d H. destruct (Hsize ws ng d H) as [r0 [H0 H1]].
      exists r0. split; [apply in_or_app; now left | exact H1]. }
    assert (Hnew : exists r0, In r0 (seen ++ [r])
                     /\ triple r0 = (ngram r, fst (work r, siglum r), snd (work r, siglum r))
                     /\ size r0 = nd_size (mkNgramData (count r) (size r))).
    { exists r. split; [apply in_or_app; right; now left | split; reflexivity]. }
    intros ws ng d H.
    destruct (dget pair_dec (work r, siglum r) data) as [wd|] eqn:Hws.
    + rewrite dget2_dset in H by (now left).
      destruct (pair_dec ws (work r, siglum r)) as [e|n]; [|now apply Hold].
      destruct (string_dec ng (ngram r)) as [e'|n']; [|now apply Hold].
      inversion H; subst. exact Hnew.
    + rewrite dget2_dset in H by (left; apply dget_dset_eq).
      destruct (pair_dec ws (work r, siglum r)) as [e|n].
      * destruct (string_dec ng (ngram r)) as [e'|n'].
        -- inversion H; subst. exact Hnew.
        -- subst ws. unfold dget2 in H. rewrite dget_dset_eq in H. discriminate H.
      * unfold dget2 in H. rewrite dget_dset_ne in H by congruence. now apply Hold.
  - rewrite reduce_load_labels_eq. intros w l H. rewrite dget_dset in H.
    destruct (string_dec w (work r)) as [e|n].
    + inversion H; subst. exists r. split; [apply in_or_app; right; now left | now split].
    + destruct (Hlabel w l H) as [r0 [H0 H1]]. exists r0.
      split; [apply in_or_app; now left | exact H1].
Qed.

Lemma recorded_fold (l seen : list row)
    (st : dict (string * string) witness_data * dict string string) :
  recorded seen st -> recorded (seen ++ l) (fold_left reduce_load l st).
Proof.
  revert seen st. induction l as [|r l IH]; intros seen st H; cbn [fold_left].
  - now rewrite app_nil_r.
  - replace (seen ++ r :: l) with ((seen ++ [r]) ++ l) by (now rewrite <- app_assoc).
    apply IH. now apply recorded_step.
Qed.

(** [X15].  Every row that Reduce returns has the n-gram, work, siglum and
    size of a row of the input, and the label of a row of the input of the
    same work: Reduce makes no new n-gram or witness and does not compute
    sizes anew. *)
Theorem reduce_rows_come_from_input (tokenizer : Tokenizer) (t : DataFrame) (r' : row) :
  In r' (reduce tokenizer t) ->
  (exists r, In r t /\ triple r = triple r' /\ size r = size r')
  /\ (exists r, In r t /\ work r = work r' /\ label r = label r').
Proof.
  intros H.
  pose proof (loaded_fold t [] ([], []) loaded_nil) as [Hk [Hin _]].
  assert (Hrec : recorded t (fold_left reduce_load t ([], []))).
  { apply (recorded_fold t [] ([], [])). split; [intros ws ng d Hd | intros w l Hd];
      discriminate Hd. }
  destruct Hrec as [Hsize Hlabel].
  unfold reduce in H. destruct (fold_left reduce_load t ([], [])) as [data labels].
  cbn [fst snd] in *.
  apply in_flat_map in H. destruct H as [[[wrk sig] wd'] [Hitem Hr]].
  apply In_map_values in Hitem. destruct Hitem as [wd [Hitem Hwd]]. subst wd'.
  unfold reduce_rows in Hr. apply in_flat_map in Hr. destruct Hr as [[ng d'] [Hd' Hr]].
  destruct (0 <? nd_count d'); [|contradiction].
  destruct (dget string_dec wrk labels) as [lbl|] eqn:Hlbl; [|contradiction].
  destruct Hr as [Hr|[]]. subst r'. unfold triple. simpl.
  pose proof (reduce_witness_lowered tokenizer wd) as [Hkeys Hlow].
  assert (Hwk : well_keyed (reduce_witness tokenizer wd)).
  { unfold well_keyed. rewrite Hkeys. apply (Hin _ _ Hitem). }
  pose proof (In_dget string_dec _ _ _ Hwk Hd') as Hg'.
  specialize (Hlow ng). rewrite Hg' in Hlow.
  destruct (dget string_dec ng wd) as [d|] eqn:Hg; [|contradiction].
  destruct Hlow as [_ Hsz]. split.
  - destruct (Hsize (wrk, sig) ng d) as [r [Hr [Ht Hs]]].
    { unfold dget2. now rewrite (In_dget pair_dec _ _ _ Hk Hitem). }
    exists r. split; [exact Hr|]. split; [exact Ht | congruence].
  - destruct (Hlabel wrk lbl Hlbl) as [r [Hr [Hw Hl]]]. now exists r.
Qed.

Lemma reduce_rows_come_from_input_witness :
  In (mkRow "a" 1 "W" "base" "A" 1) (reduce character_tokenizer bigram_table)
  /\ exists r, In r bigram_table /\ triple r = ("a", "W", "base")%string /\ size r = 1.
Proof.
  assert (H : In (mkRow "a" 1 "W" "base" "A" 1) (reduce character_tokenizer bigram_table))
    by (vm_compute; now left).
  split; [exact H|].
  exact (proj1 (reduce_rows_come_from_input character_tokenizer bigram_table _ H)).
Defined.

(** *** Zero fill: when the added rows are right *)

Lemma zero_fill_returned_catalogued (corpus : Corpus) (catalogue : Catalogue)
    (t t' : DataFrame) (r : row) :
  zero_fill corpus catalogue t = (Returned tt, t') ->
  In r t -> In (work r, label r) (items catalogue).
Proof.
  intros Hrun Hr.
  destruct (in_dec pair_dec (work r, label r) (items catalogue)) as [H|H]; [exact H|].
  destruct (zero_fill_raises corpus catalogue t) as [k Hk]; [now exists r|].
  rewrite Hk in Hrun. discriminate Hrun.
Qed.

(** [X16].  When zero fill returns and the group of a row (the rows of its
    label, n-gram, size and work) misses at most one of the sigla of the
    work, every siglum of the work has a row of that group in the result;
    and when no group misses a siglum, the result is the input. *)
Theorem zero_fill_fills_single_gaps (corpus : Corpus) (catalogue : Catalogue)
    (t t' : DataFrame) :
  zero_fill corpus catalogue t = (Returned tt, t') ->
  (forall r0, In r0 t ->
     (length (missing_sigla (zero_fill_group_of t r0) (get_sigla corpus (work r0))) <= 1)%nat ->
     forall sig, In sig (get_sigla corpus (work r0)) ->
       exists r, In r t' /\ grouping_cols r = grouping_cols r0 /\ siglum r = sig)
  /\ ((forall r0, In r0 t ->
         missing_sigla (zero_fill_group_of t r0) (get_sigla corpus (work r0)) = []) ->
      t' = t).
Proof.
  intros Hrun.
  pose proof (zero_fill_added_rows corpus catalogue t t' Hrun) as Ht'.
  assert (Hrows : forall r0, In r0 t ->
            zero_rows_of_group (witnesses_by_label corpus catalogue)
              (grouping_cols r0, zero_fill_group_of t r0)
            = repeat (mkRow (ngram r0) (size r0) (work r0)
                        (last (missing_sigla (zero_fill_group_of t r0)
                                 (get_sigla corpus (work r0))) EmptyString)
                        (label r0) 0)
                (length (missing_sigla (zero_fill_group_of t r0)
                           (get_sigla corpus (work r0))))).
  { intros r0 Hr0. unfold zero_rows_of_group, grouping_cols.
    rewrite lookup2_witnesses_by_label.
    destruct (in_dec pair_dec (work r0, label r0) (items catalogue)) as [|Hn];
      [reflexivity|].
    exfalso. apply Hn. now apply (zero_fill_returned_catalogued corpus catalogue t t'). }
  split.
  - intros r0 Hr0 Hmiss sig Hsig.
    destruct (filter (fun r => String.eqb (siglum r) sig) (zero_fill_group_of t r0))
      as [|r l] eqn:Hf.
    + (* [sig] is the one missing siglum *)
      assert (Hin : In sig (missing_sigla (zero_fill_group_of t r0)
                              (get_sigla corpus (work r0)))).
      { unfold missing_sigla. apply filter_In. split; [exact Hsig|]. now rewrite Hf. }
      destruct (missing_sigla (zero_fill_group_of t r0) (get_sigla corpus (work r0)))
        as [|m [|m' ms]] eqn:Hm; [contradiction | | simpl in Hmiss; lia].
      destruct Hin as [Hin|[]]. subst m.
      exists (mkRow (ngram r0) (size r0) (work r0) sig (label r0) 0).
      split; [|split; reflexivity].
      rewrite Ht'. apply in_or_app. right. apply in_flat_map.
      exists (grouping_cols r0, zero_fill_group_of t r0). split.
      * unfold groupby_unsorted, zero_fill_group_of. apply in_map_iff.
        exists (grouping_cols r0). split; [reflexivity|].
        apply In_unique. now apply in_map.
      * rewrite (Hrows r0 Hr0), Hm. now left.
    + assert (Hin : In r (filter (fun r => String.eqb (siglum r) sig)
                            (zero_fill_group_of t r0))) by (rewrite Hf; now left).
      apply filter_In in Hin. destruct Hin as [Hin Hs]. apply String.eqb_eq in Hs.
      unfold zero_fill_group_of in Hin. apply filter_In in Hin. destruct Hin as [Hin Hg].
      destruct (grouping_cols_dec (grouping_cols r) (grouping_cols r0)) as [e|];
        [|discriminate].
      exists r. split; [|now split]. rewrite Ht'. apply in_or_app. now left.
  - intros Hnone. rewrite Ht'. transitivity (t ++ []); [|apply app_nil_r]. f_equal.
    unfold groupby_unsorted.
    assert (Hall : forall ks, (forall k, In k ks -> In k (map grouping_cols t)) ->
              flat_map (zero_rows_of_group (witnesses_by_label corpus catalogue))
                (map (fun k => (k, filter (fun r => if grouping_cols_dec (grouping_cols r) k
                                                     then true else false) t)) ks) = []).
    { induction ks as [|k ks IH]; intros Hks; [reflexivity|].
      cbn [map flat_map]. rewrite IH by (intros k' Hk'; apply Hks; now right).
      rewrite app_nil_r.
      destruct (proj1 (in_map_iff _ _ _) (Hks k (or_introl eq_refl))) as [r0 [Hk Hr0]].
      subst k. specialize (Hrows r0 Hr0). specialize (Hnone r0 Hr0).
      rewrite Hnone in Hrows. exact Hrows. }
    apply Hall. intros k Hk. now apply In_unique in Hk.
Qed.

Lemma zero_fill_fills_single_gaps_witness :
  zero_fill two_witness_corpus one_work_catalogue one_row_table
  = (Returned tt, one_row_table ++ [mkRow "a" 1 "W" "s2" "A" 0])
  /\ exists r, In r (one_row_table ++ [mkRow "a" 1 "W" "s2" "A" 0])
       /\ grouping_cols r = grouping_cols (mkRow "a" 1 "W" "s1" "A" 2)
       /\ siglum r = "s2"%string.
Proof.
  assert (Hrun : zero_fill two_witness_corpus one_work_catalogue one_row_table
                 = (Returned tt, one_row_table ++ [mkRow "a" 1 "W" "s2" "A" 0]))
    by reflexivity.
  split; [exact Hrun|].
  apply (proj1 (zero_fill_fills_single_gaps two_witness_corpus one_work_catalogue
                  one_row_table _ Hrun) (mkRow "a" 1 "W" "s1" "A" 2)).
  - now left.
  - vm_compute. lia.
  - right. now left.
Defined.

(** *** Extend: what it leaves alone and what it needs *)

Lemma extend_witnesses_rows (fuel : nat) (tokenizer : Tokenizer) (corpus : Corpus)
    (matches : DataFrame) (highest_n : Z) (witnesses : list (string * string * string))
    (extended_matches result : DataFrame) :
  extend_witnesses fuel tokenizer corpus matches highest_n witnesses extended_matches
  = Returned result ->
  (forall wrk sig lbl, In (wrk, sig, lbl) witnesses ->
     exists extended_ngrams,
       _generate_extended_ngrams fuel tokenizer matches wrk sig lbl corpus highest_n
       = Returned extended_ngrams)
  /\ (forall r, In r result ->
        In r extended_matches
        \/ exists wrk sig lbl extended_ngrams,
             In (wrk, sig, lbl) witnesses
             /\ In r (_generate_extended_matches tokenizer extended_ngrams highest_n
                        wrk sig lbl)).
Proof.
  revert extended_matches.
  induction witnesses as [|[[wrk sig] lbl] witnesses IH]; intros acc Hrun;
    cbn [extend_witnesses] in Hrun.
  - inversion Hrun; subst. split; [intros w s l [] | intros r Hr; now left].
  - destruct (_generate_extended_ngrams fuel tokenizer matches wrk sig lbl corpus highest_n)
      as [extended_ngrams| |] eqn:Hgen; try discriminate Hrun.
    destruct (IH _ Hrun) as [Hall Hrows]. split.
    + intros w s l [Hw|Hw]; [|now apply Hall].
      inversion Hw; subst. now exists extended_ngrams.
    + intros r Hr. destruct (Hrows r Hr) as [Hacc|[w [s [l [e [Hw He]]]]]].
      * apply in_app_or in Hacc. destruct Hacc as [Hacc|Hnew]; [now left|].
        right. exists wrk, sig, lbl, extended_ngrams. split; [now left | exact Hnew].
      * right. exists w, s, l, e. split; [now right | exact He].
Qed.

(** [X17].  Extend returns a table only if the corpus has the witness of
    every row of the largest size (when that size is not 1): a row that
    names a witness the corpus lacks makes it raise, not skip the row. *)
Theorem extend_needs_every_witness (fuel : nat) (tokenizer : Tokenizer)
    (corpus : Corpus) (t t' : DataFrame) (r : row) :
  extend fuel tokenizer corpus t = (Returned tt, t') ->
  highest_size t <> 1 ->
  In r t -> size r = highest_size t ->
  get_witness corpus (work r) (siglum r) <> None.
Proof.
  intros Hrun Hone Hr Hsize. unfold extend in Hrun.
  destruct t as [|r0 t0] eqn:Ht; [contradiction|]. rewrite <- Ht in *. clear r0 t0 Ht.
  apply Z.eqb_neq in Hone. rewrite Hone in Hrun.
  set (matches := filter (fun r => size r =? highest_size t) t) in Hrun.
  destruct (extend_witnesses fuel tokenizer corpus matches (highest_size t)
              (unique witness_cols_dec (map witness_cols matches)) [])
    as [extended_matches| |] eqn:Hloop; try discriminate Hrun.
  destruct (extend_witnesses_rows _ _ _ _ _ _ _ _ Hloop) as [Hall _].
  destruct (Hall (work r) (siglum r) (label r)) as [e He].
  { apply In_unique. change (work r, siglum r, label r) with (witness_cols r).
    apply in_map. apply filter_In. split; [exact Hr | now apply Z.eqb_eq]. }
  apply _generate_extended_ngrams_verified in He. destruct He as [content [Hw _]].
  congruence.
Qed.

Lemma extend_needs_every_witness_witness :
  extend 5 character_tokenizer scenario_B_corpus scenario_B
  = (Returned tt, extended_scenario_B)
  /\ get_witness scenario_B_corpus "W" "base" <> None.
Proof.
  assert (Hrun : extend 5 character_tokenizer scenario_B_corpus scenario_B
                 = (Returned tt, extended_scenario_B)) by reflexivity.
  split; [exact Hrun|].
  apply (extend_needs_every_witness 5 character_tokenizer scenario_B_corpus scenario_B
           extended_scenario_B (mkRow "abc" 3 "W" "base" "A" 1) Hrun).
  - vm_compute. discriminate.
  - now left.
  - reflexivity.
Defined.

(** [X18].  Whatever the tokenizer and the corpus, Extend only appends: the
    table it leaves is the input followed by added rows; there are none
    when it raises or when the largest size of the input is 1; and an added
    row has a size above the largest size of the input and the work, siglum
    and label of an input row of that largest size. *)
Theorem extend_only_appends (fuel : nat) (tokenizer : Tokenizer) (corpus : Corpus)
    (t t' : DataFrame) (o : outcome unit) :
  extend fuel tokenizer corpus t = (o, t') ->
  exists added,
    t' = t ++ added
    /\ (o <> Returned tt -> added = [])
    /\ (highest_size t = 1 -> o = Returned tt /\ added = [])
    /\ (forall r, In r added ->
          highest_size t < size r
          /\ exists r0, In r0 t /\ size r0 = highest_size t
               /\ work r0 = work r /\ siglum r0 = siglum r /\ label r0 = label r).
Proof.
  intros Hrun. unfold extend in Hrun.
  destruct t as [|r0 t0] eqn:Ht.
  { inversion Hrun; subst. exists []. split; [reflexivity|].
    split; [reflexivity|]. split; [now split|]. intros r []. }
  rewrite <- Ht in *. clear r0 t0 Ht.
  destruct (highest_size t =? 1) eqn:Hone.
  { inversion Hrun; subst. exists []. rewrite app_nil_r. split; [reflexivity|].
    split; [reflexivity|]. split; [now split|]. intros r []. }
  apply Z.eqb_neq in Hone.
  set (matches := filter (fun r => size r =? highest_size t) t) in Hrun.
  destruct (extend_witnesses fuel tokenizer corpus matches (highest_size t)
              (unique witness_cols_dec (map witness_cols matches)) [])
    as [extended_matches| |] eqn:Hloop; inversion Hrun; subst o t'; clear Hrun.
  - eexists. split; [reflexivity|]. split; [congruence|]. split; [congruence|].
    intros r Hr.
    assert (Hr' : In r extended_matches).
    { destruct (_is_intersect_results t); [|exact Hr].
      rewrite _reciprocal_remove_filter in Hr. now apply filter_In in Hr. }
    destruct (extend_witnesses_rows _ _ _ _ _ _ _ _ Hloop) as [_ Hrows].
    destruct (Hrows r Hr') as [[]|[wrk [sig [lbl [e [Hw He]]]]]].
    apply In__generate_extended_matches in He.
    destruct He as [Hwrk [Hsig [Hlbl [e' [_ [Hsz _]]]]]].
    split; [lia|].
    apply In_unique, in_map_iff in Hw. destruct Hw as [r1 [Hcols Hr1]].
    unfold matches in Hr1. apply filter_In in Hr1. destruct Hr1 as [Hr1 Hs].
    apply Z.eqb_eq in Hs. inversion Hcols. exists r1. repeat split; congruence.
  - exists []. rewrite app_nil_r. split; [reflexivity|]. split; [reflexivity|].
    split; [intros; contradiction | intros r []].
  - exists []. rewrite app_nil_r. split; [reflexivity|]. split; [reflexivity|].
    split; [intros; contradiction | intros r []].
Qed.

Lemma extend_only_appends_witness :
  exists added,
    extended_scenario_B = scenario_B ++ added
    /\ (Returned tt <> Returned tt -> added = [])
    /\ (highest_size scenario_B = 1 -> Returned tt = Returned tt /\ added = [])
    /\ (forall r, In r added ->
          highest_size scenario_B < size r
          /\ exists r0, In r0 scenario_B /\ size r0 = highest_size scenario_B
               /\ work r0 = work r /\ siglum r0 = siglum r /\ label r0 = label r).
Proof.
  apply (extend_only_appends 5 character_tokenizer scenario_B_corpus scenario_B
           extended_scenario_B (Returned tt)).
  reflexivity.
Defined.

(** *** Prune by per-work count, twice *)

(** [X19].  Prune by per-work count is idempotent: a second prune with the
    same bounds keeps every row that the first kept. *)
Theorem prune_by_ngram_count_per_work_idempotent
    (minimum maximum : option Z) (t : DataFrame) :
  prune_by_ngram_count_per_work minimum maximum
    (prune_by_ngram_count_per_work minimum maximum t)
  = prune_by_ngram_count_per_work minimum maximum t.
Proof.
  rewrite (prune_by_ngram_count_per_work_filter minimum maximum
             (prune_by_ngram_count_per_work minimum maximum t)).
  apply filter_all. intros r Hr.
  rewrite prune_by_ngram_count_per_work_filter in Hr |- *.
  apply filter_In in Hr. destruct Hr as [Hr Hk]. apply isin_In. apply isin_In in Hk.
  apply in_map_iff in Hk. destruct Hk as [r' [Hng Hq]].
  apply in_map_iff. exists r'. split; [exact Hng|].
  apply filter_In in Hq. destruct Hq as [Hr' Hb].
  apply filter_In. split; [|exact Hb].
  apply filter_In. split; [exact Hr'|].
  apply isin_In, in_map_iff. exists r'. split; [reflexivity|].
  apply filter_In. now split.
Qed.
